(** * Kudu storage and replication core: a shallow embedding

    The development follows the C++ sources of the per-tablet core:
    - [kudu/common/rowblock.cc]               (module [RowBlock])
    - [kudu/tablet/tablet_replica_mm_ops.cc]  (module [MmOps])
    - [kudu/fs/dir_manager.cc]                (module [DirManager])
    - [kudu/cfile/binary_dict_block.cc]       (modules [Cfile],
                                               [BinaryDictBuilder] and
                                               [BinaryDictDecoder])
    - [kudu/consensus/consensus_peers.cc]     (module [ConsensusPeers])

    Machine integers are [Z] (or [nat] for sizes that only count), bytes
    are [Z] in the range [0, 256), C++ [double] is the IEEE binary64
    format of [SpecFloat], [std::set<int>] is a [gset Z] and the
    string-to-codeword hash map is a [gmap string Z]. *)

From Stdlib Require Import ZArith List Bool Lia ZifyNat String.
From Stdlib Require Import SpecFloat.
From stdpp Require Import base list gmap sets strings.

Local Open Scope Z_scope.

(* ===================================================================== *)
(** * kudu::Status *)
(* ===================================================================== *)

Module Status.

(** The status codes of [kudu/util/status.h] that the modelled code
    produces or inspects. *)
Inductive Code : Type :=
| kOk
| kNotFound
| kCorruption
| kNotSupported
| kInvalidArgument
| kIOError
| kIllegalState
| kServiceUnavailable
| kRuntimeError.

(** A status carries its code and, for IO errors, the posix errno
    ([-1] when none was recorded). *)
Record t : Type := mk { code : Code; posix_code : Z }.

Definition OK : t := mk kOk (-1).
Definition NotFound : t := mk kNotFound (-1).
Definition Corruption : t := mk kCorruption (-1).
Definition IllegalState : t := mk kIllegalState (-1).
Definition IOError (errno : Z) : t := mk kIOError errno.

Definition code_eqb (a b : Code) : bool :=
  match a, b with
  | kOk, kOk | kNotFound, kNotFound | kCorruption, kCorruption
  | kNotSupported, kNotSupported | kInvalidArgument, kInvalidArgument
  | kIOError, kIOError | kIllegalState, kIllegalState
  | kServiceUnavailable, kServiceUnavailable
  | kRuntimeError, kRuntimeError => true
  | _, _ => false
  end.

Definition ok (s : t) : bool := code_eqb (code s) kOk.
Definition IsIOError (s : t) : bool := code_eqb (code s) kIOError.
Definition IsNotFound (s : t) : bool := code_eqb (code s) kNotFound.
Definition IsCorruption (s : t) : bool := code_eqb (code s) kCorruption.

(** [Status::CloneAndPrepend] only changes the message. *)
Definition CloneAndPrepend (s : t) : t := s.

End Status.

(* ===================================================================== *)
(** * kudu/common/rowblock.cc : SelectionVector *)
(* ===================================================================== *)

Module RowBlock.

Local Open Scope nat_scope.

(** Modelled from the spec: [BitmapSize] of [kudu/util/bitmap.h] (the
    header is not among the sources): the number of whole bytes that
    hold [num_bits] bits. *)
Definition BitmapSize (num_bits : nat) : nat := (num_bits + 7) / 8.

(** Modelled from the spec: [BitmapTest] of [kudu/util/bitmap.h]: bit
    [idx] lives in byte [idx >> 3] at position [idx & 7]. A read
    outside the buffer is given the value [false]. *)
Definition BitmapTest (bitmap : list Z) (idx : nat) : bool :=
  match bitmap !! (idx / 8) with
  | Some b => Z.testbit b (Z.of_nat (idx mod 8))
  | None => false
  end.

(** Modelled from the spec: [BitmapClear] of [kudu/util/bitmap.h]:
    [bitmap[idx >> 3] &= ~(1 << (idx & 7))]. *)
Definition BitmapClear (bitmap : list Z) (idx : nat) : list Z :=
  alter (fun b => Z.land b (Z.lnot (Z.shiftl 1 (Z.of_nat (idx mod 8)))))
        (idx / 8) bitmap.

(** Modelled from the spec: [BitmapChangeBits(bitmap, offset, num_bits,
    false)] of [kudu/util/bitmap.h]: the bits [offset .. offset +
    num_bits - 1] are cleared. *)
Fixpoint BitmapClearBits (bitmap : list Z) (offset num_bits : nat) : list Z :=
  match num_bits with
  | O => bitmap
  | S k => BitmapClearBits (BitmapClear bitmap offset) (S offset) k
  end.

(** Population count of one byte. *)
Definition popcount8 (b : Z) : nat :=
  length (filter (fun k => Z.testbit b (Z.of_nat k) = true) (seq 0 8)).

(** Modelled from the spec: [Bits::Count(addr, n_bytes)] of
    [kudu/gutil/bits.h]: the number of set bits in the first [n_bytes]
    bytes. *)
Definition Bits_Count (bitmap : list Z) (n_bytes : nat) : nat :=
  foldr (fun b acc => popcount8 b + acc) 0 (take n_bytes bitmap).

Record SelectionVector : Type := mkSelectionVector {
  bytes_capacity_ : nat;
  n_rows_ : nat;
  n_bytes_ : nat;
  bitmap_ : list Z
}.

Definition nrows (sv : SelectionVector) : nat := n_rows_ sv.

(** Modelled from the spec: [SelectionVector::PadExtraBitsWithZeroes] of
    [kudu/common/rowblock.h] (the header is not among the sources): the
    bits of the last byte that lie beyond [n_rows_] are zeroed. *)
Definition PadExtraBitsWithZeroes (sv : SelectionVector) : SelectionVector :=
  let bits_in_last_byte := n_rows_ sv mod 8 in
  if 0 <? bits_in_last_byte
  then mkSelectionVector (bytes_capacity_ sv) (n_rows_ sv) (n_bytes_ sv)
         (BitmapClearBits (bitmap_ sv) (n_rows_ sv) (8 - bits_in_last_byte))
  else sv.

(** [SelectionVector::SelectionVector(row_capacity)]. The array comes
    from [new uint8_t[n_bytes_]] and is not initialised: [mem] is
    whatever the allocator returned. *)
Definition SelectionVector_new (row_capacity : nat) (mem : list Z)
  : SelectionVector :=
  PadExtraBitsWithZeroes
    (mkSelectionVector (BitmapSize row_capacity) row_capacity
                       (BitmapSize row_capacity) mem).

(** [SelectionVector::Resize]; [None] is the abort of [CHECK_LE]. *)
Definition Resize (sv : SelectionVector) (n_rows : nat)
  : option SelectionVector :=
  if n_rows =? n_rows_ sv then Some sv
  else
    let new_bytes := BitmapSize n_rows in
    if new_bytes <=? bytes_capacity_ sv
    then Some (PadExtraBitsWithZeroes
                 (mkSelectionVector (bytes_capacity_ sv) n_rows new_bytes
                                    (bitmap_ sv)))
    else None.

(** [SelectionVector::CountSelected]. *)
Definition CountSelected (sv : SelectionVector) : nat :=
  Bits_Count (bitmap_ sv) (n_bytes_ sv).

(** The little-endian 32-bit word read through [p32]. *)
Definition load32 (b0 b1 b2 b3 : Z) : Z :=
  Z.lor b0 (Z.lor (Z.shiftl b1 8) (Z.lor (Z.shiftl b2 16) (Z.shiftl b3 24))).

(** The second loop of [AnySelected]: byte by byte. *)
Fixpoint any_bytes (p8 : list Z) (rem : nat) : bool :=
  match rem, p8 with
  | S rem', b :: p8' => if negb (b =? 0)%Z then true else any_bytes p8' rem'
  | _, _ => false
  end.

(** The first loop of [AnySelected]: 32-bit words while [rem >= 4],
    then the remaining bytes. [fuel] bounds the number of words. *)
Fixpoint any_words (fuel : nat) (p : list Z) (rem : nat) : bool :=
  match fuel with
  | O => any_bytes p rem
  | S fuel' =>
      if 4 <=? rem then
        match p with
        | b0 :: b1 :: b2 :: b3 :: p' =>
            if negb (load32 b0 b1 b2 b3 =? 0)%Z then true
            else any_words fuel' p' (rem - 4)
        | _ => any_bytes p rem
        end
      else any_bytes p rem
  end.

(** [SelectionVector::AnySelected]. *)
Definition AnySelected (sv : SelectionVector) : bool :=
  any_words (n_bytes_ sv / 4) (bitmap_ sv) (n_bytes_ sv).

(** Every byte of the buffer is an 8-bit value. *)
Definition bytes_ok (bitmap : list Z) : Prop :=
  Forall (fun b => (0 <= b < 256)%Z) bitmap.

(** The representation invariant of the class: the buffer has the
    allocated size, [n_bytes_] is the byte length of [n_rows_] bits and
    fits the buffer. *)
Definition shape_ok (sv : SelectionVector) : Prop :=
  length (bitmap_ sv) = bytes_capacity_ sv /\
  n_bytes_ sv = BitmapSize (n_rows_ sv) /\
  n_bytes_ sv <= bytes_capacity_ sv /\
  bytes_ok (bitmap_ sv).

(** No bit is set between [n_rows_] and the end of the last byte in
    use. *)
Definition padded (sv : SelectionVector) : Prop :=
  forall i, n_rows_ sv <= i -> i < 8 * n_bytes_ sv ->
            BitmapTest (bitmap_ sv) i = false.

End RowBlock.

(* ===================================================================== *)
(** * kudu/tablet/tablet_replica_mm_ops.cc : the flush policy *)
(* ===================================================================== *)

Module MmOps.

(** C++ [double]: IEEE 754 binary64. *)
Definition double : Type := spec_float.
Definition prec : Z := 53.
Definition emax : Z := 1024.

(** Conversion of an integer to [double] (round to nearest even). *)
Definition double_of_Z (z : Z) : double := binary_normalize prec emax z 0 false.

Definition dsub (a b : double) : double := SFsub prec emax a b.
Definition ddiv (a b : double) : double := SFdiv prec emax a b.

(** [a >= b] and [a > b] on doubles (false when an operand is a NaN). *)
Definition dge (a b : double) : bool := SFleb b a.
Definition dgt (a b : double) : bool := SFltb b a.

(** [std::max(a, b)] is [(a < b) ? b : a] and [std::min(a, b)] is
    [(b < a) ? b : a]. *)
Definition std_max (a b : double) : double := if SFltb a b then b else a.
Definition std_min (a b : double) : double := if SFltb b a then b else a.

Definition one : double := double_of_Z 1.

(** Wrap-around of a 32-bit signed integer. *)
Definition wrap_int32 (z : Z) : Z := (z + 2 ^ 31) mod 2 ^ 32 - 2 ^ 31.

(** Modelled from the spec: [MaintenanceOpStats] of
    [kudu/util/maintenance_manager.h] (the header is not among the
    sources), with the per-op stats the spec lists. *)
Record MaintenanceOpStats : Type := mkStats {
  runnable_ : bool;
  ram_anchored_ : Z;
  logs_retained_bytes_ : Z;
  perf_improvement_ : double;
  workload_score_ : double
}.

Definition ram_anchored (stats : MaintenanceOpStats) : Z := ram_anchored_ stats.

Definition set_perf_improvement (stats : MaintenanceOpStats) (v : double)
  : MaintenanceOpStats :=
  mkStats (runnable_ stats) (ram_anchored_ stats) (logs_retained_bytes_ stats)
          v (workload_score_ stats).

Section Flags.

(** The gflags [--flush_threshold_mb], [--flush_upper_bound_ms] and
    [--flush_threshold_secs], all [int32]. *)
Variable FLAGS_flush_threshold_mb : Z.
Variable FLAGS_flush_upper_bound_ms : Z.
Variable FLAGS_flush_threshold_secs : Z.

Definition anchored_mb (stats : MaintenanceOpStats) : double :=
  ddiv (double_of_Z (ram_anchored stats)) (double_of_Z (1024 * 1024)).

Definition threshold_mb : double := double_of_Z FLAGS_flush_threshold_mb.
Definition upper_bound_ms : double := double_of_Z FLAGS_flush_upper_bound_ms.

(** [FLAGS_flush_threshold_secs * 1000] is computed on [int] and then
    converted for the comparison with [elapsed_ms]. *)
Definition time_threshold_ms : double :=
  double_of_Z (wrap_int32 (FLAGS_flush_threshold_secs * 1000)).

(** [FlushOpPerfImprovementPolicy::SetPerfImprovementForFlush]. *)
Definition SetPerfImprovementForFlush (stats : MaintenanceOpStats)
    (elapsed_ms : double) : MaintenanceOpStats :=
  if dge (anchored_mb stats) threshold_mb then
    let extra_mb := dsub (anchored_mb stats) threshold_mb in
    set_perf_improvement stats (std_max one extra_mb)
  else if dgt elapsed_ms time_threshold_ms then
    let perf := std_max (ddiv elapsed_ms upper_bound_ms)
                        (ddiv (anchored_mb stats) threshold_mb) in
    set_perf_improvement stats (std_min one perf)
  else stats.

End Flags.

End MmOps.

(* ===================================================================== *)
(** * kudu/fs/dir_manager.cc : Dir and DirManager *)
(* ===================================================================== *)

Module DirManager.

(** ** Dir: the cached available-space state *)

Inductive RefreshMode : Type := EXPIRED_ONLY | ALWAYS.

(** [MonoTime] and [MonoDelta] count nanoseconds. *)
Definition MonoTime : Type := Z.
Definition MonoDelta_FromSeconds (secs : Z) : Z := secs * 1000000000.

(** The state of a [Dir] that [RefreshAvailableSpace] reads or writes.
    [dirs_full] is the gauge of the shared [DirMetrics], [None] when
    [metrics_] is null. *)
Record Dir : Type := mkDir {
  is_full_ : bool;
  available_bytes_ : Z;
  last_space_check_ : MonoTime;
  dirs_full : option Z
}.

Section RefreshAvailableSpace.

(** [ENOSPC] of [<cerrno>] and the gflag
    [--fs_data_dirs_available_space_cache_seconds]. *)
Variable ENOSPC : Z.
Variable FLAGS_fs_data_dirs_available_space_cache_seconds : Z.

Definition available_space_cache_secs : Z :=
  FLAGS_fs_data_dirs_available_space_cache_seconds.

(** The [case RefreshMode::ALWAYS] block. [verify] is what
    [env_util::VerifySufficientDiskSpace] returned: its status and the
    value it left in [available_bytes_new]; [now_update] is the clock
    when the cache is written. *)
Definition repoll (d : Dir) (verify : Status.t * Z) (now_update : MonoTime)
  : Status.t * Dir :=
  let '(s0, available_bytes_new) := verify in
  let '(s, is_full_new) :=
    if Status.IsIOError s0 && (Status.posix_code s0 =? ENOSPC)
    then (Status.OK, true)
    else (s0, false) in
  if negb (Status.ok s) then (Status.CloneAndPrepend s, d)
  else
    let gauge :=
      match dirs_full d with
      | Some g =>
          if negb (Bool.eqb (is_full_ d) is_full_new)
          then Some (g + (if is_full_new then 1 else -1))
          else Some g
      | None => None
      end in
    (Status.OK, mkDir is_full_new available_bytes_new now_update gauge).

(** [Dir::RefreshAvailableSpace]. [now_check] is the clock read in the
    [EXPIRED_ONLY] case. *)
Definition RefreshAvailableSpace (d : Dir) (mode : RefreshMode)
    (now_check : MonoTime) (verify : Status.t * Z) (now_update : MonoTime)
  : Status.t * Dir :=
  match mode with
  | EXPIRED_ONLY =>
      let expiry :=
        last_space_check_ d + MonoDelta_FromSeconds available_space_cache_secs in
      if now_check <? expiry then (Status.OK, d)
      else repoll d verify now_update
  | ALWAYS => repoll d verify now_update
  end.

End RefreshAvailableSpace.

(** ** DirManager: the failed-directory set *)

(** [dirs_] holds the path of each directory; [failed_dirs_] is the
    [std::set<int>] of failed uuid indexes; [dirs_failed] is the gauge of
    [metrics_] ([None] when null); [error_log] collects the uuid indexes
    for which "Directory ... marked as failed" was logged. *)
Record t : Type := mk {
  dirs_ : list string;
  failed_dirs_ : gset Z;
  dirs_failed : option Z;
  error_log : list Z
}.

(** [InsertIfNotPresent(&set, v)] of [gutil/map-util.h]: inserts and
    tells whether the value was new. *)
Definition InsertIfNotPresent (s : gset Z) (v : Z) : bool * gset Z :=
  if bool_decide (v ∈ s) then (false, s) else (true, {[v]} ∪ s).

(** [DirManager::MarkDirFailed]. *)
Definition MarkDirFailed (dm : t) (uuid_idx : Z) : Status.t * t :=
  let '(inserted, failed) := InsertIfNotPresent (failed_dirs_ dm) uuid_idx in
  if inserted then
    if Nat.eqb (size failed) (length (dirs_ dm)) then
      (Status.IOError (-1), mk (dirs_ dm) failed (dirs_failed dm) (error_log dm))
    else
      (Status.OK,
       mk (dirs_ dm) failed
          (match dirs_failed dm with Some g => Some (g + 1) | None => None end)
          (error_log dm ++ [uuid_idx]))
  else (Status.OK, mk (dirs_ dm) failed (dirs_failed dm) (error_log dm)).

(** [DirManager::IsDirFailed]. *)
Definition IsDirFailed (dm : t) (uuid_idx : Z) : bool :=
  bool_decide (uuid_idx ∈ failed_dirs_ dm).

End DirManager.

(* ===================================================================== *)
(** * kudu/cfile/binary_dict_block.cc : shared pieces *)
(* ===================================================================== *)

Module Cfile.

(** A [Slice] (or [StringPiece]) is a byte string. *)
Abbreviation Slice := string (only parsing).

(** The enumerators of [DictEncodingMode] and the limits that
    [MAKE_ENUM_LIMITS] attaches to it. They are declared in
    [binary_dict_block.h], which is not among the sources, and are kept
    as parameters. *)
Class DictEncoding : Type := {
  kCodeWordMode : Z;
  kPlainBinaryMode : Z;
  DictEncodingMode_min : Z;
  DictEncodingMode_max : Z
}.

(** What the writer options decide for the sub-builders: when a
    [BinaryPlainBlockBuilder] holding the given strings reports full, and
    when a [BShufBlockBuilder<UINT32>] holding the given codewords does. *)
Class BlockLimits : Type := {
  plain_full : list Slice -> bool;
  bshuf_full : list Z -> bool
}.

(** Modelled from the spec: the header of a dictionary data block is one
    fixed 32-bit little-endian field ([kMinHeaderSize] of
    [binary_dict_block.h]). *)
Definition kMinHeaderSize : nat := 4.

Definition wrap_uint32 (z : Z) : Z := z mod 2 ^ 32.
Definition wrap_int32 (z : Z) : Z := (z + 2 ^ 31) mod 2 ^ 32 - 2 ^ 31.

(** [InlineEncodeFixed32]: four little-endian bytes. *)
Definition EncodeFixed32 (v : Z) : list Z :=
  [Z.land v 255; Z.land (Z.shiftr v 8) 255;
   Z.land (Z.shiftr v 16) 255; Z.land (Z.shiftr v 24) 255].

(** [DecodeFixed32]: the little-endian value of the first four bytes. *)
Definition DecodeFixed32 (buf : list Z) : Z :=
  Z.lor (nth 0 buf 0)
    (Z.lor (Z.shiftl (nth 1 buf 0) 8)
       (Z.lor (Z.shiftl (nth 2 buf 0) 16) (Z.shiftl (nth 3 buf 0) 24))).

(** The binary search shared by the block decoders'
    [SeekAtOrAfterValue]: [inl mid] on an exact match, [inr lo] when
    the loop ends with [lo = hi] (the source's [left] and [right]). [fuel] bounds the iterations. *)
Fixpoint seek_loop {A : Type} (cmp : A -> A -> comparison) (elems : list A)
    (target : A) (fuel lo hi : nat) : nat + nat :=
  match fuel with
  | O => inr lo
  | S fuel' =>
      if Nat.eqb lo hi then inr lo
      else
        let mid := Nat.div (lo + hi) 2 in
        match elems !! mid with
        | None => inr lo
        | Some mid_key =>
            match cmp mid_key target with
            | Lt => seek_loop cmp elems target fuel' (S mid) hi
            | Gt => seek_loop cmp elems target fuel' lo mid
            | Eq => inl mid
            end
        end
  end.

(** Modelled from the spec: [SeekAtOrAfterValue] of a block decoder
    ([binary_plain_block.cc] and [bshuf_block.h] are not among the
    sources): a binary search for the first entry at or after [target];
    it returns the status, [*exact] and the new [cur_idx_]. *)
Definition block_SeekAtOrAfterValue {A : Type} (cmp : A -> A -> comparison)
    (elems : list A) (target : A) : Status.t * bool * nat :=
  match seek_loop cmp elems target (S (length elems)) 0 (length elems) with
  | inl mid => (Status.OK, true, mid)
  | inr lo =>
      if Nat.eqb lo (length elems) then (Status.NotFound, false, lo)
      else (Status.OK, false, lo)
  end.

End Cfile.

(* ===================================================================== *)
(** * kudu/cfile/binary_dict_block.cc : BinaryDictBlockBuilder *)
(* ===================================================================== *)

Module BinaryDictBuilder.
Import Cfile.

(** [data_builder_] is a [BShufBlockBuilder<UINT32>] holding codewords or
    a [BinaryPlainBlockBuilder] holding strings. *)
Inductive DataBuilder : Type :=
| BShufBuilder (codewords : list Z)
| PlainBuilder (strings : list Slice).

(** [dict_block_] is the file-level [BinaryPlainBlockBuilder], kept as
    the list of strings added to it; [dictionary_] maps a string to its
    codeword. *)
Record t : Type := mk {
  dict_block_ : list Slice;
  dictionary_ : gmap string Z;
  data_builder_ : DataBuilder;
  mode_ : Z;
  finished_ : bool;
  first_key_ : Slice;
  header_buffer_ : list Z
}.

Definition set_data_builder (b : t) (d : DataBuilder) : t :=
  mk (dict_block_ b) (dictionary_ b) d (mode_ b) (finished_ b) (first_key_ b)
     (header_buffer_ b).

Section Builder.
Context `{DictEncoding} `{BlockLimits}.

(** Modelled from the spec: [BinaryPlainBlockBuilder::Add]
    ([binary_plain_block.cc] is not among the sources): values are
    appended until the block reports full; the count appended is
    returned. *)
Fixpoint plain_Add (strings : list Slice) (vals : list Slice)
  : nat * list Slice :=
  match vals with
  | [] => (O, strings)
  | v :: rest =>
      if plain_full strings then (O, strings)
      else let '(n, strings') := plain_Add (strings ++ [v]) rest in
           (S n, strings')
  end.

(** Modelled from the spec: [BShufBlockBuilder<UINT32>::Add] with
    [count = 1] ([bshuf_block.h] is not among the sources). *)
Definition bshuf_Add1 (codewords : list Z) (codeword : Z) : nat * list Z :=
  if bshuf_full codewords then (O, codewords)
  else (1%nat, codewords ++ [codeword]).

Definition data_IsBlockFull (d : DataBuilder) : bool :=
  match d with
  | BShufBuilder cws => bshuf_full cws
  | PlainBuilder strs => plain_full strs
  end.

Definition data_Count (d : DataBuilder) : nat :=
  match d with
  | BShufBuilder cws => length cws
  | PlainBuilder strs => length strs
  end.

(** [data_builder_->Reset()]. *)
Definition data_Reset (d : DataBuilder) : DataBuilder :=
  match d with
  | BShufBuilder _ => BShufBuilder []
  | PlainBuilder _ => PlainBuilder []
  end.

(** [BinaryDictBlockBuilder::Reset]. *)
Definition Reset (b : t) : t :=
  if (mode_ b =? kCodeWordMode) && plain_full (dict_block_ b) then
    mk (dict_block_ b) (dictionary_ b) (PlainBuilder []) kPlainBinaryMode
       false (first_key_ b) (header_buffer_ b)
  else
    mk (dict_block_ b) (dictionary_ b) (data_Reset (data_builder_ b)) (mode_ b)
       false (first_key_ b) (header_buffer_ b).

(** The constructor: codeword mode, a bit-shuffle data builder, an empty
    dictionary, then [Reset()]. *)
Definition new : t :=
  Reset (mk [] ∅ (BShufBuilder []) kCodeWordMode false EmptyString []).

(** A finished block: the header slice and what the data builder
    hands over. *)
Record Block : Type := mkBlock {
  header : list Z;
  payload : DataBuilder
}.

(** [BinaryDictBlockBuilder::Finish]. *)
Definition Finish (b : t) : Block * t :=
  let header_buffer := EncodeFixed32 (mode_ b) in
  (mkBlock header_buffer (data_builder_ b),
   mk (dict_block_ b) (dictionary_ b) (data_builder_ b) (mode_ b) true
      (first_key_ b) header_buffer).

(** [BinaryDictBlockBuilder::IsBlockFull]. *)
Definition IsBlockFull (b : t) : bool :=
  if data_IsBlockFull (data_builder_ b) then true
  else if plain_full (dict_block_ b) && (mode_ b =? kCodeWordMode) then true
  else false.

(** [FindCopy] and [InsertOrDie] of [gutil/map-util.h]; [None] from
    [InsertOrDie] is the abort on a duplicate key. *)
Definition FindCopy (m : gmap string Z) (k : string) : option Z := m !! k.

Definition InsertOrDie (m : gmap string Z) (k : string) (v : Z)
  : option (gmap string Z) :=
  match m !! k with
  | Some _ => None
  | None => Some (<[k := v]> m)
  end.

(** [BinaryDictBlockBuilder::AddToDict]. [None] is an abort;
    [Some (None, _)] is the return of [false]; [Some (Some c, _)] is the
    return of [true] with [*codeword = c]. *)
Definition AddToDict (b : t) (val : Slice) : option (option Z * t) :=
  let '(n, dict_block) := plain_Add (dict_block_ b) [val] in
  if Nat.eqb n 0 then Some (None, b)
  else
    let codeword := wrap_uint32 (Z.of_nat (length dict_block) - 1) in
    match InsertOrDie (dictionary_ b) val codeword with
    | None => None
    | Some dictionary =>
        Some (Some codeword,
              mk dict_block dictionary (data_builder_ b) (mode_ b)
                 (finished_ b) (first_key_ b) (header_buffer_ b))
    end.

(** The loop of [AddCodeWords], started at index [i]: the result is the
    index at which the loop stops. [None] is an abort ([InsertOrDie]) or
    a codeword handed to a data builder that is not bit-shuffle. *)
Fixpoint AddCodeWords_loop (b : t) (src : list Slice) (i : nat)
  : option (nat * t) :=
  match src with
  | [] => Some (i, b)
  | current_item :: rest =>
      let append (b1 : t) (codeword : Z) : option (nat * t) :=
        match data_builder_ b1 with
        | BShufBuilder cws =>
            let '(n, cws') := bshuf_Add1 cws codeword in
            if Nat.eqb n 0 then Some (i, b1)
            else AddCodeWords_loop (set_data_builder b1 (BShufBuilder cws'))
                                   rest (S i)
        | PlainBuilder _ => None
        end in
      match FindCopy (dictionary_ b) current_item with
      | Some codeword => append b codeword
      | None =>
          match AddToDict b current_item with
          | None => None
          | Some (None, b1) => Some (i, b1)
          | Some (Some codeword, b1) => append b1 codeword
          end
      end
  end.

(** [BinaryDictBlockBuilder::AddCodeWords]. *)
Definition AddCodeWords (b : t) (vals : list Slice) : option (nat * t) :=
  let b0 :=
    match vals with
    | src :: _ =>
        if Nat.eqb (data_Count (data_builder_ b)) 0
        then mk (dict_block_ b) (dictionary_ b) (data_builder_ b) (mode_ b)
                (finished_ b) src (header_buffer_ b)
        else b
    | [] => b
    end in
  AddCodeWords_loop b0 vals 0.

(** [BinaryDictBlockBuilder::Add]. In plain mode the strings go to the
    data builder, which then has to be the plain one. *)
Definition Add (b : t) (vals : list Slice) : option (nat * t) :=
  if mode_ b =? kCodeWordMode then AddCodeWords b vals
  else
    match data_builder_ b with
    | PlainBuilder strs =>
        let '(n, strs') := plain_Add strs vals in
        Some (n, set_data_builder b (PlainBuilder strs'))
    | BShufBuilder _ => None
    end.

(** [BinaryDictBlockBuilder::Count]. *)
Definition Count (b : t) : nat := data_Count (data_builder_ b).

(** A caller's use of the builder: a sequence of [Add], [Finish] and
    [Reset] calls; [run] collects the finished blocks in order. *)
Inductive Call : Type :=
| CallAdd (vals : list Slice)
| CallFinish
| CallReset.

Definition call (b : t) (c : Call) : option (t * list Block) :=
  match c with
  | CallAdd vals =>
      match Add b vals with
      | Some (_, b') => Some (b', [])
      | None => None
      end
  | CallFinish => let '(blk, b') := Finish b in Some (b', [blk])
  | CallReset => Some (Reset b, [])
  end.

Fixpoint run (b : t) (calls : list Call) : option (t * list Block) :=
  match calls with
  | [] => Some (b, [])
  | c :: rest =>
      match call b c with
      | None => None
      | Some (b1, blocks1) =>
          match run b1 rest with
          | None => None
          | Some (b2, blocks2) => Some (b2, blocks1 ++ blocks2)
          end
      end
  end.

End Builder.

End BinaryDictBuilder.

(* ===================================================================== *)
(** * kudu/cfile/binary_dict_block.cc : BinaryDictBlockDecoder *)
(* ===================================================================== *)

Module BinaryDictDecoder.
Import Cfile.

(** Modelled from the spec: the state of a [BinaryPlainBlockDecoder] and
    of a [BShufBlockDecoder<UINT32>] ([binary_plain_block.h] and
    [bshuf_block.h] are not among the sources): the decoded entries and
    the current position. *)
Record PlainBlockDecoder : Type := mkPlain {
  plain_elems : list Slice;
  plain_cur_idx : Z
}.

Record BShufBlockDecoder : Type := mkBShuf {
  bshuf_elems : list Z;
  bshuf_cur_idx : Z
}.

Inductive DataDecoder : Type :=
| BShuf (d : BShufBlockDecoder)
| Plain (d : PlainBlockDecoder).

(** The header parsers of the two block decoders, which are not among
    the sources: from the bytes after the mode field to a status and the
    entries of the block. *)
Class SubDecoders : Type := {
  bshuf_ParseHeader : list Z -> Status.t * list Z;
  plain_ParseHeader : list Z -> Status.t * list Slice
}.

(** [data_decoder_->Count()]. *)
Definition data_Count (d : DataDecoder) : nat :=
  match d with
  | BShuf d => length (bshuf_elems d)
  | Plain d => length (plain_elems d)
  end.

(** Modelled from the spec: [SeekToPositionInBlock(pos)] of a block
    decoder: the current position becomes [pos]. *)
Definition data_SeekToPositionInBlock (d : DataDecoder) (pos : Z) : DataDecoder :=
  match d with
  | BShuf d => BShuf (mkBShuf (bshuf_elems d) pos)
  | Plain d => Plain (mkPlain (plain_elems d) pos)
  end.

Definition data_cur_idx (d : DataDecoder) : Z :=
  match d with
  | BShuf d => bshuf_cur_idx d
  | Plain d => plain_cur_idx d
  end.

(** [BinaryPlainBlockDecoder::SeekAtOrAfterValue] on a [Slice]. *)
Definition plain_SeekAtOrAfterValue (d : PlainBlockDecoder) (target : Slice)
  : Status.t * bool * PlainBlockDecoder :=
  let '(s, exact, idx) :=
    block_SeekAtOrAfterValue String.compare (plain_elems d) target in
  (s, exact, mkPlain (plain_elems d) (Z.of_nat idx)).

(** [BShufBlockDecoder<UINT32>::SeekAtOrAfterValue] on a codeword. *)
Definition bshuf_SeekAtOrAfterValue (d : BShufBlockDecoder) (target : Z)
  : Status.t * bool * BShufBlockDecoder :=
  let '(s, exact, idx) :=
    block_SeekAtOrAfterValue Z.compare (bshuf_elems d) target in
  (s, exact, mkBShuf (bshuf_elems d) (Z.of_nat idx)).

(** [data_] is the block; [dict_decoder_] is the decoder of the
    file-level dictionary block that the iterator owns; [data_decoder_]
    is null until [ParseHeader] has run. *)
Record t : Type := mk {
  data_ : list Z;
  parsed_ : bool;
  dict_decoder_ : PlainBlockDecoder;
  data_decoder_ : option DataDecoder;
  mode_ : Z
}.

(** The constructor; [mode_] is not initialised. *)
Definition new (block : list Z) (dict_decoder : PlainBlockDecoder)
    (uninitialised_mode : Z) : t :=
  mk block false dict_decoder None uninitialised_mode.

Section Decoder.
Context `{DictEncoding} `{SubDecoders}.

(** Modelled from the spec: [tight_enum_test_cast<DictEncodingMode>] of
    [gutil/casts.h] (not among the sources): an [int] within the limits
    of the enum is cast, any other value is refused. *)
Definition tight_enum_test_cast (e_val : Z) : option Z :=
  if (DictEncodingMode_min <=? e_val) && (e_val <=? DictEncodingMode_max)
  then Some e_val else None.

(** [data_decoder_->ParseHeader()] on a decoder just made for
    [sub_block]. *)
Definition data_ParseHeader (codeword_mode : bool) (sub_block : list Z)
  : Status.t * DataDecoder :=
  if codeword_mode then
    let '(s, elems) := bshuf_ParseHeader sub_block in (s, BShuf (mkBShuf elems 0))
  else
    let '(s, elems) := plain_ParseHeader sub_block in (s, Plain (mkPlain elems 0)).

(** [BinaryDictBlockDecoder::ParseHeader]. *)
Definition ParseHeader (d : t) : Status.t * t :=
  if Nat.ltb (length (data_ d)) kMinHeaderSize then (Status.Corruption, d)
  else
    match tight_enum_test_cast (wrap_int32 (DecodeFixed32 (data_ d))) with
    | None => (Status.Corruption, d)
    | Some mode =>
        let sub_block := drop 4 (data_ d) in
        let parse (codeword_mode : bool) : Status.t * t :=
          let '(s, dd) := data_ParseHeader codeword_mode sub_block in
          if negb (Status.ok s)
          then (s, mk (data_ d) (parsed_ d) (dict_decoder_ d) (Some dd) mode)
          else (Status.OK, mk (data_ d) true (dict_decoder_ d) (Some dd) mode) in
        if mode =? kCodeWordMode then parse true
        else if negb (mode =? kPlainBinaryMode)
             then (Status.Corruption,
                   mk (data_ d) (parsed_ d) (dict_decoder_ d) (data_decoder_ d) mode)
             else parse false
    end.

(** [BinaryDictBlockDecoder::SeekToPositionInBlock]. *)
Definition SeekToPositionInBlock (d : t) (pos : Z) : option t :=
  match data_decoder_ d with
  | None => None
  | Some dd =>
      Some (mk (data_ d) (parsed_ d) (dict_decoder_ d)
               (Some (data_SeekToPositionInBlock dd pos)) (mode_ d))
  end.

(** [BinaryDictBlockDecoder::SeekAtOrAfterValue]: the status, [*exact]
    and the decoder afterwards; [None] when [data_decoder_] is null or is
    handed a value of the wrong type. [Count() - 1] is computed on
    [size_t] and passed as a [uint]. *)
Definition SeekAtOrAfterValue (d : t) (value : Slice)
  : option (Status.t * bool * t) :=
  match data_decoder_ d with
  | None => None
  | Some dd =>
      if mode_ d =? kCodeWordMode then
        let '(s, exact, dict') := plain_SeekAtOrAfterValue (dict_decoder_ d) value in
        if negb (Status.ok s) then
          let pos := wrap_uint32 ((Z.of_nat (data_Count dd) - 1) mod 2 ^ 64) in
          Some (s, exact,
                mk (data_ d) (parsed_ d) dict'
                   (Some (data_SeekToPositionInBlock dd pos)) (mode_ d))
        else
          let index := plain_cur_idx dict' in
          match dd with
          | BShuf bd =>
              let '(s', _, bd') := bshuf_SeekAtOrAfterValue bd (wrap_uint32 index) in
              Some (s', exact,
                    mk (data_ d) (parsed_ d) dict' (Some (BShuf bd')) (mode_ d))
          | Plain _ => None
          end
      else
        match dd with
        | Plain pd =>
            let '(s, exact, pd') := plain_SeekAtOrAfterValue pd value in
            Some (s, exact,
                  mk (data_ d) (parsed_ d) (dict_decoder_ d) (Some (Plain pd'))
                     (mode_ d))
        | BShuf _ => None
        end
  end.

End Decoder.

End BinaryDictDecoder.

(* ===================================================================== *)
(** * kudu/consensus/consensus_peers.cc : Peer *)
(* ===================================================================== *)

Module ConsensusPeers.

(** The status that the peer reports to the queue. *)
Inductive PeerStatus : Type :=
| PS_OK
| REMOTE_ERROR
| RPC_LAYER_ERROR
| TABLET_FAILED
| TABLET_NOT_FOUND
| CANNOT_PREPARE.

(** The error codes of [TabletServerErrorPB] that the peer tells apart. *)
Inductive TabletServerError : Type :=
| WRONG_SERVER_UUID
| TS_TABLET_FAILED
| TS_TABLET_NOT_FOUND
| ALREADY_INPROGRESS
| THROTTLED
| UNKNOWN_ERROR.

(** The functors that the peer submits to [raft_pool_token_]. *)
Inductive Task : Type :=
| TaskSendNextRequest (even_if_queue_empty : bool)
| TaskDoProcessResponse.

(** What a method does to its collaborators (thread pool, proxy, queue,
    heartbeat timer, log), in program order. *)
Inductive Effect : Type :=
| Submit (task : Task)
| UpdateAsync
| StartTabletCopyAsync
| StartElectionAsync
| UpdatePeerStatus (ps : PeerStatus)
| TrackPeer
| UntrackPeer
| HeartbeatStart
| HeartbeatSnooze
| HeartbeatStop
| LogWarning.

(** The members of [Peer] that the methods read or write. [proxy_] tells
    whether the proxy exists; [heartbeater_] is [None] while the pointer
    is null and otherwise tells whether the timer runs; of [request_]
    only the fields inspected by [SendNextRequest] are kept. *)
Record Peer : Type := mkPeer {
  failed_attempts_ : Z;
  request_pending_ : bool;
  closed_ : bool;
  has_sent_first_request_ : bool;
  proxy_ : bool;
  heartbeater_ : option bool;
  request_ops_size : nat;
  request_committed_index : option Z;
  request_ids_set : bool
}.

Definition set_request_pending (p : Peer) (v : bool) : Peer :=
  mkPeer (failed_attempts_ p) v (closed_ p) (has_sent_first_request_ p)
         (proxy_ p) (heartbeater_ p) (request_ops_size p)
         (request_committed_index p) (request_ids_set p).

Definition set_failed_attempts (p : Peer) (v : Z) : Peer :=
  mkPeer v (request_pending_ p) (closed_ p) (has_sent_first_request_ p)
         (proxy_ p) (heartbeater_ p) (request_ops_size p)
         (request_committed_index p) (request_ids_set p).

Definition set_closed (p : Peer) (v : bool) : Peer :=
  mkPeer (failed_attempts_ p) (request_pending_ p) v
         (has_sent_first_request_ p) (proxy_ p) (heartbeater_ p)
         (request_ops_size p) (request_committed_index p) (request_ids_set p).

Definition set_proxy (p : Peer) (v : bool) : Peer :=
  mkPeer (failed_attempts_ p) (request_pending_ p) (closed_ p)
         (has_sent_first_request_ p) v (heartbeater_ p)
         (request_ops_size p) (request_committed_index p) (request_ids_set p).

Definition set_heartbeater (p : Peer) (v : option bool) : Peer :=
  mkPeer (failed_attempts_ p) (request_pending_ p) (closed_ p)
         (has_sent_first_request_ p) (proxy_ p) v
         (request_ops_size p) (request_committed_index p) (request_ids_set p).

Definition set_request (p : Peer) (ops : nat) (ci : option Z) : Peer :=
  mkPeer (failed_attempts_ p) (request_pending_ p) (closed_ p)
         (has_sent_first_request_ p) (proxy_ p) (heartbeater_ p)
         ops ci (request_ids_set p).

Definition set_first_request_sent (p : Peer) : Peer :=
  mkPeer (failed_attempts_ p) (request_pending_ p) (closed_ p)
         true (proxy_ p) (heartbeater_ p)
         (request_ops_size p) (request_committed_index p) true.

(** What the collaborators answer during one [SendNextRequest]: the
    status of [RequestForPeer] with the ops and committed index it
    leaves in [request_] and its [needs_tablet_copy]; whether [NewProxy]
    succeeds; the flag [--enable_tablet_copy]; and the status of
    [GetTabletCopyRequestForPeer]. *)
Record SendEnv : Type := mkSendEnv {
  request_for_peer_ok : bool;
  filled_ops_size : nat;
  filled_committed_index : option Z;
  needs_tablet_copy : bool;
  new_proxy_ok : bool;
  FLAGS_enable_tablet_copy : bool;
  tablet_copy_request_ok : bool
}.

(** What [controller_] and [response_] hold when the callback of
    [UpdateAsync] runs. *)
Record UpdateResponse : Type := mkUpdateResponse {
  controller_ok : bool;
  controller_is_remote_error : bool;
  status_cannot_prepare : bool;
  response_error : option TabletServerError
}.

(** What [controller_] and [tc_response_] hold when the callback of
    [StartTabletCopyAsync] runs. *)
Record TabletCopyResponse : Type := mkTabletCopyResponse {
  tc_controller_ok : bool;
  tc_error : option TabletServerError
}.

Definition kNumRetriesBetweenLoggingFailedRequest : Z := 5.

Section Peer.

(** [kMinimumOpIdIndex] of [opid_util.h], which is not among the
    sources. *)
Variable kMinimumOpIdIndex : Z.

(** [Peer::CreateProxyIfNeeded]. *)
Definition CreateProxyIfNeeded (p : Peer) (new_proxy_ok : bool) : bool * Peer :=
  if negb (proxy_ p) then
    if negb new_proxy_ok then (false, p) else (true, set_proxy p true)
  else (true, p).

(** The constructor. *)
Definition Peer_new (new_proxy_ok : bool) : Peer :=
  snd (CreateProxyIfNeeded
         (mkPeer 0 false false false false None O None false) new_proxy_ok).

(** [Peer::Init]. *)
Definition Init (p : Peer) : Peer * list Effect :=
  (set_heartbeater p (Some true), [TrackPeer; HeartbeatStart]).

(** [Peer::SignalRequest]; [submit] is the status of
    [raft_pool_token_->Submit]. *)
Definition SignalRequest (p : Peer) (even_if_queue_empty : bool)
    (submit : Status.t) : Status.t * Peer * list Effect :=
  if closed_ p then (Status.IllegalState, p, [])
  else if request_pending_ p then (Status.OK, p, [])
  else (submit, p,
        if Status.ok submit then [Submit (TaskSendNextRequest even_if_queue_empty)]
        else []).

(** [Peer::PrepareTabletCopyRequest]. *)
Definition PrepareTabletCopyRequest (p : Peer) (env : SendEnv) : bool * Peer :=
  if negb (FLAGS_enable_tablet_copy env)
  then (false, set_failed_attempts p (failed_attempts_ p + 1))
  else (tablet_copy_request_ok env, p).

Definition committed_index_or_min (p : Peer) : Z :=
  match request_committed_index p with
  | Some c => c
  | None => kMinimumOpIdIndex
  end.

(** [Peer::SendNextRequest]. *)
Definition SendNextRequest (p : Peer) (even_if_queue_empty : bool)
    (env : SendEnv) : Peer * list Effect :=
  if closed_ p then (p, [])
  else if request_pending_ p then (p, [])
  else
    let even_if_queue_empty :=
      if negb (has_sent_first_request_ p) then true else even_if_queue_empty in
    if (0 <? failed_attempts_ p) && negb even_if_queue_empty then (p, [])
    else
      let commit_index_before := committed_index_or_min p in
      let p1 := set_request p (filled_ops_size env) (filled_committed_index env) in
      let commit_index_after := committed_index_or_min p1 in
      if negb (request_for_peer_ok env) then (p1, [])
      else
        let '(have_proxy, p2) := CreateProxyIfNeeded p1 (new_proxy_ok env) in
        if negb have_proxy then (p2, [])
        else if needs_tablet_copy env then
          let '(prepared, p3) := PrepareTabletCopyRequest p2 env in
          if prepared
          then (set_request_pending p3 true, [StartTabletCopyAsync])
          else (p3, [LogWarning])
        else
          let req_has_ops :=
            Nat.ltb 0 (request_ops_size p2)
            || (commit_index_before <? commit_index_after) in
          if negb req_has_ops && negb even_if_queue_empty then (p2, [])
          else
            let snooze := if req_has_ops then [HeartbeatSnooze] else [] in
            let p3 := if negb (has_sent_first_request_ p2)
                      then set_first_request_sent p2 else p2 in
            (set_request_pending p3 true, snooze ++ [UpdateAsync]).

(** [Peer::StartElection]. *)
Definition StartElection (p : Peer) (new_proxy_ok : bool) : Peer * list Effect :=
  let '(have_proxy, p1) := CreateProxyIfNeeded p new_proxy_ok in
  if negb have_proxy then (p1, []) else (p1, [StartElectionAsync]).

(** [Peer::ProcessResponseErrorUnlocked]. *)
Definition ProcessResponseErrorUnlocked (p : Peer) : Peer * list Effect :=
  let p1 := set_failed_attempts p (failed_attempts_ p + 1) in
  let log :=
    if Z.rem (failed_attempts_ p1) kNumRetriesBetweenLoggingFailedRequest =? 1
    then [LogWarning] else [] in
  (set_request_pending p1 false, log).

(** [Peer::ProcessResponse]; [None] is the abort of
    [CHECK(request_pending_)]; [submit_ok] tells whether the pool takes
    the [DoProcessResponse] task. *)
Definition ProcessResponse (p : Peer) (resp : UpdateResponse)
    (submit_ok : bool) : option (Peer * list Effect) :=
  if closed_ p then Some (p, [])
  else if negb (request_pending_ p) then None
  else if negb (controller_ok resp) then
    let ps := if controller_is_remote_error resp
              then REMOTE_ERROR else RPC_LAYER_ERROR in
    let '(p1, log) := ProcessResponseErrorUnlocked p in
    Some (p1, UpdatePeerStatus ps :: log)
  else if status_cannot_prepare resp then
    let '(p1, log) := ProcessResponseErrorUnlocked p in
    Some (p1, UpdatePeerStatus CANNOT_PREPARE :: log)
  else
    match response_error resp with
    | Some code =>
        let ps :=
          match code with
          | WRONG_SERVER_UUID | TS_TABLET_FAILED => TABLET_FAILED
          | TS_TABLET_NOT_FOUND => TABLET_NOT_FOUND
          | _ => REMOTE_ERROR
          end in
        let '(p1, log) := ProcessResponseErrorUnlocked p in
        Some (p1, UpdatePeerStatus ps :: log)
    | None =>
        if submit_ok then Some (p, [Submit TaskDoProcessResponse])
        else Some (set_request_pending p false, [LogWarning])
    end.

(** [Peer::DoProcessResponse]; [send_more_immediately] is the answer of
    [ResponseFromPeer]. *)
Definition DoProcessResponse (p : Peer) (send_more_immediately : bool)
    (env : SendEnv) : option (Peer * list Effect) :=
  if negb (request_pending_ p) then None
  else
    let p1 := set_request_pending (set_failed_attempts p 0) false in
    if send_more_immediately then Some (SendNextRequest p1 true env)
    else Some (p1, []).

(** [Peer::ProcessTabletCopyResponse]. *)
Definition ProcessTabletCopyResponse (p : Peer) (resp : TabletCopyResponse)
  : option (Peer * list Effect) :=
  if closed_ p then Some (p, [])
  else if negb (request_pending_ p) then None
  else
    let p1 := set_request_pending p false in
    let has_error := match tc_error resp with Some _ => true | None => false end in
    let already_in_progress :=
      match tc_error resp with Some ALREADY_INPROGRESS => true | _ => false end in
    let throttled :=
      match tc_error resp with Some THROTTLED => true | _ => false end in
    let success :=
      tc_controller_ok resp && (negb has_error || already_in_progress) in
    if success then Some (p1, [UpdatePeerStatus PS_OK])
    else if negb has_error || negb throttled then Some (p1, [LogWarning])
    else Some (p1, []).

(** [Peer::Close]. *)
Definition Close (p : Peer) : Peer * list Effect :=
  if closed_ p then (p, [])
  else (set_closed p true, [UntrackPeer]).

(** [Peer::~Peer]. *)
Definition Peer_destroy (p : Peer) : Peer * list Effect :=
  let '(p1, eff) := Close p in
  match heartbeater_ p1 with
  | Some _ => (set_heartbeater p1 (Some false), eff ++ [HeartbeatStop])
  | None => (p1, eff)
  end.

(** [Peer::NewRemotePeer]: the constructor, then [Init]. *)
Definition NewRemotePeer (new_proxy_ok : bool) : Peer * list Effect :=
  Init (Peer_new new_proxy_ok).

(** ** The peer with its thread pool and its proxy

    Each method runs to completion as one step: the parts of the
    methods that write [closed_] and [request_pending_] are serialised
    by [peer_lock_], and an RPC is issued only after the flag has been
    set under that lock. [SignalRequest] reads the two flags without
    the lock and [SendNextRequest] issues its RPC after it has
    unlocked; the steps of other threads that can fall in between are
    the subject of [ConsensusPeersInterleaved], where every event of
    this system is a run of such smaller steps.

    [pool] holds the tasks submitted and not yet run; [outstanding]
    holds the request RPCs ([UpdateAsync], [StartTabletCopyAsync])
    issued by [SendNextRequest] whose callback has not run yet;
    [elections] counts the [StartElectionAsync] RPCs issued, which are
    outside the request pipeline. *)
Inductive Rpc : Type := RpcUpdate | RpcTabletCopy.

Record System : Type := mkSystem {
  peer : Peer;
  pool : list Task;
  outstanding : list Rpc;
  elections : nat
}.

Definition apply_effect (s : System) (e : Effect) : System :=
  match e with
  | Submit task => mkSystem (peer s) (pool s ++ [task]) (outstanding s) (elections s)
  | UpdateAsync =>
      mkSystem (peer s) (pool s) (outstanding s ++ [RpcUpdate]) (elections s)
  | StartTabletCopyAsync =>
      mkSystem (peer s) (pool s) (outstanding s ++ [RpcTabletCopy]) (elections s)
  | StartElectionAsync =>
      mkSystem (peer s) (pool s) (outstanding s) (S (elections s))
  | _ => s
  end.

Definition apply_effects (s : System) (effs : list Effect) : System :=
  fold_left apply_effect effs s.

Definition with_peer (s : System) (r : Peer * list Effect) : System :=
  apply_effects (mkSystem (fst r) (pool s) (outstanding s) (elections s)) (snd r).

(** What can happen next: a caller (or the heartbeat timer) signals a
    request; the pool runs one of its tasks; the callback of an
    outstanding RPC runs; the peer is closed; an election is started. *)
Inductive Event : Type :=
| EvSignalRequest (even_if_queue_empty : bool) (submit : Status.t)
| EvRunTask (n : nat) (send_more_immediately : bool) (env : SendEnv)
| EvRpcDone (n : nat) (resp : UpdateResponse) (tc_resp : TabletCopyResponse)
            (submit_ok : bool)
| EvClose
| EvStartElection (new_proxy_ok : bool).

Inductive Outcome : Type :=
| NotEnabled
| Aborted
| Next (s : System).

Definition outcome_of (s : System) (r : option (Peer * list Effect)) : Outcome :=
  match r with
  | Some r => Next (with_peer s r)
  | None => Aborted
  end.

Definition fire (s : System) (ev : Event) : Outcome :=
  match ev with
  | EvSignalRequest even submit =>
      let '(_, p, effs) := SignalRequest (peer s) even submit in
      Next (with_peer s (p, effs))
  | EvRunTask n send_more env =>
      match pool s !! n with
      | None => NotEnabled
      | Some task =>
          let s1 := mkSystem (peer s) (delete n (pool s)) (outstanding s)
                             (elections s) in
          match task with
          | TaskSendNextRequest even =>
              Next (with_peer s1 (SendNextRequest (peer s) even env))
          | TaskDoProcessResponse =>
              outcome_of s1 (DoProcessResponse (peer s) send_more env)
          end
      end
  | EvRpcDone n resp tc_resp submit_ok =>
      match outstanding s !! n with
      | None => NotEnabled
      | Some rpc =>
          let s1 := mkSystem (peer s) (pool s) (delete n (outstanding s))
                             (elections s) in
          match rpc with
          | RpcUpdate => outcome_of s1 (ProcessResponse (peer s) resp submit_ok)
          | RpcTabletCopy =>
              outcome_of s1 (ProcessTabletCopyResponse (peer s) tc_resp)
          end
      end
  | EvClose => Next (with_peer s (Close (peer s)))
  | EvStartElection ok => Next (with_peer s (StartElection (peer s) ok))
  end.

(** The systems that a new remote peer can reach. *)
Inductive reachable : System -> Prop :=
| reachable_new (new_proxy_ok : bool) :
    reachable (mkSystem (fst (NewRemotePeer new_proxy_ok)) [] [] O)
| reachable_fire s ev s' :
    reachable s -> fire s ev = Next s' -> reachable s'.

(** [reaches s s']: some sequence of events leads from [s] to [s']. *)
Inductive reaches (s : System) : System -> Prop :=
| reaches_here : reaches s s
| reaches_fire s1 ev s2 :
    reaches s s1 -> fire s1 ev = Next s2 -> reaches s s2.

(** The events that process the response of a request RPC: the callback
    of the RPC and the [DoProcessResponse] task. *)
Definition processes_response (s : System) (ev : Event) : Prop :=
  match ev with
  | EvRpcDone n _ _ _ => is_Some (outstanding s !! n)
  | EvRunTask n _ _ => pool s !! n = Some TaskDoProcessResponse
  | _ => False
  end.

End Peer.

End ConsensusPeers.

(* ===================================================================== *)
(** * Part II. Properties *)
(* ===================================================================== *)

Module RowBlockFacts.
Import RowBlock.
Local Open Scope nat_scope.
Local Arguments Nat.div : simpl never.
Local Arguments Nat.modulo : simpl never.

Ltac divmod_lia := zify; Z.div_mod_to_equations; lia.

Lemma testbit_single (k j : nat) :
  Z.testbit (Z.shiftl 1 (Z.of_nat k)) (Z.of_nat j) = bool_decide (k = j).
Proof.
  rewrite Z.shiftl_1_l, Z.pow2_bits_eqb by lia.
  case_bool_decide; [apply Z.eqb_eq | apply Z.eqb_neq]; lia.
Qed.

Lemma BitmapTest_BitmapClear bitmap i j :
  BitmapTest (BitmapClear bitmap i) j =
  if bool_decide (i = j) then false else BitmapTest bitmap j.
Proof.
  unfold BitmapTest, BitmapClear.
  destruct (decide (i / 8 = j / 8)) as [E|E].
  - rewrite E, list_lookup_alter_eq.
    destruct (bitmap !! (j / 8)) as [b|]; simpl.
    + rewrite Z.land_spec, Z.lnot_spec, testbit_single by lia.
      case_bool_decide as Hm; case_bool_decide as Hij; simpl.
      * apply andb_false_r.
      * exfalso. apply Hij.
        pose proof (Nat.div_mod_eq i 8) as Hi.
        pose proof (Nat.div_mod_eq j 8) as Hj. lia.
      * subst. congruence.
      * apply andb_true_r.
    + by case_bool_decide.
  - rewrite list_lookup_alter_ne by done.
    case_bool_decide; [subst; congruence | done].
Qed.

Lemma BitmapTest_BitmapClearBits num : forall bitmap offset j,
  BitmapTest (BitmapClearBits bitmap offset num) j =
  if bool_decide (offset <= j < offset + num) then false
  else BitmapTest bitmap j.
Proof.
  induction num as [|num IH]; intros bitmap offset j; simpl.
  - case_bool_decide; [lia | done].
  - rewrite IH, BitmapTest_BitmapClear.
    repeat case_bool_decide; try done; lia.
Qed.

Lemma BitmapClear_length bitmap i :
  length (BitmapClear bitmap i) = length bitmap.
Proof. unfold BitmapClear. apply length_alter. Qed.

Lemma BitmapClearBits_length num : forall bitmap offset,
  length (BitmapClearBits bitmap offset num) = length bitmap.
Proof.
  induction num as [|num IH]; intros; simpl; [done|].
  by rewrite IH, BitmapClear_length.
Qed.

Lemma land_byte (b m : Z) : (0 <= b < 256 -> 0 <= Z.land b m < 256)%Z.
Proof.
  intros Hb.
  assert (Hid : Z.land b m = (Z.land b m mod 2 ^ 8)%Z).
  { rewrite <- Z.land_ones by lia.
    rewrite <- (Z.mod_small b (2 ^ 8)) at 1 by (change (2 ^ 8)%Z with 256%Z; lia).
    rewrite <- Z.land_ones by lia.
    rewrite <- !Z.land_assoc. f_equal. apply Z.land_comm. }
  rewrite Hid. change (2 ^ 8)%Z with 256%Z. apply Z.mod_pos_bound. lia.
Qed.

Lemma BitmapClear_bytes_ok bitmap i :
  bytes_ok bitmap -> bytes_ok (BitmapClear bitmap i).
Proof.
  unfold bytes_ok, BitmapClear. intros H.
  apply Forall_alter; [done|]. intros b _ Hb. by apply land_byte.
Qed.

Lemma BitmapClearBits_bytes_ok num : forall bitmap offset,
  bytes_ok bitmap -> bytes_ok (BitmapClearBits bitmap offset num).
Proof.
  induction num as [|num IH]; intros; simpl; [done|].
  by apply IH, BitmapClear_bytes_ok.
Qed.

Lemma PadExtraBitsWithZeroes_padded sv :
  n_bytes_ sv = BitmapSize (n_rows_ sv) ->
  padded (PadExtraBitsWithZeroes sv).
Proof.
  unfold padded, PadExtraBitsWithZeroes, BitmapSize. intros Hn.
  destruct (0 <? n_rows_ sv mod 8) eqn:Hb; simpl; intros i Hlo Hhi.
  - apply Nat.ltb_lt in Hb.
    rewrite BitmapTest_BitmapClearBits.
    case_bool_decide as Hr; [done|]. exfalso. apply Hr.
    rewrite Hn in Hhi. divmod_lia.
  - apply Nat.ltb_ge in Hb. rewrite Hn in Hhi. exfalso. divmod_lia.
Qed.

Lemma PadExtraBitsWithZeroes_shape sv :
  shape_ok sv -> shape_ok (PadExtraBitsWithZeroes sv).
Proof.
  unfold shape_ok, PadExtraBitsWithZeroes.
  intros (Hl & Hb & Hc & Hok).
  destruct (0 <? n_rows_ sv mod 8); simpl; [|done].
  rewrite BitmapClearBits_length.
  repeat split; try done. by apply BitmapClearBits_bytes_ok.
Qed.

Lemma PadExtraBitsWithZeroes_nrows sv :
  n_rows_ (PadExtraBitsWithZeroes sv) = n_rows_ sv.
Proof. unfold PadExtraBitsWithZeroes. by destruct (0 <? _). Qed.

Lemma filter_none {A} (P : A -> Prop) `{forall x, Decision (P x)} (l : list A) :
  Forall (fun x => ~ P x) l -> filter P l = [].
Proof.
  induction 1 as [|x l Hx _ IH]; [done|].
  by rewrite filter_cons_False.
Qed.

(** Counting: a filter over an initial segment of the naturals whose
    predicate fails from [n] on keeps at most [n] elements. *)
Lemma filter_seq_bound (P : nat -> Prop) `{forall k, Decision (P k)} n m :
  (forall k, n <= k -> k < m -> ~ P k) ->
  length (filter P (seq 0 m)) <= n.
Proof.
  intros HP. destruct (decide (m <= n)) as [Hmn|Hmn].
  - etrans; [apply length_filter|]. by rewrite length_seq.
  - replace m with (n + (m - n)) by lia.
    rewrite seq_app, filter_app, length_app. simpl.
    assert (Hnil : filter P (seq n (m - n)) = []).
    { apply filter_none, Forall_forall. intros k Hk.
      apply list_elem_of_In, in_seq in Hk. apply HP; lia. }
    rewrite Hnil. simpl.
    pose proof (length_filter P (seq 0 n)) as Hle.
    rewrite length_seq in Hle. lia.
Qed.

Lemma BitmapTest_cons_low b bitmap k :
  k < 8 -> BitmapTest (b :: bitmap) k = Z.testbit b (Z.of_nat k).
Proof.
  intros Hk. unfold BitmapTest.
  replace (k / 8) with 0 by divmod_lia.
  replace (k mod 8) with k by divmod_lia. done.
Qed.

Lemma BitmapTest_cons_high b bitmap i :
  BitmapTest (b :: bitmap) (i + 8) = BitmapTest bitmap i.
Proof.
  unfold BitmapTest.
  replace ((i + 8) / 8) with (S (i / 8)) by divmod_lia.
  replace ((i + 8) mod 8) with (i mod 8) by divmod_lia. done.
Qed.

Lemma popcount8_le b : popcount8 b <= 8.
Proof.
  unfold popcount8. etrans; [apply length_filter|]. by rewrite length_seq.
Qed.

(** [Bits::Count] is bounded by any [n] from which on no bit is set. *)
Lemma Bits_Count_bound : forall bitmap n_bytes n,
  (forall i, n <= i -> i < 8 * n_bytes -> BitmapTest bitmap i = false) ->
  n_bytes <= length bitmap ->
  Bits_Count bitmap n_bytes <= n.
Proof.
  unfold Bits_Count.
  induction bitmap as [|b bitmap IH]; intros n_bytes n Hz Hlen.
  - rewrite take_nil. simpl. lia.
  - destruct n_bytes as [|n_bytes]; simpl in *; [lia|].
    destruct (decide (8 <= n)) as [Hn|Hn].
    + pose proof (popcount8_le b).
      assert (foldr (fun b acc => popcount8 b + acc) 0 (take n_bytes bitmap)
              <= n - 8); [|lia].
      apply IH; [|lia]. intros i Hlo Hhi.
      rewrite <- (BitmapTest_cons_high b). apply Hz; lia.
    + assert (popcount8 b <= n).
      { unfold popcount8. apply filter_seq_bound. intros k Hlo Hhi.
        rewrite <- (BitmapTest_cons_low b bitmap) by done.
        rewrite Hz; [done | lia | lia]. }
      assert (foldr (fun b acc => popcount8 b + acc) 0 (take n_bytes bitmap)
              <= 0); [|lia].
      apply IH; [|lia]. intros i Hlo Hhi.
      rewrite <- (BitmapTest_cons_high b). apply Hz; lia.
Qed.

Lemma CountSelected_le_nrows sv :
  shape_ok sv -> padded sv -> CountSelected sv <= nrows sv.
Proof.
  intros (Hl & Hb & Hc & Hok) Hp. unfold CountSelected, nrows.
  apply Bits_Count_bound; [exact Hp | lia].
Qed.

Lemma byte_nonzero_bit (b : Z) :
  (0 <= b < 256)%Z -> b <> 0%Z ->
  exists j, j < 8 /\ Z.testbit b (Z.of_nat j) = true.
Proof.
  intros Hb Hnz.
  destruct (existsb (fun j => Z.testbit b (Z.of_nat j)) (seq 0 8)) eqn:He.
  - apply existsb_exists in He as (j & Hj & Ht).
    apply in_seq in Hj. exists j. split; [lia | done].
  - exfalso. apply Hnz. apply Z.bits_inj_0. intros n.
    destruct (Z_lt_dec n 0) as [Hneg|Hpos]; [by apply Z.testbit_neg_r|].
    destruct (Z_lt_dec n 8) as [Hlt|Hge].
    + destruct (existsb_nth _ (seq 0 8) 0 (n := Z.to_nat n)
                  ltac:(rewrite length_seq; lia) He).
      rewrite seq_nth by lia. simpl. by rewrite Z2Nat.id by lia.
    + apply Z.bits_above_log2; [lia|].
      apply Z.log2_lt_pow2; [lia|]. change (2 ^ 8)%Z with 256%Z in *.
      assert (2 ^ 8 <= 2 ^ n)%Z by (apply Z.pow_le_mono_r; lia).
      change (2 ^ 8)%Z with 256%Z in *. lia.
Qed.

Lemma any_bytes_true : forall p8 rem,
  any_bytes p8 rem = true ->
  exists k b, k < rem /\ p8 !! k = Some b /\ b <> 0%Z.
Proof.
  induction p8 as [|b p8 IH]; intros [|rem] H; simpl in H; try done.
  destruct (b =? 0)%Z eqn:Hb; simpl in H.
  - destruct (IH _ H) as (k & b' & Hk & Hl & Hnz).
    exists (S k), b'. split_and!; [lia | done | done].
  - exists 0, b. apply Z.eqb_neq in Hb. split_and!; [lia | done | done].
Qed.

Lemma load32_nonzero b0 b1 b2 b3 :
  load32 b0 b1 b2 b3 <> 0%Z ->
  b0 <> 0%Z \/ b1 <> 0%Z \/ b2 <> 0%Z \/ b3 <> 0%Z.
Proof.
  intros H.
  destruct (decide (b0 = 0%Z)) as [->|]; [|by left].
  destruct (decide (b1 = 0%Z)) as [->|]; [|by right; left].
  destruct (decide (b2 = 0%Z)) as [->|]; [|by right; right; left].
  destruct (decide (b3 = 0%Z)) as [->|]; [|by right; right; right].
  by exfalso.
Qed.

Lemma any_words_true : forall fuel p rem,
  any_words fuel p rem = true ->
  exists k b, k < rem /\ p !! k = Some b /\ b <> 0%Z.
Proof.
  induction fuel as [|fuel IH]; intros p rem H; cbn [any_words] in H.
  - by apply any_bytes_true.
  - destruct (4 <=? rem) eqn:Hrem; [|by apply any_bytes_true].
    apply Nat.leb_le in Hrem.
    destruct p as [|b0 [|b1 [|b2 [|b3 p']]]];
      try (by apply any_bytes_true).
    destruct (load32 b0 b1 b2 b3 =? 0)%Z eqn:Hw; simpl in H.
    + destruct (IH _ _ H) as (k & b & Hk & Hl & Hnz).
      exists (4 + k), b. split_and!; [lia | done | done].
    + apply Z.eqb_neq, load32_nonzero in Hw.
      destruct Hw as [Hw|[Hw|[Hw|Hw]]].
      * exists 0, b0. split_and!; [lia | done | done].
      * exists 1, b1. split_and!; [lia | done | done].
      * exists 2, b2. split_and!; [lia | done | done].
      * exists 3, b3. split_and!; [lia | done | done].
Qed.

Lemma AnySelected_row sv :
  shape_ok sv -> padded sv -> AnySelected sv = true ->
  exists i, i < nrows sv /\ BitmapTest (bitmap_ sv) i = true.
Proof.
  intros (Hl & Hb & Hc & Hok) Hp Hany. unfold AnySelected in Hany.
  apply any_words_true in Hany as (k & b & Hk & Hlk & Hnz).
  assert (Hrange : (0 <= b < 256)%Z).
  { eapply (Forall_lookup_1 _ _ _ _ Hok Hlk). }
  destruct (byte_nonzero_bit b Hrange Hnz) as (j & Hj & Hbit).
  assert (Htest : BitmapTest (bitmap_ sv) (8 * k + j) = true).
  { unfold BitmapTest.
    replace ((8 * k + j) / 8) with k by divmod_lia.
    replace ((8 * k + j) mod 8) with j by divmod_lia.
    by rewrite Hlk. }
  exists (8 * k + j). split; [|done]. unfold nrows.
  destruct (decide (8 * k + j < n_rows_ sv)) as [|Hge]; [done|].
  rewrite Hp in Htest; [done | lia | lia].
Qed.

(** The properties that the claim states of a selection vector of [n]
    rows: rows, padding, and the two byte-wise scans. *)
Definition well_padded (n : nat) (sv : SelectionVector) : Prop :=
  nrows sv = n /\ shape_ok sv /\ padded sv /\
  CountSelected sv <= nrows sv /\
  (AnySelected sv = true ->
   exists i, i < nrows sv /\ BitmapTest (bitmap_ sv) i = true).

Lemma well_padded_intro n sv :
  nrows sv = n -> shape_ok sv -> padded sv -> well_padded n sv.
Proof.
  intros Hn Hs Hp. repeat split; try done; try apply Hs.
  - by apply CountSelected_le_nrows.
  - by apply AnySelected_row.
Qed.

(** C10. After construction with capacity [n] (on whatever memory the
    allocator returned) and after [Resize] to [n] rows (which succeeds
    whenever the new byte size fits the capacity), every bit of the
    bitmap at a position [>= n], up to the end of the last byte in use,
    is zero; hence [CountSelected] is at most [nrows] and [AnySelected]
    is true only if a row below [nrows] is selected. *)
Theorem selection_vector_padding :
  (forall n mem,
      0 < n -> length mem = BitmapSize n -> bytes_ok mem ->
      well_padded n (SelectionVector_new n mem)) /\
  (forall sv n,
      shape_ok sv -> padded sv -> BitmapSize n <= bytes_capacity_ sv ->
      exists sv', Resize sv n = Some sv' /\ well_padded n sv').
Proof.
  split.
  - intros n mem Hn Hlen Hok. unfold SelectionVector_new.
    apply well_padded_intro.
    + unfold nrows. by rewrite PadExtraBitsWithZeroes_nrows.
    + apply PadExtraBitsWithZeroes_shape. by repeat split.
    + by apply PadExtraBitsWithZeroes_padded.
  - intros sv n Hs Hp Hcap. unfold Resize.
    destruct (n =? n_rows_ sv) eqn:Heq.
    + apply Nat.eqb_eq in Heq. exists sv. split; [done|].
      by apply well_padded_intro.
    + apply Nat.leb_le in Hcap. rewrite Hcap.
      eexists. split; [done|].
      destruct Hs as (Hl & Hb & Hc & Hok). apply Nat.leb_le in Hcap.
      apply well_padded_intro.
      * unfold nrows. by rewrite PadExtraBitsWithZeroes_nrows.
      * apply PadExtraBitsWithZeroes_shape. by repeat split.
      * by apply PadExtraBitsWithZeroes_padded.
Qed.

(** A vector of 10 rows built on a buffer of all ones, then shrunk to
    3 rows. *)
Lemma selection_vector_padding_witness :
  well_padded 10 (SelectionVector_new 10 [255; 255]%Z) /\
  exists sv', Resize (SelectionVector_new 10 [255; 255]%Z) 3 = Some sv' /\
              well_padded 3 sv'.
Proof.
  assert (Hok : bytes_ok [255; 255]%Z).
  { repeat constructor; lia. }
  pose proof (proj1 selection_vector_padding 10 [255; 255]%Z
                ltac:(lia) eq_refl Hok) as Hnew.
  split; [exact Hnew|].
  destruct Hnew as (_ & Hs & Hp & _).
  apply (proj2 selection_vector_padding _ 3 Hs Hp).
  vm_compute. lia.
Defined.

End RowBlockFacts.

Module MmOpsFacts.
Import MmOps.

(** Sample values of the conversions and of the two selections. *)
Example double_of_Z_one : double_of_Z 1 = S754_finite false 4503599627370496 (-52).
Proof. reflexivity. Qed.

Example std_max_nan_right : std_max one S754_nan = one.
Proof. reflexivity. Qed.

Example wrap_int32_threshold : wrap_int32 (120 * 1000) = 120000.
Proof. reflexivity. Qed.

(** C4. With [A] the anchored megabytes, [T] the flush threshold, [E] the
    elapsed milliseconds and [U] the upper bound: if [A >= T] the score
    becomes [max(1.0, A - T)]; else if [E] exceeds the time threshold it
    becomes [min(1.0, max(E / U, A / T))]; otherwise the stats are left
    as they were. *)
Theorem flush_perf_improvement_policy
    (threshold_mb_flag upper_bound_ms_flag threshold_secs_flag : Z)
    (stats : MaintenanceOpStats) (E : double) :
  let A := anchored_mb stats in
  let T := double_of_Z threshold_mb_flag in
  let U := double_of_Z upper_bound_ms_flag in
  let limit := time_threshold_ms threshold_secs_flag in
  let stats' := SetPerfImprovementForFlush threshold_mb_flag upper_bound_ms_flag
                  threshold_secs_flag stats E in
  (dge A T = true ->
   stats' = set_perf_improvement stats (std_max one (dsub A T))) /\
  (dge A T = false -> dgt E limit = true ->
   stats' = set_perf_improvement stats
              (std_min one (std_max (ddiv E U) (ddiv A T)))) /\
  (dge A T = false -> dgt E limit = false -> stats' = stats).
Proof.
  cbv zeta. unfold SetPerfImprovementForFlush, threshold_mb, upper_bound_ms.
  split_and!.
  - intros ->. reflexivity.
  - intros -> ->. reflexivity.
  - intros -> ->. reflexivity.
Qed.

(** Three runs with the default flags (1024 MB, one hour, 120 s): 3 GiB
    anchored; 512 MiB anchored for half an hour; 512 MiB anchored for one
    second. *)
Lemma flush_perf_improvement_policy_witness :
  let z := double_of_Z 0 in
  let big := mkStats true (3 * 1024 * 1024 * 1024) 0 z z in
  let small := mkStats true (512 * 1024 * 1024) 0 z z in
  perf_improvement_
    (SetPerfImprovementForFlush 1024 3600000 120 big z) = double_of_Z 2048 /\
  perf_improvement_
    (SetPerfImprovementForFlush 1024 3600000 120 small (double_of_Z 1800000))
    = ddiv one (double_of_Z 2) /\
  SetPerfImprovementForFlush 1024 3600000 120 small (double_of_Z 1000) = small.
Proof.
  cbv zeta. split_and!.
  - rewrite (proj1 (flush_perf_improvement_policy 1024 3600000 120 _ _));
      reflexivity.
  - rewrite (proj1 (proj2 (flush_perf_improvement_policy 1024 3600000 120 _ _)));
      reflexivity.
  - rewrite (proj2 (proj2 (flush_perf_improvement_policy 1024 3600000 120 _ _)));
      reflexivity.
Defined.

End MmOpsFacts.

Module DirManagerFacts.
Import DirManager.

(** ** Dir::RefreshAvailableSpace *)

Lemma repoll_enospc ENOSPC d errno avail now :
  errno = ENOSPC ->
  exists gauge,
    repoll ENOSPC d (Status.IOError errno, avail) now =
    (Status.OK, mkDir true avail now gauge).
Proof.
  intros ->. unfold repoll. simpl. rewrite Z.eqb_refl. simpl. eauto.
Qed.

Lemma repoll_error ENOSPC d s avail now :
  Status.ok s = false ->
  Status.IsIOError s && (Status.posix_code s =? ENOSPC) = false ->
  repoll ENOSPC d (s, avail) now = (s, d).
Proof.
  intros Hs Hne. unfold repoll. rewrite Hne, Hs. reflexivity.
Qed.

(** C6. In [EXPIRED_ONLY] mode with a cache younger than the TTL the call
    returns OK and leaves the cached state alone; a re-poll that fails
    with an IOError carrying [ENOSPC] sets [is_full_] and returns OK (the
    function has no access to the manager's failed set); any other failed
    status is returned, not OK, and the cached state is not updated. *)
Theorem refresh_available_space
    (ENOSPC ttl : Z) (d : Dir) (now_check now_update avail : Z) :
  (now_check < last_space_check_ d + MonoDelta_FromSeconds ttl ->
   forall verify,
     RefreshAvailableSpace ENOSPC ttl d EXPIRED_ONLY now_check verify now_update
     = (Status.OK, d)) /\
  (forall mode,
     mode = ALWAYS \/
     last_space_check_ d + MonoDelta_FromSeconds ttl <= now_check ->
     let r := RefreshAvailableSpace ENOSPC ttl d mode now_check
                (Status.IOError ENOSPC, avail) now_update in
     Status.ok r.1 = true /\ is_full_ r.2 = true /\
     last_space_check_ r.2 = now_update) /\
  (forall mode s,
     mode = ALWAYS \/
     last_space_check_ d + MonoDelta_FromSeconds ttl <= now_check ->
     Status.ok s = false ->
     ~ (Status.IsIOError s = true /\ Status.posix_code s = ENOSPC) ->
     let r := RefreshAvailableSpace ENOSPC ttl d mode now_check
                (s, avail) now_update in
     r.1 = s /\ Status.ok r.1 = false /\ r.2 = d).
Proof.
  split_and!.
  - intros Hyoung verify. unfold RefreshAvailableSpace, available_space_cache_secs.
    apply Z.ltb_lt in Hyoung. by rewrite Hyoung.
  - intros mode Hre r.
    assert (Hr : r = repoll ENOSPC d (Status.IOError ENOSPC, avail) now_update).
    { subst r. unfold RefreshAvailableSpace, available_space_cache_secs.
      destruct mode; [|done]. destruct Hre as [|Hre]; [done|].
      apply Z.ltb_ge in Hre. by rewrite Hre. }
    destruct (repoll_enospc ENOSPC d ENOSPC avail now_update eq_refl) as [g Hg].
    rewrite Hr, Hg. done.
  - intros mode s Hre Hs Hother r.
    assert (Hr : r = repoll ENOSPC d (s, avail) now_update).
    { subst r. unfold RefreshAvailableSpace, available_space_cache_secs.
      destruct mode; [|done]. destruct Hre as [|Hre]; [done|].
      apply Z.ltb_ge in Hre. by rewrite Hre. }
    rewrite Hr, repoll_error; [done | done |].
    apply andb_false_iff.
    destruct (Status.IsIOError s); [right|by left].
    apply Z.eqb_neq. intros He. apply Hother. done.
Qed.

(** A dir checked at time 0 with a 10 s TTL: polled again after 1 s
    (cache still valid), after 20 s with ENOSPC (errno 28), and after
    20 s with EIO (errno 5). *)
Lemma refresh_available_space_witness :
  let d := mkDir false 4096 0 (Some 0) in
  RefreshAvailableSpace 28 10 d EXPIRED_ONLY 1000000000
    (Status.IOError 5, 0) 1000000001 = (Status.OK, d) /\
  is_full_ (RefreshAvailableSpace 28 10 d EXPIRED_ONLY 20000000000
              (Status.IOError 28, 0) 20000000001).2 = true /\
  (RefreshAvailableSpace 28 10 d EXPIRED_ONLY 20000000000
     (Status.IOError 5, 0) 20000000001).2 = d.
Proof.
  cbv zeta. split_and!.
  - apply (proj1 (refresh_available_space 28 10 _ 1000000000 1000000001 0)).
    reflexivity.
  - apply (proj1 (proj2 (refresh_available_space 28 10 _ 20000000000
                           20000000001 0)) EXPIRED_ONLY).
    right. simpl. unfold MonoDelta_FromSeconds. lia.
  - apply (proj2 (proj2 (refresh_available_space 28 10 _ 20000000000
                           20000000001 0)) EXPIRED_ONLY (Status.IOError 5)).
    + right. simpl. unfold MonoDelta_FromSeconds. lia.
    + reflexivity.
    + simpl. intros [_ H]. lia.
Defined.

(** ** DirManager::MarkDirFailed *)

Lemma size_insert_new (failed : gset Z) (idx : Z) :
  idx ∉ failed -> size ({[idx]} ∪ failed) = S (size failed).
Proof.
  intros Hn. rewrite size_union by set_solver. by rewrite size_singleton.
Qed.

Lemma MarkDirFailed_already dm idx :
  idx ∈ failed_dirs_ dm -> MarkDirFailed dm idx = (Status.OK, dm).
Proof.
  intros Hin. unfold MarkDirFailed, InsertIfNotPresent.
  rewrite bool_decide_eq_true_2 by done. by destruct dm.
Qed.

(** The insertion comes first: when it makes the failed set as large as
    [dirs_], the IOError is returned with the index already in the set;
    only the gauge and the log are skipped. *)
Lemma MarkDirFailed_last dm idx :
  idx ∉ failed_dirs_ dm ->
  S (size (failed_dirs_ dm)) = length (dirs_ dm) ->
  MarkDirFailed dm idx =
  (Status.IOError (-1),
   mk (dirs_ dm) ({[idx]} ∪ failed_dirs_ dm) (dirs_failed dm) (error_log dm)).
Proof.
  intros Hnew Hsz. unfold MarkDirFailed, InsertIfNotPresent.
  rewrite bool_decide_eq_false_2 by done.
  rewrite size_insert_new by done.
  by rewrite (proj2 (Nat.eqb_eq _ _) Hsz).
Qed.

Lemma MarkDirFailed_some_left dm idx :
  idx ∉ failed_dirs_ dm ->
  S (size (failed_dirs_ dm)) <> length (dirs_ dm) ->
  MarkDirFailed dm idx =
  (Status.OK,
   mk (dirs_ dm) ({[idx]} ∪ failed_dirs_ dm)
      (match dirs_failed dm with Some g => Some (g + 1) | None => None end)
      (error_log dm ++ [idx])).
Proof.
  intros Hnew Hsz. unfold MarkDirFailed, InsertIfNotPresent.
  rewrite bool_decide_eq_false_2 by done.
  rewrite size_insert_new by done.
  by rewrite (proj2 (Nat.eqb_neq _ _) Hsz).
Qed.

(** C5 as stated fails: with two directories of which index 0 has
    failed, marking index 1 returns an IOError, yet the failed set has
    changed: it now holds index 1 as well. *)
Lemma mark_dir_failed_set_unchanged_counterexample :
  let dm := mk ["/data/0"; "/data/1"]%string {[0]} (Some 1) [] in
  Status.IsIOError (MarkDirFailed dm 1).1 = true /\
  failed_dirs_ (MarkDirFailed dm 1).2 <> failed_dirs_ dm /\
  IsDirFailed (MarkDirFailed dm 1).2 1 = true.
Proof.
  cbv zeta.
  rewrite MarkDirFailed_last;
    [|set_solver|cbn [failed_dirs_ dirs_ length]; by rewrite size_singleton].
  simpl. split_and!; [done| |].
  - intros Heq. assert (H : (1:Z) ∈ ({[0]} : gset Z)).
    { rewrite <- Heq. set_solver. }
    set_solver.
  - unfold IsDirFailed. simpl. apply bool_decide_eq_true_2. set_solver.
Qed.

(** C5, amended. With at least two directories: marking an index that
    has already failed returns OK and changes nothing; marking a healthy
    index whose failure leaves no healthy directory returns an IOError,
    and by then the index has been inserted into the failed set (which
    now covers every directory), while the [dirs_failed] gauge and the
    error log are left as they were. *)
Theorem mark_dir_failed (dm : t) (idx : Z) :
  (2 <= length (dirs_ dm))%nat ->
  (idx ∈ failed_dirs_ dm -> MarkDirFailed dm idx = (Status.OK, dm)) /\
  (idx ∉ failed_dirs_ dm ->
   S (size (failed_dirs_ dm)) = length (dirs_ dm) ->
   let r := MarkDirFailed dm idx in
   Status.IsIOError r.1 = true /\
   failed_dirs_ r.2 = {[idx]} ∪ failed_dirs_ dm /\
   size (failed_dirs_ r.2) = length (dirs_ r.2) /\
   dirs_ r.2 = dirs_ dm /\
   dirs_failed r.2 = dirs_failed dm /\
   error_log r.2 = error_log dm).
Proof.
  intros _. split.
  - apply MarkDirFailed_already.
  - intros Hnew Hsz r. subst r. rewrite MarkDirFailed_last by done. simpl.
    split_and!; try done. by rewrite size_insert_new.
Qed.

Lemma mark_dir_failed_witness :
  let dm := mk ["/data/0"; "/data/1"]%string {[0]} (Some 1) [] in
  MarkDirFailed dm 0 = (Status.OK, dm) /\
  Status.IsIOError (MarkDirFailed dm 1).1 = true /\
  failed_dirs_ (MarkDirFailed dm 1).2 = {[1]} ∪ {[0]}.
Proof.
  cbv zeta.
  pose proof (mark_dir_failed
                (mk ["/data/0"; "/data/1"]%string {[0]} (Some 1) []) 0
                ltac:(simpl; lia)) as [Hold _].
  pose proof (mark_dir_failed
                (mk ["/data/0"; "/data/1"]%string {[0]} (Some 1) []) 1
                ltac:(simpl; lia)) as [_ Hlast].
  cbn [failed_dirs_ dirs_ length] in Hold, Hlast.
  assert (Hin : (0:Z) ∈ ({[0]} : gset Z)) by (apply elem_of_singleton; done).
  assert (Hout : (1:Z) ∉ ({[0]} : gset Z)).
  { intros H. apply elem_of_singleton in H. discriminate H. }
  assert (Hsz : S (size ({[0]} : gset Z)) = 2%nat) by (by rewrite size_singleton).
  destruct (Hlast Hout Hsz) as (Hio & Hset & _).
  split_and!; [exact (Hold Hin) | exact Hio | exact Hset].
Defined.

End DirManagerFacts.

Module BinaryDictDecoderFacts.
Import Cfile BinaryDictDecoder.

(** The enumerator values that the spec gives for the header field, and
    sub-decoders that accept any block and find no entries; used for the
    concrete runs below. *)
Definition spec_encoding : DictEncoding :=
  {| kCodeWordMode := 0; kPlainBinaryMode := 1;
     DictEncodingMode_min := 0; DictEncodingMode_max := 1 |}.

Definition empty_sub_decoders : SubDecoders :=
  {| bshuf_ParseHeader := fun _ => (Status.OK, []);
     plain_ParseHeader := fun _ => (Status.OK, []) |}.

Section ParseHeader.
Context `{DictEncoding} `{SubDecoders}.

Lemma ParseHeader_short d :
  (length (data_ d) < kMinHeaderSize)%nat ->
  ParseHeader d = (Status.Corruption, d).
Proof.
  intros Hlen. unfold ParseHeader.
  by rewrite (proj2 (Nat.ltb_lt _ _) Hlen).
Qed.

Lemma ParseHeader_bad_mode d :
  (kMinHeaderSize <= length (data_ d))%nat ->
  wrap_int32 (DecodeFixed32 (data_ d)) <> kCodeWordMode ->
  wrap_int32 (DecodeFixed32 (data_ d)) <> kPlainBinaryMode ->
  exists mode,
    ParseHeader d =
    (Status.Corruption,
     mk (data_ d) (parsed_ d) (dict_decoder_ d) (data_decoder_ d) mode).
Proof.
  intros Hlen Hcw Hpl. unfold ParseHeader.
  rewrite (proj2 (Nat.ltb_ge _ _) Hlen).
  destruct (tight_enum_test_cast _) as [mode|] eqn:Hcast.
  - unfold tight_enum_test_cast in Hcast.
    destruct (_ && _); [|discriminate]. injection Hcast as <-.
    rewrite (proj2 (Z.eqb_neq _ _) Hcw), (proj2 (Z.eqb_neq _ _) Hpl). simpl.
    eauto.
  - exists (mode_ d). by destruct d.
Qed.

(** C8. [ParseHeader] returns a Corruption status when the block is
    shorter than the header, and when the 32-bit mode field holds a
    value that is neither [kCodeWordMode] nor [kPlainBinaryMode]; in both
    cases a decoder that was not parsed stays not parsed. *)
Theorem parse_header_corruption (d : t) :
  parsed_ d = false ->
  ((length (data_ d) < kMinHeaderSize)%nat ->
   Status.IsCorruption (ParseHeader d).1 = true /\
   parsed_ (ParseHeader d).2 = false) /\
  ((kMinHeaderSize <= length (data_ d))%nat ->
   wrap_int32 (DecodeFixed32 (data_ d)) <> kCodeWordMode ->
   wrap_int32 (DecodeFixed32 (data_ d)) <> kPlainBinaryMode ->
   Status.IsCorruption (ParseHeader d).1 = true /\
   parsed_ (ParseHeader d).2 = false).
Proof.
  intros Hp. split.
  - intros Hlen. by rewrite ParseHeader_short.
  - intros Hlen Hcw Hpl.
    destruct (ParseHeader_bad_mode d Hlen Hcw Hpl) as [mode ->]. done.
Qed.

End ParseHeader.

(** A block of three bytes, and a block whose mode field holds 2, under
    the spec's values 0 and 1 for the two modes. *)
Lemma parse_header_corruption_witness :
  let dict := mkPlain [] 0 in
  Status.IsCorruption
    (@ParseHeader spec_encoding empty_sub_decoders (new [0; 0; 0] dict 0)).1
  = true /\
  Status.IsCorruption
    (@ParseHeader spec_encoding empty_sub_decoders
       (new [2; 0; 0; 0; 9; 9] dict 0)).1 = true.
Proof.
  cbv zeta. split.
  - refine (proj1 (proj1 (@parse_header_corruption spec_encoding
                            empty_sub_decoders
                            (new [0; 0; 0] (mkPlain [] 0) 0) eq_refl) _)).
    simpl. unfold kMinHeaderSize. lia.
  - refine (proj1 (proj2 (@parse_header_corruption spec_encoding
                            empty_sub_decoders
                            (new [2; 0; 0; 0; 9; 9] (mkPlain [] 0) 0) eq_refl)
                     _ _ _)).
    + simpl. unfold kMinHeaderSize. lia.
    + vm_compute. discriminate.
    + vm_compute. discriminate.
Defined.

Section Seek.
Context `{DictEncoding}.

(** The binary search runs off the right end when every entry is below
    the target. *)
Lemma seek_loop_all_less {A} (cmp : A -> A -> comparison) elems target :
  (forall e, e ∈ elems -> cmp e target = Lt) ->
  forall fuel lo,
    (lo <= length elems)%nat -> (length elems - lo < fuel)%nat ->
    seek_loop cmp elems target fuel lo (length elems) = inr (length elems).
Proof.
  intros Hlt. induction fuel as [|fuel IH]; intros lo Hlo Hfuel; [lia|].
  cbn [seek_loop].
  destruct (Nat.eqb lo (length elems)) eqn:Heq.
  - apply Nat.eqb_eq in Heq. by rewrite Heq.
  - apply Nat.eqb_neq in Heq.
    assert (Hmid : (Nat.div (lo + length elems) 2 < length elems)%nat).
    { apply Nat.Div0.div_lt_upper_bound. lia. }
    destruct (lookup_lt_is_Some_2 elems _ Hmid) as [e He].
    rewrite He, (Hlt e) by (by eapply list_elem_of_lookup_2).
    apply IH; lia.
Qed.

Lemma block_SeekAtOrAfterValue_beyond {A} (cmp : A -> A -> comparison)
    elems target :
  (forall e, e ∈ elems -> cmp e target = Lt) ->
  block_SeekAtOrAfterValue cmp elems target =
  (Status.NotFound, false, length elems).
Proof.
  intros Hlt. unfold block_SeekAtOrAfterValue.
  rewrite seek_loop_all_less by (done || lia).
  by rewrite Nat.eqb_refl.
Qed.

(** What [SeekAtOrAfterValue] does in codeword mode when the value lies
    beyond every dictionary key. *)
Lemma SeekAtOrAfterValue_beyond d dd value :
  mode_ d = kCodeWordMode ->
  data_decoder_ d = Some dd ->
  (forall key, key ∈ plain_elems (dict_decoder_ d) ->
               String.compare key value = Lt) ->
  SeekAtOrAfterValue d value =
  Some (Status.NotFound, false,
        mk (data_ d) (parsed_ d)
           (mkPlain (plain_elems (dict_decoder_ d))
                    (Z.of_nat (length (plain_elems (dict_decoder_ d)))))
           (Some (data_SeekToPositionInBlock dd
                    (wrap_uint32 ((Z.of_nat (data_Count dd) - 1) mod 2 ^ 64))))
           (mode_ d)).
Proof.
  intros Hmode Hdd Hlt. unfold SeekAtOrAfterValue, plain_SeekAtOrAfterValue.
  rewrite Hdd, Hmode, Z.eqb_refl.
  by rewrite block_SeekAtOrAfterValue_beyond.
Qed.

Lemma last_position (count : nat) :
  (0 < count)%nat -> Z.of_nat count <= 2 ^ 32 ->
  wrap_uint32 ((Z.of_nat count - 1) mod 2 ^ 64) = Z.of_nat count - 1.
Proof.
  intros Hpos Hmax. unfold wrap_uint32.
  rewrite (Z.mod_small _ (2 ^ 64)) by lia.
  apply Z.mod_small. lia.
Qed.

Lemma data_cur_idx_seek dd pos :
  data_cur_idx (data_SeekToPositionInBlock dd pos) = pos.
Proof. by destruct dd. Qed.

(** C3, amended. In codeword mode, a value greater than every key of the
    file-level dictionary makes [SeekAtOrAfterValue] return NotFound and
    leaves the data decoder of a non-empty block on its last entry, at
    position [Count() - 1], which is not one past the end. *)
Theorem seek_beyond_dictionary (d : t) (dd : DataDecoder) (value : Slice) :
  mode_ d = kCodeWordMode ->
  data_decoder_ d = Some dd ->
  (0 < data_Count dd)%nat -> Z.of_nat (data_Count dd) <= 2 ^ 32 ->
  (forall key, key ∈ plain_elems (dict_decoder_ d) ->
               String.compare key value = Lt) ->
  exists exact d' dd',
    SeekAtOrAfterValue d value = Some (Status.NotFound, exact, d') /\
    data_decoder_ d' = Some dd' /\
    data_Count dd' = data_Count dd /\
    data_cur_idx dd' = Z.of_nat (data_Count dd) - 1.
Proof.
  intros Hmode Hdd Hpos Hmax Hlt.
  rewrite (SeekAtOrAfterValue_beyond d dd value Hmode Hdd Hlt).
  eexists _, _, _. split_and!; [done | done | by destruct dd |].
  by rewrite data_cur_idx_seek, last_position.
Qed.

End Seek.

(** A codeword block of three rows over the dictionary ["a"; "b"],
    sought at "c". *)
Definition three_row_decoder : t :=
  mk [] true (mkPlain ["a"; "b"]%string 0) (Some (BShuf (mkBShuf [0; 1; 0] 0))) 0.

Lemma seek_beyond_dictionary_witness :
  exists exact d' dd',
    @SeekAtOrAfterValue spec_encoding three_row_decoder "c"%string
    = Some (Status.NotFound, exact, d') /\
    data_decoder_ d' = Some dd' /\
    data_Count dd' = 3%nat /\
    data_cur_idx dd' = 2.
Proof.
  apply (@seek_beyond_dictionary spec_encoding three_row_decoder
           (BShuf (mkBShuf [0; 1; 0] 0)) "c"%string eq_refl eq_refl).
  - simpl. lia.
  - simpl. lia.
  - intros key Hkey. simpl in Hkey.
    apply elem_of_cons in Hkey as [->|Hkey]; [reflexivity|].
    apply elem_of_cons in Hkey as [->|Hkey]; [reflexivity|].
    by apply elem_of_nil in Hkey.
Defined.

(** C3 as stated fails: "c" is beyond the largest dictionary key, the
    status is NotFound, and the data decoder of the three-row block ends
    at position 2, not at one past the end (3). *)
Lemma seek_beyond_dictionary_one_past_end_counterexample :
  exists s exact d' dd',
    @SeekAtOrAfterValue spec_encoding three_row_decoder "c"%string
    = Some (s, exact, d') /\
    Status.IsNotFound s = true /\
    data_decoder_ d' = Some dd' /\
    data_cur_idx dd' = 2 /\
    data_cur_idx dd' <> Z.of_nat (data_Count dd').
Proof.
  eexists _, _, _, _. split_and!; [vm_compute; reflexivity | done | done | done | done].
Qed.

End BinaryDictDecoderFacts.

Module BinaryDictBuilderFacts.
Import Cfile BinaryDictBuilder.

(** Limits used in the concrete runs: the dictionary block reports full
    once it holds two strings, a data block once it holds three
    entries. *)
Definition small_blocks : BlockLimits :=
  {| plain_full := fun strs => Nat.leb 2 (length strs);
     bshuf_full := fun cws => Nat.leb 3 (length cws) |}.

Definition spec_encoding : DictEncoding :=
  {| kCodeWordMode := 0; kPlainBinaryMode := 1;
     DictEncodingMode_min := 0; DictEncodingMode_max := 1 |}.

Section AddCodeWords.
Context `{DictEncoding} `{BlockLimits}.

(** Why the loop of [AddCodeWords] stopped at index [k] of [src], read
    off the state it leaves: the data block is full, or the value at [k]
    is not in the dictionary and the dictionary block is full. *)
Definition stopped (b' : t) (src : list Slice) (k : nat) : Prop :=
  data_IsBlockFull (data_builder_ b') = true \/
  exists v, src !! k = Some v /\ dictionary_ b' !! v = None /\
            plain_full (dict_block_ b') = true.

(** The codewords [cws] appended for the values [vs] are the ones the
    dictionary [m] holds for them. *)
Definition encoded (m : gmap string Z) (vs : list Slice) (cws : list Z) : Prop :=
  Forall2 (fun v cw => m !! v = Some cw) vs cws.

Lemma AddToDict_full b val :
  plain_full (dict_block_ b) = true -> AddToDict b val = Some (None, b).
Proof. intros Hfull. unfold AddToDict. cbn [plain_Add]. by rewrite Hfull. Qed.

Lemma AddToDict_room b val :
  plain_full (dict_block_ b) = false ->
  dictionary_ b !! val = None ->
  AddToDict b val =
  Some (Some (wrap_uint32 (Z.of_nat (length (dict_block_ b ++ [val])) - 1)),
        mk (dict_block_ b ++ [val])
           (<[val := wrap_uint32 (Z.of_nat (length (dict_block_ b ++ [val])) - 1)]>
              (dictionary_ b))
           (data_builder_ b) (mode_ b) (finished_ b) (first_key_ b)
           (header_buffer_ b)).
Proof.
  intros Hroom Hnew. unfold AddToDict, InsertOrDie. cbn [plain_Add].
  rewrite Hroom. cbn [Nat.eqb]. by rewrite Hnew.
Qed.

Lemma AddCodeWords_loop_spec : forall src b i cws,
  data_builder_ b = BShufBuilder cws ->
  exists k b' new_cws,
    AddCodeWords_loop b src i = Some ((i + k)%nat, b') /\
    (k <= length src)%nat /\
    data_builder_ b' = BShufBuilder (cws ++ new_cws) /\
    length new_cws = k /\
    encoded (dictionary_ b') (take k src) new_cws /\
    dictionary_ b ⊆ dictionary_ b' /\
    mode_ b' = mode_ b /\
    ((k < length src)%nat -> stopped b' src k).
Proof.
  induction src as [|v rest IH]; intros b i cws Hdata.
  { exists 0%nat, b, []. rewrite Nat.add_0_r, app_nil_r.
    split_and!; try done. - constructor. - simpl. lia. }
  (* what [append] does once the codeword of [v] is known *)
  assert (Happend : forall b1 cw,
    data_builder_ b1 = BShufBuilder cws ->
    dictionary_ b ⊆ dictionary_ b1 ->
    dictionary_ b1 !! v = Some cw ->
    mode_ b1 = mode_ b ->
    exists k b' new_cws,
      match data_builder_ b1 with
      | BShufBuilder cws0 =>
          let '(n, cws') := bshuf_Add1 cws0 cw in
          if Nat.eqb n 0 then Some (i, b1)
          else AddCodeWords_loop (set_data_builder b1 (BShufBuilder cws'))
                                 rest (S i)
      | PlainBuilder _ => None
      end = Some ((i + k)%nat, b') /\
      (k <= length (v :: rest))%nat /\
      data_builder_ b' = BShufBuilder (cws ++ new_cws) /\
      length new_cws = k /\
      encoded (dictionary_ b') (take k (v :: rest)) new_cws /\
      dictionary_ b ⊆ dictionary_ b' /\
      mode_ b' = mode_ b /\
      ((k < length (v :: rest))%nat -> stopped b' (v :: rest) k)).
  { intros b1 cw Hd1 Hsub Hcw Hmode. rewrite Hd1. unfold bshuf_Add1.
    destruct (bshuf_full cws) eqn:Hfull; simpl.
    - exists 0%nat, b1, []. rewrite Nat.add_0_r, app_nil_r.
      split_and!; try done; try (simpl; lia).
      + constructor.
      + intros _. left. by rewrite Hd1.
    - destruct (IH (set_data_builder b1 (BShufBuilder (cws ++ [cw]))) (S i)
                   (cws ++ [cw]) eq_refl)
        as (k & b' & new_cws & Hrun & Hk & Hd' & Hlen & Henc & Hsub' & Hmode' & Hstop).
      simpl in Hsub', Hmode'.
      exists (S k), b', (cw :: new_cws).
      split_and!.
      + rewrite Hrun. do 2 f_equal. lia.
      + simpl. lia.
      + by rewrite Hd', <- app_assoc.
      + simpl. by rewrite Hlen.
      + simpl. constructor; [|done]. by eapply lookup_weaken.
      + by etrans.
      + congruence.
      + intros Hlt. simpl in Hlt.
        destruct (Hstop ltac:(lia)) as [Hfull'|(v' & Hv' & Hnone & Hdict)].
        * by left.
        * right. exists v'. by split_and!. }
  cbn [AddCodeWords_loop]. unfold FindCopy.
  destruct (dictionary_ b !! v) as [cw|] eqn:Hfind.
  - by apply Happend.
  - destruct (plain_full (dict_block_ b)) eqn:Hfull.
    + rewrite AddToDict_full by done.
      exists 0%nat, b, []. rewrite Nat.add_0_r, app_nil_r.
      split_and!; try done; try (simpl; lia).
      * constructor.
      * intros _. right. exists v. by split_and!.
    + rewrite AddToDict_room by done.
      apply Happend; simpl; try done.
      * by apply insert_subseteq.
      * by rewrite lookup_insert_eq.
Qed.

(** C9. In codeword mode, for a non-empty input [vals] of [n] values,
    [Add] returns a count [i] with [0 <= i <= n]; the data block has
    received exactly [i] codewords, one for each of the first [i] values
    and equal to the codeword the dictionary holds for that value; the
    entries the dictionary had before keep their codewords; and [i < n]
    only when the data block is full or the value at index [i] is not in
    the dictionary and the dictionary block is full. *)
Theorem add_codewords (b : t) (vals : list Slice) (cws : list Z) :
  vals <> [] ->
  mode_ b = kCodeWordMode ->
  data_builder_ b = BShufBuilder cws ->
  exists i b' new_cws,
    Add b vals = Some (i, b') /\
    (0 <= i <= length vals)%nat /\
    data_builder_ b' = BShufBuilder (cws ++ new_cws) /\
    length new_cws = i /\
    encoded (dictionary_ b') (take i vals) new_cws /\
    dictionary_ b ⊆ dictionary_ b' /\
    ((i < length vals)%nat -> stopped b' vals i).
Proof.
  intros Hne Hmode Hdata. unfold Add, AddCodeWords.
  rewrite Hmode, Z.eqb_refl.
  destruct vals as [|src rest]; [done|].
  set (b0 := if Nat.eqb (data_Count (data_builder_ b)) 0 then _ else b).
  assert (Hd0 : data_builder_ b0 = BShufBuilder cws).
  { subst b0. by destruct (Nat.eqb _ _). }
  assert (Hm0 : dictionary_ b0 = dictionary_ b).
  { subst b0. by destruct (Nat.eqb _ _). }
  destruct (AddCodeWords_loop_spec (src :: rest) b0 0 cws Hd0)
    as (k & b' & new_cws & Hrun & Hk & Hd' & Hlen & Henc & Hsub & _ & Hstop).
  exists k, b', new_cws. rewrite Hm0 in Hsub.
  split_and!; try done. lia.
Qed.

End AddCodeWords.

(** An empty builder in codeword mode is given "x", "y", "x", "z" with a
    dictionary block that is full after two strings: three codewords are
    appended and the fourth value is refused. *)
Lemma add_codewords_witness :
  let b := @BinaryDictBuilder.new spec_encoding small_blocks in
  exists i b' new_cws,
    @Add spec_encoding small_blocks b ["x"; "y"; "x"; "z"]%string = Some (i, b') /\
    (0 <= i <= 4)%nat /\
    data_builder_ b' = BShufBuilder ([] ++ new_cws) /\
    length new_cws = i /\
    @encoded (dictionary_ b') (take i ["x"; "y"; "x"; "z"]%string) new_cws /\
    dictionary_ b ⊆ dictionary_ b' /\
    ((i < 4)%nat ->
     @stopped small_blocks b' ["x"; "y"; "x"; "z"]%string i).
Proof.
  apply (@add_codewords spec_encoding small_blocks
           (@BinaryDictBuilder.new spec_encoding small_blocks)
           ["x"; "y"; "x"; "z"]%string []).
  - discriminate.
  - reflexivity.
  - reflexivity.
Defined.

Example add_codewords_run :
  option_map (fun r => (r.1, data_builder_ r.2, dict_block_ r.2))
    (@Add spec_encoding small_blocks
       (@BinaryDictBuilder.new spec_encoding small_blocks)
       ["x"; "y"; "x"; "z"]%string)
  = Some (3%nat, BShufBuilder [0; 1; 0], ["x"; "y"]%string).
Proof. vm_compute. reflexivity. Qed.

Section ModePermanent.
Context `{DictEncoding} `{BlockLimits}.

(** The class invariant: the data builder is the bit-shuffle one in
    codeword mode and the plain one in plain-binary mode. *)
Definition consistent (b : t) : Prop :=
  (mode_ b = kCodeWordMode /\ exists cws, data_builder_ b = BShufBuilder cws) \/
  (mode_ b = kPlainBinaryMode /\ exists strs, data_builder_ b = PlainBuilder strs).

(** A finished block whose header holds the mode its payload was built
    in. *)
Definition codeword_block (blk : Block) : Prop :=
  header blk = EncodeFixed32 kCodeWordMode /\
  exists cws, payload blk = BShufBuilder cws.

Definition plain_block (blk : Block) : Prop :=
  header blk = EncodeFixed32 kPlainBinaryMode /\
  exists strs, payload blk = PlainBuilder strs.

Definition block_ok (blk : Block) : Prop := codeword_block blk \/ plain_block blk.

Lemma Reset_consistent b : consistent b -> consistent (Reset b).
Proof.
  intros Hc. unfold Reset.
  destruct ((mode_ b =? kCodeWordMode) && plain_full (dict_block_ b)).
  - right. simpl. eauto.
  - destruct Hc as [[Hm [cws Hd]]|[Hm [strs Hd]]]; [left|right]; simpl;
      rewrite Hd; simpl; eauto.
Qed.

Lemma Reset_plain b :
  mode_ b = kPlainBinaryMode -> mode_ (Reset b) = kPlainBinaryMode.
Proof.
  intros Hm. unfold Reset. by destruct (_ && _).
Qed.

Lemma Reset_switch b :
  mode_ b = kCodeWordMode -> plain_full (dict_block_ b) = true ->
  mode_ (Reset b) = kPlainBinaryMode /\ data_builder_ (Reset b) = PlainBuilder [].
Proof.
  intros Hm Hfull. unfold Reset. by rewrite Hm, Z.eqb_refl, Hfull.
Qed.

Lemma new_consistent : consistent BinaryDictBuilder.new.
Proof.
  apply Reset_consistent. left. simpl. eauto.
Qed.

Hypothesis modes_distinct : kCodeWordMode <> kPlainBinaryMode.

Lemma consistent_plain b :
  consistent b -> mode_ b = kPlainBinaryMode ->
  exists strs, data_builder_ b = PlainBuilder strs.
Proof.
  intros [[Hm _]|[_ Hd]] Hp; [congruence | done].
Qed.

Lemma Finish_block b :
  consistent b ->
  block_ok (Finish b).1 /\ consistent (Finish b).2 /\
  mode_ (Finish b).2 = mode_ b /\
  (mode_ b = kPlainBinaryMode -> plain_block (Finish b).1).
Proof.
  intros Hc. unfold Finish. cbn [fst snd mode_]. split_and!; [|done|done|].
  - destruct Hc as [[Hm Hd]|[Hm Hd]]; [left|right]; split; cbn;
      by rewrite ?Hm.
  - intros Hm. split; cbn; [by rewrite Hm|]. by apply consistent_plain.
Qed.

Lemma Add_consistent b vals :
  consistent b ->
  exists n b', Add b vals = Some (n, b') /\ consistent b' /\ mode_ b' = mode_ b.
Proof.
  intros [[Hm [cws Hd]]|[Hm [strs Hd]]]; unfold Add.
  - rewrite Hm, Z.eqb_refl. unfold AddCodeWords.
    set (b0 := match vals with [] => b | _ => _ end).
    assert (Hd0 : data_builder_ b0 = BShufBuilder cws).
    { subst b0. destruct vals; [done|]. by destruct (Nat.eqb _ _). }
    assert (Hm0 : mode_ b0 = mode_ b).
    { subst b0. destruct vals; [done|]. by destruct (Nat.eqb _ _). }
    destruct (AddCodeWords_loop_spec vals b0 0 cws Hd0)
      as (k & b' & new_cws & Hrun & _ & Hd' & _ & _ & _ & Hmode & _).
    exists k, b'. split_and!; [done| |congruence].
    left. split; [congruence | eauto].
  - rewrite Hm, (proj2 (Z.eqb_neq _ _)) by congruence. rewrite Hd.
    destruct (plain_Add strs vals) as [n strs'].
    eexists _, _. split_and!; [done| |done].
    right. cbn. eauto.
Qed.

Lemma call_consistent b c :
  consistent b ->
  exists b' blocks,
    call b c = Some (b', blocks) /\ consistent b' /\ Forall block_ok blocks /\
    (mode_ b = kPlainBinaryMode ->
     mode_ b' = kPlainBinaryMode /\ Forall plain_block blocks).
Proof.
  intros Hc. destruct c as [vals| |]; cbn [call].
  - destruct (Add_consistent b vals Hc) as (n & b' & -> & Hc' & Hm).
    exists b', []. split_and!; try done. intros Hp. split; [congruence|done].
  - destruct (Finish_block b Hc) as (Hok & Hc' & Hm & Hplain).
    destruct (Finish b) as [blk b'] eqn:Hf. cbn [fst snd] in *.
    exists b', [blk]. split_and!; try done.
    + by constructor.
    + intros Hp. split; [congruence|]. constructor; [by apply Hplain|done].
  - exists (Reset b), []. split_and!; try done.
    + by apply Reset_consistent.
    + intros Hp. split; [by apply Reset_plain | done].
Qed.

Lemma run_consistent : forall calls b,
  consistent b ->
  exists b' blocks,
    run b calls = Some (b', blocks) /\ consistent b' /\ Forall block_ok blocks /\
    (mode_ b = kPlainBinaryMode ->
     mode_ b' = kPlainBinaryMode /\ Forall plain_block blocks).
Proof.
  induction calls as [|c rest IH]; intros b Hc; cbn [run].
  - exists b, []. by split_and!.
  - destruct (call_consistent b c Hc) as (b1 & blocks1 & -> & Hc1 & Hok1 & Hp1).
    destruct (IH b1 Hc1) as (b2 & blocks2 & -> & Hc2 & Hok2 & Hp2).
    exists b2, (blocks1 ++ blocks2). split_and!; try done.
    + by apply Forall_app.
    + intros Hp. destruct (Hp1 Hp) as [Hm1 Hb1].
      destruct (Hp2 Hm1) as [Hm2 Hb2]. split; [done|by apply Forall_app].
Qed.

Lemma run_app : forall calls1 calls2 b b1 blocks1 b2 blocks2,
  run b calls1 = Some (b1, blocks1) ->
  run b1 calls2 = Some (b2, blocks2) ->
  run b (calls1 ++ calls2) = Some (b2, blocks1 ++ blocks2).
Proof.
  induction calls1 as [|c rest IH]; intros calls2 b b1 blocks1 b2 blocks2 H1 H2.
  - cbn in H1. injection H1 as <- <-. done.
  - cbn [run app] in *. change ((c :: rest) ++ calls2) with (c :: rest ++ calls2).
    cbn [run].
    destruct (call b c) as [[bc blocksc]|]; [|done].
    destruct (run bc rest) as [[br blocksr]|] eqn:Hr; [|done].
    injection H1 as <- <-.
    rewrite (IH calls2 bc br blocksr b2 blocks2 Hr H2).
    by rewrite app_assoc.
Qed.

(** C1. For every sequence of [Add], [Finish] and [Reset] calls on a new
    builder, cut anywhere into a prefix and a suffix: no call aborts;
    every finished block has a header holding the mode its payload was
    built in (codeword header with a bit-shuffle payload of codewords,
    or plain header with a plain payload of strings); a [Reset] in
    codeword mode with a full dictionary block switches to plain-binary
    mode; and once the builder is in plain-binary mode after the prefix,
    it is still in plain-binary mode (and so not in codeword mode) after
    the suffix, and every block finished in the suffix is a plain
    block. *)
Theorem dict_builder_mode_permanent (calls1 calls2 : list Call) :
  exists b1 blocks1 b2 blocks2,
    run BinaryDictBuilder.new calls1 = Some (b1, blocks1) /\
    run b1 calls2 = Some (b2, blocks2) /\
    run BinaryDictBuilder.new (calls1 ++ calls2) = Some (b2, blocks1 ++ blocks2) /\
    Forall block_ok (blocks1 ++ blocks2) /\
    (mode_ b1 = kCodeWordMode -> plain_full (dict_block_ b1) = true ->
     mode_ (Reset b1) = kPlainBinaryMode /\
     data_builder_ (Reset b1) = PlainBuilder []) /\
    (mode_ b1 = kPlainBinaryMode ->
     mode_ b2 = kPlainBinaryMode /\ mode_ b2 <> kCodeWordMode /\
     Forall plain_block blocks2).
Proof.
  destruct (run_consistent calls1 _ new_consistent)
    as (b1 & blocks1 & Hrun1 & Hc1 & Hok1 & _).
  destruct (run_consistent calls2 b1 Hc1)
    as (b2 & blocks2 & Hrun2 & Hc2 & Hok2 & Hplain).
  exists b1, blocks1, b2, blocks2. split_and!; try done.
  - by eapply run_app.
  - by apply Forall_app.
  - apply Reset_switch.
  - intros Hp. destruct (Hplain Hp) as [Hm Hb]. split_and!; [done| |done].
    congruence.
Qed.

End ModePermanent.

(** Two strings fill the dictionary block; after the first block is
    finished and the builder reset, a second block is written. *)
Definition first_block_calls : list Call :=
  [CallAdd ["x"; "y"]%string; CallFinish; CallReset].

Definition second_block_calls : list Call :=
  [CallAdd ["z"; "x"]%string; CallFinish].

Lemma dict_builder_mode_permanent_witness :
  exists b1 blocks1 b2 blocks2,
    @run spec_encoding small_blocks
      (@BinaryDictBuilder.new spec_encoding small_blocks) first_block_calls
    = Some (b1, blocks1) /\
    @run spec_encoding small_blocks b1 second_block_calls = Some (b2, blocks2) /\
    @run spec_encoding small_blocks
      (@BinaryDictBuilder.new spec_encoding small_blocks)
      (first_block_calls ++ second_block_calls)
    = Some (b2, blocks1 ++ blocks2) /\
    Forall (@block_ok spec_encoding) (blocks1 ++ blocks2) /\
    (mode_ b1 = 0 -> @plain_full small_blocks (dict_block_ b1) = true ->
     mode_ (@Reset spec_encoding small_blocks b1) = 1 /\
     data_builder_ (@Reset spec_encoding small_blocks b1) = PlainBuilder []) /\
    (mode_ b1 = 1 ->
     mode_ b2 = 1 /\ mode_ b2 <> 0 /\
     Forall (@plain_block spec_encoding) blocks2).
Proof.
  apply (@dict_builder_mode_permanent spec_encoding small_blocks).
  simpl. discriminate.
Defined.

Example mode_switch_run :
  option_map (fun r => (mode_ r.1, r.2))
    (@run spec_encoding small_blocks
       (@BinaryDictBuilder.new spec_encoding small_blocks)
       (first_block_calls ++ second_block_calls))
  = Some (1, [mkBlock [0; 0; 0; 0] (BShufBuilder [0; 1]);
              mkBlock [1; 0; 0; 0] (PlainBuilder ["z"; "x"]%string)]).
Proof. vm_compute. reflexivity. Qed.


End BinaryDictBuilderFacts.

Module ConsensusPeersFacts.
Import ConsensusPeers.

#[local] Instance Task_eq_dec : EqDecision Task.
Proof. solve_decision. Defined.

(** The request RPCs that a list of effects issues, and the
    [DoProcessResponse] tasks it submits. *)
Definition is_request_rpc (e : Effect) : bool :=
  match e with UpdateAsync | StartTabletCopyAsync => true | _ => false end.

Definition rpcs_issued (effs : list Effect) : nat :=
  length (filter (fun e => is_request_rpc e = true) effs).

Definition is_dpr_submit (e : Effect) : bool :=
  match e with Submit TaskDoProcessResponse => true | _ => false end.

Definition dprs_submitted (effs : list Effect) : nat :=
  length (filter (fun e => is_dpr_submit e = true) effs).

Definition count_dpr (tasks : list Task) : nat :=
  length (filter (fun t => t = TaskDoProcessResponse) tasks).

(** Request RPCs in flight plus responses waiting in the pool. *)
Definition in_progress (s : System) : nat :=
  (length (outstanding s) + count_dpr (pool s))%nat.

(** The invariant behind [request_pending_]: at most one request is in
    progress, and while one is, the flag is set. *)
Definition pending_inv (s : System) : Prop :=
  (in_progress s <= 1)%nat /\
  ((0 < in_progress s)%nat -> request_pending_ (peer s) = true).

Lemma apply_effect_counts s e :
  peer (apply_effect s e) = peer s /\
  length (outstanding (apply_effect s e)) =
    (length (outstanding s) + rpcs_issued [e])%nat /\
  count_dpr (pool (apply_effect s e)) =
    (count_dpr (pool s) + dprs_submitted [e])%nat.
Proof.
  destruct e as [[|]| | | | | | | | | |]; cbn;
    unfold count_dpr; rewrite ?filter_app, ?length_app; cbn;
    split_and!; try done; lia.
Qed.

Lemma apply_effects_counts effs : forall s,
  peer (apply_effects s effs) = peer s /\
  length (outstanding (apply_effects s effs)) =
    (length (outstanding s) + rpcs_issued effs)%nat /\
  count_dpr (pool (apply_effects s effs)) =
    (count_dpr (pool s) + dprs_submitted effs)%nat.
Proof.
  unfold apply_effects.
  induction effs as [|e effs IH]; intros s; cbn [fold_left].
  - cbn. split_and!; [done | lia | lia].
  - destruct (IH (apply_effect s e)) as (Hp & Ho & Hd).
    destruct (apply_effect_counts s e) as (Hp1 & Ho1 & Hd1).
    rewrite Hp, Ho, Hd, Hp1, Ho1, Hd1.
    change (e :: effs) with ([e] ++ effs).
    unfold rpcs_issued, dprs_submitted. rewrite !filter_app, !length_app.
    split_and!; [done | lia | lia].
Qed.

Lemma with_peer_counts s r :
  peer (with_peer s r) = r.1 /\
  length (outstanding (with_peer s r)) =
    (length (outstanding s) + rpcs_issued r.2)%nat /\
  count_dpr (pool (with_peer s r)) =
    (count_dpr (pool s) + dprs_submitted r.2)%nat.
Proof.
  exact (apply_effects_counts r.2
           (mkSystem r.1 (pool s) (outstanding s) (elections s))).
Qed.

Section Methods.
Variable kMinimumOpIdIndex : Z.

Local Abbreviation SendNextRequest := (SendNextRequest kMinimumOpIdIndex).
Local Abbreviation DoProcessResponse := (DoProcessResponse kMinimumOpIdIndex).

Local Arguments rpcs_issued : simpl never.
Local Arguments dprs_submitted : simpl never.

(** Case analysis on every test of a method body. *)
Ltac split_tests :=
  repeat (cbn;
          match goal with
          | |- context [if ?b then _ else _] => destruct b eqn:?
          | |- context [match ?o with Some _ => _ | None => _ end] =>
              destruct o eqn:?
          end);
  cbn.

(** [SendNextRequest] submits nothing, keeps [closed_], and either
    issues no request RPC and leaves the flag alone, or issues exactly
    one, from an open peer whose flag was clear, and sets the flag. *)
Lemma SendNextRequest_cases p even env :
  let r := SendNextRequest p even env in
  closed_ r.1 = closed_ p /\ dprs_submitted r.2 = 0%nat /\
  ((rpcs_issued r.2 = 0%nat /\ request_pending_ r.1 = request_pending_ p) \/
   (rpcs_issued r.2 = 1%nat /\ closed_ p = false /\
    request_pending_ p = false /\ request_pending_ r.1 = true)).
Proof.
  destruct p as [fa rp cl hs px hb ops ci ids].
  destruct env as [rfp fops fci ntc npo etc tcr].
  cbv zeta. unfold ConsensusPeers.SendNextRequest, CreateProxyIfNeeded,
    PrepareTabletCopyRequest, committed_index_or_min.
  split_tests;
    (split; [reflexivity|]; split; [reflexivity|]);
    first [left; split; reflexivity | right; split_and!; reflexivity].
Qed.

Lemma SignalRequest_cases p even submit :
  let r := SignalRequest p even submit in
  r.1.2 = p /\ rpcs_issued r.2 = 0%nat /\ dprs_submitted r.2 = 0%nat /\
  (closed_ p = true -> r = (Status.IllegalState, p, [])) /\
  (closed_ p = false -> request_pending_ p = true -> r = (Status.OK, p, [])).
Proof.
  cbv zeta. unfold SignalRequest.
  destruct (closed_ p), (request_pending_ p), (Status.ok submit); cbn;
    split_and!; try reflexivity; intros; try discriminate; reflexivity.
Qed.

Lemma ProcessResponse_closed p resp submit_ok :
  closed_ p = true -> ProcessResponse p resp submit_ok = Some (p, []).
Proof. intros Hc. unfold ProcessResponse. by rewrite Hc. Qed.

Lemma ProcessResponse_cases p resp submit_ok :
  closed_ p = false -> request_pending_ p = true ->
  exists r, ProcessResponse p resp submit_ok = Some r /\
    closed_ r.1 = false /\ rpcs_issued r.2 = 0%nat /\
    ((dprs_submitted r.2 = 0%nat /\ request_pending_ r.1 = false) \/
     (dprs_submitted r.2 = 1%nat /\ request_pending_ r.1 = true)).
Proof.
  destruct p as [fa rp cl hs px hb ops ci ids]. cbn. intros -> ->.
  destruct resp as [cok crem scp rerr].
  unfold ProcessResponse, ProcessResponseErrorUnlocked.
  split_tests; eexists; (split; [reflexivity|]);
    (split; [reflexivity|]); (split; [reflexivity|]);
    first [left; split; reflexivity | right; split; reflexivity].
Qed.

Lemma ProcessTabletCopyResponse_closed p resp :
  closed_ p = true -> ProcessTabletCopyResponse p resp = Some (p, []).
Proof. intros Hc. unfold ProcessTabletCopyResponse. by rewrite Hc. Qed.

Lemma ProcessTabletCopyResponse_cases p resp :
  closed_ p = false -> request_pending_ p = true ->
  exists r, ProcessTabletCopyResponse p resp = Some r /\
    closed_ r.1 = false /\ rpcs_issued r.2 = 0%nat /\
    dprs_submitted r.2 = 0%nat /\ request_pending_ r.1 = false.
Proof.
  destruct p as [fa rp cl hs px hb ops ci ids]. cbn. intros -> ->.
  destruct resp as [cok terr].
  unfold ProcessTabletCopyResponse.
  split_tests; eexists; split_and!; reflexivity.
Qed.

Lemma DoProcessResponse_cases p send_more env :
  request_pending_ p = true ->
  exists r, DoProcessResponse p send_more env = Some r /\
    closed_ r.1 = closed_ p /\ dprs_submitted r.2 = 0%nat /\
    ((rpcs_issued r.2 = 0%nat /\ request_pending_ r.1 = false) \/
     (rpcs_issued r.2 = 1%nat /\ request_pending_ r.1 = true)).
Proof.
  intros Hp. unfold ConsensusPeers.DoProcessResponse. rewrite Hp. cbn [negb].
  destruct send_more.
  - eexists. split; [reflexivity|].
    destruct (SendNextRequest_cases
                (set_request_pending (set_failed_attempts p 0) false) true env)
      as (Hc & Hd & [[Hr Hq]|(Hr & _ & _ & Hq)]); cbn in Hc, Hq.
    + split_and!; [done | done | left; by split].
    + split_and!; [done | done | right; by split].
  - eexists. split; [reflexivity|]. cbn. split_and!; [done | done | left; by split].
Qed.

Lemma DoProcessResponse_not_pending p send_more env :
  request_pending_ p = false -> DoProcessResponse p send_more env = None.
Proof. intros Hp. unfold ConsensusPeers.DoProcessResponse. by rewrite Hp. Qed.

Lemma Close_cases p :
  closed_ (Close p).1 = true /\
  request_pending_ (Close p).1 = request_pending_ p /\
  heartbeater_ (Close p).1 = heartbeater_ p /\
  rpcs_issued (Close p).2 = 0%nat /\ dprs_submitted (Close p).2 = 0%nat /\
  (closed_ p = true -> Close p = (p, [])) /\
  (closed_ p = false -> (Close p).2 = [UntrackPeer]).
Proof.
  unfold Close. destruct (closed_ p) eqn:Hc; cbn; split_and!; try done.
Qed.

Lemma StartElection_cases p ok :
  closed_ (StartElection p ok).1 = closed_ p /\
  request_pending_ (StartElection p ok).1 = request_pending_ p /\
  rpcs_issued (StartElection p ok).2 = 0%nat /\
  dprs_submitted (StartElection p ok).2 = 0%nat.
Proof.
  unfold StartElection, CreateProxyIfNeeded.
  destruct (proxy_ p), ok; cbn; split_and!; reflexivity.
Qed.

Lemma count_dpr_delete : forall tasks n task,
  tasks !! n = Some task ->
  count_dpr tasks =
  (count_dpr (delete n tasks)
   + (if decide (task = TaskDoProcessResponse) then 1 else 0))%nat.
Proof.
  unfold count_dpr.
  induction tasks as [|t tasks IH]; intros [|n] task Hl; try done.
  - cbn in Hl. injection Hl as ->. cbn [delete list_delete].
    rewrite filter_cons. destruct (decide _); cbn; lia.
  - cbn in Hl. change (delete (S n) (t :: tasks)) with (t :: delete n tasks).
    rewrite !filter_cons. pose proof (IH n task Hl) as IHn.
    destruct (decide (t = _)); cbn [length]; lia.
Qed.

Local Abbreviation fire := (fire kMinimumOpIdIndex).
Local Abbreviation reachable := (reachable kMinimumOpIdIndex).
Local Abbreviation reaches := (reaches kMinimumOpIdIndex).

(** Every event keeps the invariant, and no [CHECK] fails under it. *)
Lemma fire_pending_inv s ev :
  pending_inv s ->
  fire s ev <> Aborted /\ forall s', fire s ev = Next s' -> pending_inv s'.
Proof.
  unfold pending_inv, in_progress. intros [Hle Hflag].
  destruct ev as [even submit|n send_more env|n resp tc_resp submit_ok| |ok];
    cbn [ConsensusPeers.fire].
  - destruct (SignalRequest (peer s) even submit) as [[st p'] effs] eqn:Hs.
    destruct (SignalRequest_cases (peer s) even submit) as (Hp & Hr & Hd & _).
    rewrite Hs in Hp, Hr, Hd. cbn in Hp, Hr, Hd. subst p'.
    split; [done|]. intros s' [= <-].
    destruct (with_peer_counts s (peer s, effs)) as (-> & -> & ->).
    cbn [fst snd]. rewrite Hr, Hd, !Nat.add_0_r. done.
  - destruct (pool s !! n) as [task|] eqn:Hn; [|done].
    pose proof (count_dpr_delete _ _ _ Hn) as Hcount.
    set (s1 := mkSystem (peer s) (delete n (pool s)) (outstanding s) (elections s)).
    destruct task as [even|].
    + rewrite decide_False in Hcount by done.
      split; [done|]. intros s' [= <-].
      destruct (with_peer_counts s1 (SendNextRequest (peer s) even env))
        as (-> & -> & ->).
      destruct (SendNextRequest_cases (peer s) even env)
        as (_ & Hd & [[Hr Hq]|(Hr & _ & Hq & Hq')]);
        cbn [s1 pool outstanding]; rewrite Hr, Hd.
      * rewrite Hq. split; [lia|]. intros; apply Hflag; lia.
      * assert (length (outstanding s) + count_dpr (pool s) = 0)%nat.
        { destruct (decide (0 < length (outstanding s) + count_dpr (pool s))%nat)
            as [Hpos|]; [|lia].
          rewrite (Hflag Hpos) in Hq. discriminate. }
        split; [lia | done].
    + rewrite decide_True in Hcount by done.
      assert (Hpend : request_pending_ (peer s) = true) by (apply Hflag; lia).
      destruct (DoProcessResponse_cases (peer s) send_more env Hpend)
        as (r & -> & _ & Hd & Hcases).
      cbn [outcome_of]. split; [done|]. intros s' [= <-].
      destruct (with_peer_counts s1 r) as (-> & -> & ->).
      cbn [s1 pool outstanding]. rewrite Hd.
      destruct Hcases as [[Hr Hq]|[Hr Hq]]; rewrite Hr.
      * split; [lia|]. intros; lia.
      * split; [lia | done].
  - destruct (outstanding s !! n) as [rpc|] eqn:Hn; [|done].
    assert (Hlen : length (delete n (outstanding s))
                   = (length (outstanding s) - 1)%nat).
    { apply length_delete. by rewrite Hn. }
    assert (Hpos : (0 < length (outstanding s))%nat).
    { apply lookup_lt_Some in Hn. lia. }
    assert (Hpend : request_pending_ (peer s) = true) by (apply Hflag; lia).
    set (s1 := mkSystem (peer s) (pool s) (delete n (outstanding s)) (elections s)).
    destruct (closed_ (peer s)) eqn:Hclosed.
    + assert (Hsame : match rpc with
                      | RpcUpdate =>
                          outcome_of s1 (ProcessResponse (peer s) resp submit_ok)
                      | RpcTabletCopy =>
                          outcome_of s1 (ProcessTabletCopyResponse (peer s) tc_resp)
                      end = Next (with_peer s1 (peer s, []))).
      { destruct rpc;
          by rewrite ?ProcessResponse_closed, ?ProcessTabletCopyResponse_closed. }
      rewrite Hsame. split; [done|]. intros s' [= <-].
      destruct (with_peer_counts s1 (peer s, [])) as (-> & -> & ->).
      cbn [s1 pool outstanding fst snd].
      change (rpcs_issued []) with 0%nat. change (dprs_submitted []) with 0%nat.
      split; [lia|]. intros; lia.
    + destruct rpc.
      * destruct (ProcessResponse_cases (peer s) resp submit_ok Hclosed Hpend)
          as (r & -> & _ & Hr & Hcases).
        cbn [outcome_of]. split; [done|]. intros s' [= <-].
        destruct (with_peer_counts s1 r) as (-> & -> & ->).
        cbn [s1 pool outstanding]. rewrite Hr.
        destruct Hcases as [[Hd Hq]|[Hd Hq]]; rewrite Hd.
        -- split; [lia|]. intros; lia.
        -- split; [lia | done].
      * destruct (ProcessTabletCopyResponse_cases (peer s) tc_resp Hclosed Hpend)
          as (r & -> & _ & Hr & Hd & Hq).
        cbn [outcome_of]. split; [done|]. intros s' [= <-].
        destruct (with_peer_counts s1 r) as (-> & -> & ->).
        cbn [s1 pool outstanding]. rewrite Hr, Hd.
        split; [lia|]. intros; lia.
  - split; [done|]. intros s' [= <-].
    destruct (with_peer_counts s (Close (peer s))) as (-> & -> & ->).
    destruct (Close_cases (peer s)) as (_ & -> & _ & -> & -> & _).
    rewrite !Nat.add_0_r. done.
  - split; [done|]. intros s' [= <-].
    destruct (with_peer_counts s (StartElection (peer s) ok)) as (-> & -> & ->).
    destruct (StartElection_cases (peer s) ok) as (_ & -> & -> & ->).
    rewrite !Nat.add_0_r. done.
Qed.

Lemma reachable_pending_inv s : reachable s -> pending_inv s.
Proof.
  induction 1 as [ok|s ev s' _ IH Hfire].
  - split; cbn; [lia|]. unfold in_progress. cbn. lia.
  - by apply (fire_pending_inv s ev IH).
Qed.

(** No event re-opens a closed peer. *)
Lemma fire_closed s ev s' :
  closed_ (peer s) = true -> fire s ev = Next s' -> closed_ (peer s') = true.
Proof.
  intros Hc.
  destruct ev as [even submit|n send_more env|n resp tc_resp submit_ok| |ok];
    cbn [ConsensusPeers.fire].
  - destruct (SignalRequest (peer s) even submit) as [[st p'] effs] eqn:Hs.
    destruct (SignalRequest_cases (peer s) even submit) as (Hp & _).
    rewrite Hs in Hp. cbn in Hp. subst p'. intros [= <-].
    by destruct (with_peer_counts s (peer s, effs)) as (-> & _).
  - destruct (pool s !! n) as [[even|]|]; [| |done].
    + intros [= <-].
      destruct (with_peer_counts
                  (mkSystem (peer s) (delete n (pool s)) (outstanding s)
                            (elections s))
                  (SendNextRequest (peer s) even env)) as (-> & _).
      by destruct (SendNextRequest_cases (peer s) even env) as (-> & _).
    + destruct (request_pending_ (peer s)) eqn:Hp.
      * destruct (DoProcessResponse_cases (peer s) send_more env Hp)
          as (r & -> & Hcl & _).
        cbn [outcome_of]. intros [= <-].
        destruct (with_peer_counts
                    (mkSystem (peer s) (delete n (pool s)) (outstanding s)
                              (elections s)) r) as (-> & _).
        congruence.
      * by rewrite DoProcessResponse_not_pending.
  - destruct (outstanding s !! n) as [[|]|]; [| |done].
    + rewrite ProcessResponse_closed by done. cbn [outcome_of]. intros [= <-].
      by destruct (with_peer_counts
                     (mkSystem (peer s) (pool s) (delete n (outstanding s))
                               (elections s)) (peer s, [])) as (-> & _).
    + rewrite ProcessTabletCopyResponse_closed by done. cbn [outcome_of].
      intros [= <-].
      by destruct (with_peer_counts
                     (mkSystem (peer s) (pool s) (delete n (outstanding s))
                               (elections s)) (peer s, [])) as (-> & _).
  - intros [= <-].
    destruct (with_peer_counts s (Close (peer s))) as (-> & _).
    by destruct (Close_cases (peer s)) as (-> & _).
  - intros [= <-].
    destruct (with_peer_counts s (StartElection (peer s) ok)) as (-> & _).
    by destruct (StartElection_cases (peer s) ok) as (-> & _).
Qed.

Lemma reaches_closed s s' :
  reaches s s' -> closed_ (peer s) = true -> closed_ (peer s') = true.
Proof.
  induction 1 as [|s1 ev s2 _ IH Hfire]; [done|].
  intros Hc. by apply (fire_closed s1 ev s2 (IH Hc)).
Qed.

(** The flag is cleared only by the events that process a response. *)
Lemma fire_clears_pending s ev s' :
  fire s ev = Next s' ->
  request_pending_ (peer s) = true -> request_pending_ (peer s') = false ->
  processes_response s ev.
Proof.
  destruct ev as [even submit|n send_more env|n resp tc_resp submit_ok| |ok];
    cbn [ConsensusPeers.fire processes_response].
  - destruct (SignalRequest (peer s) even submit) as [[st p'] effs] eqn:Hs.
    destruct (SignalRequest_cases (peer s) even submit) as (Hp & _).
    rewrite Hs in Hp. cbn in Hp. subst p'. intros [= <-].
    destruct (with_peer_counts s (peer s, effs)) as (-> & _). cbn. congruence.
  - destruct (pool s !! n) as [[even|]|]; [| |done]; [|done].
    intros [= <-].
    destruct (with_peer_counts
                (mkSystem (peer s) (delete n (pool s)) (outstanding s)
                          (elections s))
                (SendNextRequest (peer s) even env)) as (-> & _).
    destruct (SendNextRequest_cases (peer s) even env)
      as (_ & _ & [[_ Hq]|(_ & _ & _ & Hq)]); congruence.
  - destruct (outstanding s !! n); [|done]. intros _ _ _. by eexists.
  - intros [= <-].
    destruct (with_peer_counts s (Close (peer s))) as (-> & _).
    destruct (Close_cases (peer s)) as (_ & -> & _). congruence.
  - intros [= <-].
    destruct (with_peer_counts s (StartElection (peer s) ok)) as (-> & _).
    destruct (StartElection_cases (peer s) ok) as (_ & -> & _). congruence.
Qed.

Lemma SendNextRequest_returns p even env :
  closed_ p = true \/ request_pending_ p = true ->
  SendNextRequest p even env = (p, []).
Proof.
  unfold ConsensusPeers.SendNextRequest.
  intros [->| ->]; [done|]. by destruct (closed_ p).
Qed.

(** C2, amended. On every system that a new remote peer can reach, at
    most one request RPC (the [UpdateAsync] or [StartTabletCopyAsync]
    that [SendNextRequest] issues) is outstanding, the flag is set while
    one is, and no [CHECK(request_pending_)] fails. [SignalRequest]
    returns IllegalState without submitting when the peer is closed and
    OK without submitting when a request is pending; [SendNextRequest]
    returns without any effect when [closed_] or [request_pending_] is
    set; when it issues an RPC the flag was clear and is set on return;
    and the flag goes from set to clear only in an event that processes
    a response (the RPC's callback or the [DoProcessResponse] task).
    The RunLeaderElection RPC is not bounded by the flag: whenever the
    proxy exists or can be created, [StartElection] issues one more,
    whatever is pending or outstanding, and leaves the flag and the
    request RPCs as they are. *)
Theorem at_most_one_outstanding_request :
  (forall s, reachable s ->
     (length (outstanding s) <= 1)%nat /\
     (outstanding s <> [] -> request_pending_ (peer s) = true) /\
     (forall ev, fire s ev <> Aborted)) /\
  (forall p even submit,
     closed_ p = true ->
     SignalRequest p even submit = (Status.IllegalState, p, [])) /\
  (forall p even submit,
     closed_ p = false -> request_pending_ p = true ->
     SignalRequest p even submit = (Status.OK, p, [])) /\
  (forall p even env,
     closed_ p = true \/ request_pending_ p = true ->
     SendNextRequest p even env = (p, [])) /\
  (forall p even env,
     (0 < rpcs_issued (SendNextRequest p even env).2)%nat ->
     closed_ p = false /\ request_pending_ p = false /\
     request_pending_ (SendNextRequest p even env).1 = true /\
     rpcs_issued (SendNextRequest p even env).2 = 1%nat) /\
  (forall s ev s',
     reachable s -> fire s ev = Next s' ->
     request_pending_ (peer s) = true -> request_pending_ (peer s') = false ->
     processes_response s ev) /\
  (forall s new_proxy_ok s',
     fire s (EvStartElection new_proxy_ok) = Next s' ->
     (CreateProxyIfNeeded (peer s) new_proxy_ok).1 = true ->
     elections s' = S (elections s) /\
     outstanding s' = outstanding s /\
     request_pending_ (peer s') = request_pending_ (peer s)).
Proof.
  split_and!.
  - intros s Hs. pose proof (reachable_pending_inv s Hs) as Hinv.
    split_and!.
    + destruct Hinv as [Hle _]. unfold in_progress in Hle. lia.
    + intros Hne. destruct Hinv as [_ Hflag]. apply Hflag.
      unfold in_progress. destruct (outstanding s); [done|cbn; lia].
    + intros ev. by apply (fire_pending_inv s ev).
  - intros p even submit Hc.
    by apply (SignalRequest_cases p even submit).
  - intros p even submit Hc Hp.
    by apply (SignalRequest_cases p even submit).
  - apply SendNextRequest_returns.
  - intros p even env Hpos.
    destruct (SendNextRequest_cases p even env)
      as (_ & _ & [[Hr _]|(Hr & Hc & Hq & Hq')]); [lia|done].
  - intros s ev s' _. apply fire_clears_pending.
  - intros s ok s' Hfire Hproxy. cbn [ConsensusPeers.fire] in Hfire.
    injection Hfire as <-. unfold StartElection, CreateProxyIfNeeded in *.
    destruct (proxy_ (peer s)), ok; cbn in Hproxy |- *; by try done.
Qed.

(** C7, amended. [Close] marks the peer closed and, on an open peer,
    untracks it from the queue; a second call changes nothing and has no
    effect; [Close] leaves the heartbeat timer as it is. The timer is
    stopped by the destructor, which calls [Close] first. No event
    re-opens a closed peer. *)
Theorem close_idempotent_and_terminal :
  (forall p,
     closed_ (Close p).1 = true /\
     Close (Close p).1 = ((Close p).1, []) /\
     heartbeater_ (Close p).1 = heartbeater_ p /\
     HeartbeatStop ∉ (Close p).2) /\
  (forall p, closed_ p = false -> (Close p).2 = [UntrackPeer]) /\
  (forall p running,
     heartbeater_ p = Some running ->
     closed_ (Peer_destroy p).1 = true /\
     heartbeater_ (Peer_destroy p).1 = Some false /\
     HeartbeatStop ∈ (Peer_destroy p).2) /\
  (forall s s',
     reaches s s' -> closed_ (peer s) = true -> closed_ (peer s') = true).
Proof.
  split_and!.
  - intros p. destruct (Close_cases p) as (Hc & _ & Hh & _ & _ & Hagain & _).
    split_and!; [done | by apply (Close_cases (Close p).1) | done |].
    unfold Close. destruct (closed_ p); cbn.
    + apply not_elem_of_nil.
    + intros Hin. apply list_elem_of_singleton in Hin. discriminate.
  - intros p Hc. by apply (Close_cases p).
  - intros p running Hh. unfold Peer_destroy.
    destruct (Close p) as [p1 eff] eqn:Hclose.
    destruct (Close_cases p) as (Hc & _ & Hh1 & _).
    rewrite Hclose in Hc, Hh1. cbn in Hc, Hh1. rewrite Hh1, Hh. cbn.
    split_and!; [done | done |]. apply elem_of_app. right. by apply list_elem_of_singleton.
  - apply reaches_closed.
Qed.

End Methods.

(** A peer made by [NewRemotePeer] whose proxy was created. *)
Definition fresh_system : System :=
  mkSystem (NewRemotePeer true).1 [] [] 0.

Definition heartbeat_env : SendEnv := mkSendEnv true 0 None false true true true.

(** The system after an event, or the same system when the event is not
    enabled. *)
Definition after (s : System) (ev : Event) : System :=
  match fire 0 s ev with
  | Next s' => s'
  | _ => s
  end.

Lemma after_reachable s ev : reachable 0 s -> reachable 0 (after s ev).
Proof.
  intros Hs. unfold after. destruct (fire 0 s ev) as [| |s'] eqn:Hfire.
  - exact Hs.
  - exact Hs.
  - exact (reachable_fire 0 s ev s' Hs Hfire).
Defined.

(** The heartbeat fires, the pool runs [SendNextRequest], and one
    [UpdateAsync] is outstanding. *)
Definition after_first_send : System :=
  after (after fresh_system (EvSignalRequest true Status.OK))
        (EvRunTask 0 false heartbeat_env).

Example after_first_send_value :
  outstanding after_first_send = [RpcUpdate] /\
  request_pending_ (peer after_first_send) = true.
Proof. vm_compute. done. Qed.

Lemma after_first_send_reachable : reachable 0 after_first_send.
Proof.
  apply after_reachable, after_reachable. exact (reachable_new 0 true).
Defined.

(** The callback of that RPC runs with a transport error. *)
Definition transport_error : UpdateResponse := mkUpdateResponse false false false None.
Definition no_tablet_copy : TabletCopyResponse := mkTabletCopyResponse true None.

Definition response_arrives : Event := EvRpcDone 0 transport_error no_tablet_copy true.

Definition closed_peer : Peer := (Close (peer fresh_system)).1.

Lemma at_most_one_outstanding_request_witness :
  (length (outstanding after_first_send) <= 1)%nat /\
  SignalRequest closed_peer true Status.OK
  = (Status.IllegalState, closed_peer, []) /\
  SignalRequest (peer after_first_send) true Status.OK
  = (Status.OK, peer after_first_send, []) /\
  SendNextRequest 0 (peer after_first_send) true heartbeat_env
  = (peer after_first_send, []) /\
  request_pending_ (SendNextRequest 0 (peer fresh_system) true heartbeat_env).1
  = true /\
  processes_response after_first_send response_arrives /\
  elections (after after_first_send (EvStartElection true)) = 1%nat.
Proof.
  destruct (at_most_one_outstanding_request 0)
    as (Hreach & Hclosed & Hsignal & Hsend & Hissue & Hclear & Helect).
  split_and!.
  - apply (Hreach after_first_send after_first_send_reachable).
  - apply Hclosed. reflexivity.
  - apply Hsignal; reflexivity.
  - apply Hsend. right. reflexivity.
  - apply Hissue. vm_compute. lia.
  - apply (Hclear after_first_send response_arrives
             (after after_first_send response_arrives)
             after_first_send_reachable); reflexivity.
  - apply (Helect after_first_send true
             (after after_first_send (EvStartElection true)));
      reflexivity.
Defined.

(** C2 as stated fails: RunLeaderElection is a consensus RPC as well,
    and [StartElection] issues it without looking at
    [request_pending_]. The first request has been sent and two
    elections are started; no callback has run, so one UpdateConsensus
    and two RunLeaderElection RPCs are outstanding. *)
Lemma at_most_one_consensus_rpc_counterexample :
  let s := after (after after_first_send (EvStartElection true))
                 (EvStartElection true) in
  reachable 0 s /\
  outstanding s = [RpcUpdate] /\
  elections s = 2%nat /\
  request_pending_ (peer s) = true /\
  (1 < length (outstanding s) + elections s)%nat.
Proof.
  cbv zeta. split.
  - apply after_reachable, after_reachable. exact after_first_send_reachable.
  - vm_compute. split_and!; [done|done|done|lia].
Qed.

(** C7 as stated fails: [Close] on a peer with a running heartbeat timer
    closes and untracks it, and the timer is still running. *)
Lemma close_stops_heartbeat_counterexample :
  let p := (NewRemotePeer true).1 in
  heartbeater_ p = Some true /\
  closed_ (Close p).1 = true /\
  (Close p).2 = [UntrackPeer] /\
  heartbeater_ (Close p).1 = Some true.
Proof. vm_compute. done. Qed.

(** A fresh system is closed, and then the heartbeat fires. *)
Definition closed_system : System := after fresh_system EvClose.

Definition heartbeat_fires : Event := EvSignalRequest true Status.OK.

Lemma close_idempotent_and_terminal_witness :
  let p := (NewRemotePeer true).1 in
  (Close p).2 = [UntrackPeer] /\
  heartbeater_ (Peer_destroy p).1 = Some false /\
  closed_ (peer (after closed_system heartbeat_fires)) = true.
Proof.
  cbv zeta.
  destruct (close_idempotent_and_terminal 0) as (_ & Hclose & Hdestroy & Hterm).
  split_and!.
  - apply Hclose. reflexivity.
  - apply (Hdestroy _ true). reflexivity.
  - apply (Hterm closed_system).
    + apply (reaches_fire 0 closed_system closed_system heartbeat_fires).
      * apply reaches_here.
      * reflexivity.
    + reflexivity.
Defined.

End ConsensusPeersFacts.

(* ===================================================================== *)
(** * Part III. Further code of the same files *)
(* ===================================================================== *)

(* ===================================================================== *)
(** * kudu/common/rowblock.cc : selected rows and RowBlock::Resize *)
(* ===================================================================== *)

Module RowBlockMore.
Import RowBlock RowBlockFacts.
Local Open Scope nat_scope.
Local Arguments Nat.div : simpl never.
Local Arguments Nat.modulo : simpl never.

(** Modelled from the spec: [SelectedRows] of [kudu/common/rowblock.h]
    (the header is not among the sources): either the marker that every
    row of the vector is selected, or the [vector<uint16_t>] of the
    indexes of the selected rows. *)
Inductive SelectedRows : Type :=
| AllSelected
| Indexes (indexes : list Z).

(** Modelled from the spec: [ForEachSetBit(bitmap, n_bits, func)] of
    [kudu/util/bitmap.h]: [func] is called on every set bit below
    [n_bits], in increasing order; here the calls are collected. *)
Definition ForEachSetBit (bitmap : list Z) (n_bits : nat) : list nat :=
  filter (fun bit => BitmapTest bitmap bit = true) (seq 0 n_bits).

(** [GetSelectedRowsInternal]: the set bits of the first [n_bytes]
    bytes are written through [dst]; [*dst++ = bit] stores the [int] in
    a [uint16_t], that is modulo 2^16. *)
Definition GetSelectedRowsInternal (bitmap : list Z) (n_bytes : nat) : list Z :=
  (fun bit => Z.of_nat bit mod 2 ^ 16)%Z <$> ForEachSetBit bitmap (n_bytes * 8).

(** [SelectionVector::GetSelectedRows]. Its
    [DCHECK_LE(n_rows_, std::numeric_limits<uint16_t>::max())] is the
    hypothesis [n_rows_ sv <= 65535] of the theorem about it; the
    function as such stores whatever [n_rows_] is. *)
Definition GetSelectedRows (sv : SelectionVector) : SelectedRows :=
  let n_selected := CountSelected sv in
  if n_selected =? n_rows_ sv then AllSelected
  else
    Indexes (if 0 <? n_selected
             then GetSelectedRowsInternal (bitmap_ sv) (n_bytes_ sv)
             else []).

(** The members of [RowBlock] that [RowBlock::Resize] reads or writes;
    the column arrays are allocated once for [row_capacity_] rows and
    are not touched by it. *)
Record RowBlock : Type := mkRowBlock {
  row_capacity_ : nat;
  nrows_ : nat;
  sel_vec_ : SelectionVector
}.

(** The constructor: [nrows_(row_capacity_)] and
    [sel_vec_(row_capacity_)]; [mem] is the memory that the selection
    vector's allocation returned. *)
Definition RowBlock_new (nrows_capacity : nat) (mem : list Z) : RowBlock :=
  mkRowBlock nrows_capacity nrows_capacity (SelectionVector_new nrows_capacity mem).

(** [RowBlock::Resize]; [None] is the abort of a [CHECK_LE], here or in
    [SelectionVector::Resize]. *)
Definition RowBlock_Resize (rb : RowBlock) (nrows : nat) : option RowBlock :=
  if nrows =? nrows_ rb then Some rb
  else if nrows <=? row_capacity_ rb then
    match Resize (sel_vec_ rb) nrows with
    | Some sv => Some (mkRowBlock (row_capacity_ rb) nrows sv)
    | None => None
    end
  else None.

(** The rows of [sv] that are selected. *)
Definition selected_rows (sv : SelectionVector) : list nat :=
  filter (fun i => BitmapTest (bitmap_ sv) i = true) (seq 0 (nrows sv)).

(** ** AnySelected finds every selected row *)

Lemma any_bytes_intro : forall p8 rem k b,
  k < rem -> p8 !! k = Some b -> b <> 0%Z -> any_bytes p8 rem = true.
Proof.
  induction p8 as [|b0 p8 IH]; intros rem k b Hk Hl Hnz; [done|].
  destruct rem as [|rem]; [lia|]. cbn [any_bytes].
  destruct k as [|k]; cbn in Hl.
  - injection Hl as ->. by rewrite (proj2 (Z.eqb_neq _ _) Hnz).
  - destruct (b0 =? 0)%Z; [cbn|done]. apply (IH rem k b); [lia|done|done].
Qed.

Lemma load32_zero b0 b1 b2 b3 :
  load32 b0 b1 b2 b3 = 0%Z -> b0 = 0%Z /\ b1 = 0%Z /\ b2 = 0%Z /\ b3 = 0%Z.
Proof.
  unfold load32. intros H.
  apply Z.lor_eq_0_iff in H as [H0 H].
  apply Z.lor_eq_0_iff in H as [H1 H].
  apply Z.lor_eq_0_iff in H as [H2 H3].
  apply Z.shiftl_eq_0_iff in H1; [|lia].
  apply Z.shiftl_eq_0_iff in H2; [|lia].
  apply Z.shiftl_eq_0_iff in H3; [|lia]. done.
Qed.

Lemma any_words_intro : forall fuel p rem k b,
  k < rem -> p !! k = Some b -> b <> 0%Z -> any_words fuel p rem = true.
Proof.
  induction fuel as [|fuel IH]; intros p rem k b Hk Hl Hnz; cbn [any_words].
  - by apply (any_bytes_intro p rem k b).
  - destruct (4 <=? rem) eqn:Hrem; [|by apply (any_bytes_intro p rem k b)].
    apply Nat.leb_le in Hrem.
    destruct p as [|b0 [|b1 [|b2 [|b3 p']]]];
      try (by apply (any_bytes_intro _ rem k b)).
    destruct (load32 b0 b1 b2 b3 =? 0)%Z eqn:Hw; [cbn|done].
    apply Z.eqb_eq, load32_zero in Hw as (-> & -> & -> & ->).
    destruct k as [|[|[|[|k]]]]; cbn in Hl; try (injection Hl as <-; done).
    apply (IH p' (rem - 4) k b); [lia|done|done].
Qed.

(** [AnySelected] is true exactly when some row below [nrows] is
    selected. *)
Theorem AnySelected_iff (sv : SelectionVector) :
  shape_ok sv -> padded sv ->
  (AnySelected sv = true <->
   exists i, i < nrows sv /\ BitmapTest (bitmap_ sv) i = true).
Proof.
  intros Hs Hp. split; [by apply AnySelected_row|].
  intros (i & Hi & Hbit). destruct Hs as (Hl & Hb & Hc & Hok).
  unfold AnySelected, BitmapTest in *.
  destruct (bitmap_ sv !! (i / 8)) as [b|] eqn:Hlk; [|done].
  apply (any_words_intro _ _ _ (i / 8) b); [|done|].
  - unfold nrows in Hi. rewrite Hb. unfold BitmapSize. divmod_lia.
  - intros ->. by rewrite Z.testbit_0_l in Hbit.
Qed.

Lemma AnySelected_iff_witness :
  AnySelected (SelectionVector_new 10 [0; 2]%Z) = true <->
  exists i, i < 10 /\ BitmapTest (bitmap_ (SelectionVector_new 10 [0; 2]%Z)) i = true.
Proof.
  assert (Hok : bytes_ok [0; 2]%Z) by (repeat constructor; lia).
  apply (AnySelected_iff (SelectionVector_new 10 [0; 2]%Z)).
  - apply PadExtraBitsWithZeroes_shape. by repeat split.
  - by apply PadExtraBitsWithZeroes_padded.
Defined.

(** ** CountSelected counts the selected rows *)

Lemma filter_length_ext {A} (P Q : A -> Prop)
    `{forall x, Decision (P x)} `{forall x, Decision (Q x)} (l : list A) :
  (forall x, x ∈ l -> (P x <-> Q x)) ->
  filter P l = filter Q l.
Proof.
  induction l as [|x l IH]; intros Hext; [done|].
  rewrite !filter_cons.
  assert (Hx : P x <-> Q x) by (apply Hext; left).
  rewrite IH by (intros y Hy; apply Hext; by right).
  destruct (decide (P x)), (decide (Q x)); tauto || done.
Qed.

Lemma filter_length_fmap {A B} (f : A -> B) (P : B -> Prop)
    `{forall x, Decision (P x)} (l : list A) :
  length (filter P (f <$> l)) = length (filter (fun x => P (f x)) l).
Proof.
  induction l as [|x l IH]; [done|].
  rewrite fmap_cons, !filter_cons. destruct (decide (P (f x))); cbn; lia.
Qed.

Lemma Bits_Count_exact : forall bitmap n_bytes,
  n_bytes <= length bitmap ->
  Bits_Count bitmap n_bytes =
  length (filter (fun i => BitmapTest bitmap i = true) (seq 0 (8 * n_bytes))).
Proof.
  unfold Bits_Count.
  induction bitmap as [|b bitmap IH]; intros n_bytes Hlen.
  - cbn in Hlen. replace n_bytes with 0 by lia. done.
  - destruct n_bytes as [|n_bytes]; [done|]. cbn [take foldr length] in *.
    rewrite IH by lia.
    replace (8 * S n_bytes) with (8 + 8 * n_bytes) by lia.
    rewrite seq_app, filter_app, length_app.
    assert (Hlow : popcount8 b =
      length (filter (fun i => BitmapTest (b :: bitmap) i = true) (seq 0 8))).
    { unfold popcount8. reflexivity. }
    assert (Hhigh :
      length (filter (fun i => BitmapTest bitmap i = true) (seq 0 (8 * n_bytes)))
      = length (filter (fun i => BitmapTest (b :: bitmap) i = true)
                  (seq (0 + 8) (8 * n_bytes)))).
    { replace (0 + 8) with (8 + 0) by lia.
      rewrite <- (fmap_add_seq 8 0), filter_length_fmap. f_equal.
      apply filter_length_ext. intros i _.
      replace (8 + i) with (i + 8) by lia. by rewrite BitmapTest_cons_high. }
    lia.
Qed.

(** [CountSelected] is the number of selected rows below [nrows]. *)
Theorem CountSelected_exact (sv : SelectionVector) :
  shape_ok sv -> padded sv ->
  CountSelected sv = length (selected_rows sv).
Proof.
  intros (Hl & Hb & Hc & Hok) Hp. unfold CountSelected, selected_rows, nrows.
  rewrite Bits_Count_exact by lia.
  assert (Hn : n_rows_ sv <= 8 * n_bytes_ sv).
  { rewrite Hb. unfold BitmapSize. divmod_lia. }
  replace (8 * n_bytes_ sv) with (n_rows_ sv + (8 * n_bytes_ sv - n_rows_ sv)) by lia.
  rewrite seq_app, filter_app, length_app.
  rewrite (filter_none _ (seq (0 + n_rows_ sv) _)); [cbn; lia|].
  apply Forall_forall. intros i Hi. apply list_elem_of_In, in_seq in Hi.
  rewrite Hp by lia. done.
Qed.

Lemma CountSelected_exact_witness :
  CountSelected (SelectionVector_new 10 [255; 255]%Z)
  = length (selected_rows (SelectionVector_new 10 [255; 255]%Z)).
Proof.
  assert (Hok : bytes_ok [255; 255]%Z) by (repeat constructor; lia).
  apply (CountSelected_exact (SelectionVector_new 10 [255; 255]%Z)).
  - apply PadExtraBitsWithZeroes_shape. by repeat split.
  - by apply PadExtraBitsWithZeroes_padded.
Defined.

(** ** Resize keeps the rows that stay in range *)

Lemma PadExtraBitsWithZeroes_low sv i :
  i < n_rows_ sv ->
  BitmapTest (bitmap_ (PadExtraBitsWithZeroes sv)) i = BitmapTest (bitmap_ sv) i.
Proof.
  intros Hi. unfold PadExtraBitsWithZeroes.
  destruct (0 <? n_rows_ sv mod 8); [|done]. cbn [bitmap_].
  rewrite BitmapTest_BitmapClearBits. case_bool_decide; [lia|done].
Qed.

Lemma PadExtraBitsWithZeroes_capacity sv :
  bytes_capacity_ (PadExtraBitsWithZeroes sv) = bytes_capacity_ sv /\
  n_bytes_ (PadExtraBitsWithZeroes sv) = n_bytes_ sv.
Proof. unfold PadExtraBitsWithZeroes. by destruct (0 <? _). Qed.

(** A successful [Resize] to [n] rows leaves the capacity alone and
    every row below [n] as it was in the buffer: rows that survive a
    shrink keep their selection, and rows that a growth brings into
    range show whatever the buffer held, they are not cleared. *)
Theorem Resize_keeps_rows (sv sv' : SelectionVector) (n : nat) :
  Resize sv n = Some sv' ->
  nrows sv' = n /\
  bytes_capacity_ sv' = bytes_capacity_ sv /\
  forall i, i < n ->
    BitmapTest (bitmap_ sv') i = BitmapTest (bitmap_ sv) i.
Proof.
  unfold Resize, nrows. destruct (n =? n_rows_ sv) eqn:Heq.
  - apply Nat.eqb_eq in Heq. intros [= <-]. done.
  - destruct (BitmapSize n <=? bytes_capacity_ sv); [|done].
    intros [= <-]. rewrite PadExtraBitsWithZeroes_nrows.
    split_and!; [done | by rewrite (proj1 (PadExtraBitsWithZeroes_capacity _)) |].
    intros i Hi. by rewrite PadExtraBitsWithZeroes_low.
Qed.

(** A vector of three rows on a buffer of all ones, grown to 16 rows
    within its two bytes of capacity: row 12 shows the stale bit. *)
Definition grown_vector : SelectionVector :=
  mkSelectionVector 2 16 2 [7; 255]%Z.

Lemma Resize_keeps_rows_witness :
  nrows grown_vector = 16 /\
  bytes_capacity_ grown_vector = 2 /\
  BitmapTest (bitmap_ grown_vector) 12 = true.
Proof.
  destruct (Resize_keeps_rows (mkSelectionVector 2 3 1 [7; 255]%Z)
              grown_vector 16 eq_refl) as (Hn & Hc & Hrows).
  split_and!; [exact Hn | exact Hc |].
  rewrite (Hrows 12); [reflexivity | lia].
Defined.

(** ** GetSelectedRows *)

Lemma filter_Forall_id {A} (P : A -> Prop) `{forall x, Decision (P x)} (l : list A) :
  Forall P l -> filter P l = l.
Proof.
  induction 1 as [|x l Hx _ IH]; [done|].
  by rewrite filter_cons_True, IH.
Qed.

Lemma filter_seq_all (P : nat -> Prop) `{forall k, Decision (P k)} n :
  length (filter P (seq 0 n)) = n <-> forall i, i < n -> P i.
Proof.
  split.
  - intros Hlen i Hi. destruct (decide (P i)) as [|Hno]; [done|].
    assert (Hin : i ∈ seq 0 n) by (apply list_elem_of_In, in_seq; lia).
    pose proof (length_filter_lt P (seq 0 n) i Hin Hno) as Hlt.
    rewrite length_seq in Hlt. lia.
  - intros Hall. rewrite filter_Forall_id; [by rewrite length_seq|].
    apply Forall_forall. intros i Hi. apply list_elem_of_In, in_seq in Hi.
    apply Hall. lia.
Qed.

Lemma ForEachSetBit_rows sv :
  shape_ok sv -> padded sv ->
  ForEachSetBit (bitmap_ sv) (n_bytes_ sv * 8) = selected_rows sv.
Proof.
  intros (Hl & Hb & Hc & Hok) Hp.
  unfold ForEachSetBit, selected_rows, nrows.
  assert (Hn : n_rows_ sv <= n_bytes_ sv * 8).
  { rewrite Hb. unfold BitmapSize. divmod_lia. }
  replace (n_bytes_ sv * 8) with (n_rows_ sv + (n_bytes_ sv * 8 - n_rows_ sv)) by lia.
  rewrite seq_app, filter_app.
  rewrite (filter_none _ (seq (0 + n_rows_ sv) _)); [by rewrite app_nil_r|].
  apply Forall_forall. intros i Hi. apply list_elem_of_In, in_seq in Hi.
  rewrite Hp by lia. done.
Qed.

(** The call count that [CountSelected] passes on is the number of
    selected rows. *)
Lemma CountSelected_rows sv :
  shape_ok sv -> padded sv -> CountSelected sv = length (selected_rows sv).
Proof.
  intros Hs Hp. rewrite <- (ForEachSetBit_rows sv Hs Hp).
  destruct Hs as (Hl & Hb & Hc & Hok).
  unfold CountSelected, ForEachSetBit. rewrite Bits_Count_exact by lia.
  by rewrite (Nat.mul_comm 8).
Qed.

(** With at most 65535 rows, the indexes written through [uint16_t] are
    the row numbers themselves. *)
Lemma GetSelectedRowsInternal_rows sv :
  shape_ok sv -> padded sv -> (Z.of_nat (n_rows_ sv) <= 65535)%Z ->
  GetSelectedRowsInternal (bitmap_ sv) (n_bytes_ sv)
  = Z.of_nat <$> selected_rows sv.
Proof.
  intros Hs Hp Hmax. unfold GetSelectedRowsInternal.
  rewrite (ForEachSetBit_rows sv Hs Hp).
  apply Forall_fmap_ext, Forall_forall. intros i Hi.
  apply list_elem_of_filter in Hi as [_ Hi].
  apply list_elem_of_In, in_seq in Hi. unfold nrows in Hi.
  apply Z.mod_small. change (2 ^ 16)%Z with 65536%Z. lia.
Qed.

(** For a vector of at most 65535 rows, the bound that [GetSelectedRows]
    asserts: it answers with the all-selected marker exactly when every
    row below [nrows] is selected, and otherwise with the indexes of the
    selected rows, in increasing order, without the padding bits and
    none of them wrapped by its 16-bit type. *)
Theorem GetSelectedRows_spec (sv : SelectionVector) :
  shape_ok sv -> padded sv -> (Z.of_nat (n_rows_ sv) <= 65535)%Z ->
  ((forall i, i < nrows sv -> BitmapTest (bitmap_ sv) i = true) ->
   GetSelectedRows sv = AllSelected) /\
  ((exists i, i < nrows sv /\ BitmapTest (bitmap_ sv) i = false) ->
   GetSelectedRows sv = Indexes (Z.of_nat <$> selected_rows sv)).
Proof.
  intros Hs Hp Hmax. unfold GetSelectedRows.
  rewrite (CountSelected_rows sv Hs Hp).
  pose proof (filter_seq_all (fun i => BitmapTest (bitmap_ sv) i = true)
                (nrows sv)) as Hall.
  fold (selected_rows sv) in Hall. split.
  - intros Hevery. apply Hall in Hevery.
    change (nrows sv) with (n_rows_ sv) in Hevery.
    by rewrite (proj2 (Nat.eqb_eq _ _) Hevery).
  - intros (i & Hi & Hoff).
    assert (Hne : length (selected_rows sv) <> n_rows_ sv).
    { intros Heq. change (n_rows_ sv) with (nrows sv) in Heq.
      rewrite (proj1 Hall Heq i Hi) in Hoff. done. }
    rewrite (proj2 (Nat.eqb_neq _ _) Hne). f_equal.
    destruct (0 <? length (selected_rows sv)) eqn:Hpos.
    + by apply GetSelectedRowsInternal_rows.
    + apply Nat.ltb_ge in Hpos. destruct (selected_rows sv); [done|cbn in Hpos; lia].
Qed.

Lemma GetSelectedRows_spec_witness :
  GetSelectedRows (SelectionVector_new 10 [255; 255]%Z) = AllSelected /\
  GetSelectedRows (SelectionVector_new 10 [5; 255]%Z)
  = Indexes (Z.of_nat <$> selected_rows (SelectionVector_new 10 [5; 255]%Z)).
Proof.
  assert (Hok1 : bytes_ok [255; 255]%Z) by (repeat constructor; lia).
  assert (Hok2 : bytes_ok [5; 255]%Z) by (repeat constructor; lia).
  split.
  - refine (proj1 (GetSelectedRows_spec (SelectionVector_new 10 [255; 255]%Z)
                     _ _ _) _).
    + apply PadExtraBitsWithZeroes_shape. by repeat split.
    + by apply PadExtraBitsWithZeroes_padded.
    + vm_compute. discriminate.
    + intros i Hi. do 10 (destruct i as [|i]; [reflexivity|]).
      vm_compute in Hi. lia.
  - refine (proj2 (GetSelectedRows_spec (SelectionVector_new 10 [5; 255]%Z)
                     _ _ _) _).
    + apply PadExtraBitsWithZeroes_shape. by repeat split.
    + by apply PadExtraBitsWithZeroes_padded.
    + vm_compute. discriminate.
    + exists 1. split; [vm_compute; lia | reflexivity].
Defined.

Example GetSelectedRows_run :
  GetSelectedRows (SelectionVector_new 10 [5; 255]%Z) = Indexes [0; 2; 8; 9]%Z.
Proof. vm_compute. reflexivity. Qed.

(** ** RowBlock::Resize *)

(** The row block and its selection vector agree on the number of rows,
    which is within the capacity that both were allocated for. *)
Definition rowblock_ok (rb : RowBlock) : Prop :=
  nrows_ rb = nrows (sel_vec_ rb) /\
  nrows_ rb <= row_capacity_ rb /\
  bytes_capacity_ (sel_vec_ rb) = BitmapSize (row_capacity_ rb) /\
  shape_ok (sel_vec_ rb) /\ padded (sel_vec_ rb).

Lemma RowBlock_new_ok capacity mem :
  0 < capacity -> length mem = BitmapSize capacity -> bytes_ok mem ->
  rowblock_ok (RowBlock_new capacity mem).
Proof.
  intros Hc Hlen Hok. unfold rowblock_ok, RowBlock_new, SelectionVector_new, nrows.
  cbn [nrows_ row_capacity_ sel_vec_].
  rewrite PadExtraBitsWithZeroes_nrows, (proj1 (PadExtraBitsWithZeroes_capacity _)).
  split_and!; try done.
  - apply PadExtraBitsWithZeroes_shape. by repeat split.
  - by apply PadExtraBitsWithZeroes_padded.
Qed.

(** On a well-formed row block, [Resize] to a row count within the
    capacity never aborts (nor does the selection vector's own check),
    leaves the block well formed with the block and the vector both at
    the new row count; a row count above the capacity aborts. *)
Theorem RowBlock_Resize_in_capacity (rb : RowBlock) (n : nat) :
  rowblock_ok rb ->
  (n <= row_capacity_ rb ->
   exists rb', RowBlock_Resize rb n = Some rb' /\
     rowblock_ok rb' /\ nrows_ rb' = n /\ nrows (sel_vec_ rb') = n /\
     row_capacity_ rb' = row_capacity_ rb) /\
  (row_capacity_ rb < n -> RowBlock_Resize rb n = None).
Proof.
  intros (Hn & Hcap & Hbytes & Hs & Hp). unfold RowBlock_Resize. split.
  - intros Hle. destruct (n =? nrows_ rb) eqn:Heq.
    + apply Nat.eqb_eq in Heq. exists rb.
      split; [done|].
      split; [exact (conj Hn (conj Hcap (conj Hbytes (conj Hs Hp))))|].
      split; [done|].
      split; [congruence | done].
    + rewrite (proj2 (Nat.leb_le _ _) Hle).
      apply Nat.eqb_neq in Heq. unfold Resize.
      rewrite (proj2 (Nat.eqb_neq n (n_rows_ (sel_vec_ rb)))) by (unfold nrows in Hn; lia).
      assert (Hfit : BitmapSize n <= bytes_capacity_ (sel_vec_ rb)).
      { rewrite Hbytes. unfold BitmapSize. divmod_lia. }
      rewrite (proj2 (Nat.leb_le _ _) Hfit).
      eexists. split; [reflexivity|].
      unfold rowblock_ok, nrows. cbn [nrows_ row_capacity_ sel_vec_].
      rewrite PadExtraBitsWithZeroes_nrows,
        (proj1 (PadExtraBitsWithZeroes_capacity _)). cbn.
      destruct Hs as (Hl & Hb & Hc & Hok).
      split_and!; try done.
      * apply PadExtraBitsWithZeroes_shape. by repeat split.
      * by apply PadExtraBitsWithZeroes_padded.
  - intros Hgt.
    rewrite (proj2 (Nat.eqb_neq _ _)) by lia.
    by rewrite (proj2 (Nat.leb_gt _ _) Hgt).
Qed.

Lemma RowBlock_Resize_in_capacity_witness :
  (exists rb', RowBlock_Resize (RowBlock_new 10 [255; 255]%Z) 3 = Some rb' /\
     nrows_ rb' = 3 /\ nrows (sel_vec_ rb') = 3) /\
  RowBlock_Resize (RowBlock_new 10 [255; 255]%Z) 11 = None.
Proof.
  assert (Hok : rowblock_ok (RowBlock_new 10 [255; 255]%Z)).
  { apply RowBlock_new_ok; [lia | reflexivity | repeat constructor; lia]. }
  destruct (RowBlock_Resize_in_capacity _ 3 Hok) as [Hin _].
  destruct (RowBlock_Resize_in_capacity _ 11 Hok) as [_ Hout].
  split.
  - destruct (Hin ltac:(cbn; lia)) as (rb' & Hr & _ & Hn & Hv & _).
    exists rb'. by split_and!.
  - apply Hout. cbn. lia.
Defined.

End RowBlockMore.

(* ===================================================================== *)
(** * kudu/tablet/tablet_replica_mm_ops.cc : score ranges *)
(* ===================================================================== *)

Module MmOpsMore.
Import MmOps.

Lemma SFltb_SFleb (a b : double) : SFltb a b = true -> SFleb a b = true.
Proof.
  unfold SFltb, SFleb. by destruct (SFcompare a b) as [[| |]|].
Qed.

(** [std::max(1.0, x)] is at least 1.0 and [std::min(1.0, x)] is at most
    1.0, whatever [x] is, a NaN included. *)
Lemma std_max_one_ge (x : double) : dge (std_max one x) one = true.
Proof.
  unfold dge, std_max. destruct (SFltb one x) eqn:Hlt.
  - by apply SFltb_SFleb.
  - reflexivity.
Qed.

Lemma std_min_one_le (x : double) : dge one (std_min one x) = true.
Proof.
  unfold dge, std_min. destruct (SFltb x one) eqn:Hlt.
  - by apply SFltb_SFleb.
  - reflexivity.
Qed.

(** Whatever the flags, the anchored bytes and the elapsed time are: a
    flush whose anchored memory has reached the threshold gets a score
    of at least 1.0, and a flush that only qualifies by age gets a score
    of at most 1.0; neither score is a NaN. So a flush over the size
    threshold never ranks below one that is only old. *)
Theorem flush_score_ranges
    (threshold_mb_flag upper_bound_ms_flag threshold_secs_flag : Z)
    (stats : MaintenanceOpStats) (E : double) :
  let A := anchored_mb stats in
  let T := double_of_Z threshold_mb_flag in
  let limit := time_threshold_ms threshold_secs_flag in
  let score := perf_improvement_
                 (SetPerfImprovementForFlush threshold_mb_flag
                    upper_bound_ms_flag threshold_secs_flag stats E) in
  (dge A T = true -> dge score one = true) /\
  (dge A T = false -> dgt E limit = true -> dge one score = true).
Proof.
  cbv zeta. unfold SetPerfImprovementForFlush, threshold_mb. split.
  - intros ->. cbn. apply std_max_one_ge.
  - intros -> ->. cbn. apply std_min_one_le.
Qed.

(** With the default flags: 3 GiB anchored, and 512 MiB anchored for
    two hours (the score is capped at 1.0). *)
Lemma flush_score_ranges_witness :
  let z := double_of_Z 0 in
  dge (perf_improvement_
         (SetPerfImprovementForFlush 1024 3600000 120
            (mkStats true (3 * 1024 * 1024 * 1024) 0 z z) z)) one = true /\
  dge one
      (perf_improvement_
         (SetPerfImprovementForFlush 1024 3600000 120
            (mkStats true (512 * 1024 * 1024) 0 z z) (double_of_Z 7200000)))
  = true.
Proof.
  cbv zeta. split.
  - apply (proj1 (flush_score_ranges 1024 3600000 120 _ _)). reflexivity.
  - apply (proj2 (flush_score_ranges 1024 3600000 120 _ _)); reflexivity.
Defined.

End MmOpsMore.

(* ===================================================================== *)
(** * kudu/fs/dir_manager.cc : failed set, gauges, directory maps *)
(* ===================================================================== *)

Module DirManagerMore.
Import DirManager DirManagerFacts.

(** ** MarkDirFailed on a healthy directory *)

(** The uuid indexes of [dm]: [0 .. dirs_.size() - 1]. *)
Definition all_indexes (dm : t) : gset Z :=
  list_to_set (seqZ 0 (Z.of_nat (length (dirs_ dm)))).

Lemma size_all_indexes dm : size (all_indexes dm) = length (dirs_ dm).
Proof.
  unfold all_indexes. rewrite size_list_to_set by apply NoDup_seqZ.
  rewrite length_seqZ. lia.
Qed.

Lemma elem_of_all_indexes dm i :
  i ∈ all_indexes dm <-> 0 <= i < Z.of_nat (length (dirs_ dm)).
Proof.
  unfold all_indexes. rewrite elem_of_list_to_set, elem_of_seqZ. lia.
Qed.

(** When a directory that was healthy is marked failed, it is reported
    failed afterwards, the failed set stays within the valid indexes,
    and the status is OK exactly when some directory is still healthy:
    the IOError means that no healthy directory is left. *)
Theorem MarkDirFailed_ok_iff_healthy_left (dm : t) (idx : Z) :
  failed_dirs_ dm ⊆ all_indexes dm ->
  0 <= idx < Z.of_nat (length (dirs_ dm)) ->
  idx ∉ failed_dirs_ dm ->
  let r := MarkDirFailed dm idx in
  IsDirFailed r.2 idx = true /\
  failed_dirs_ r.2 ⊆ all_indexes r.2 /\
  (Status.ok r.1 = true <->
   exists j, 0 <= j < Z.of_nat (length (dirs_ dm)) /\ IsDirFailed r.2 j = false).
Proof.
  intros Hsub Hidx Hnew r.
  assert (Hsub' : {[idx]} ∪ failed_dirs_ dm ⊆ all_indexes dm).
  { apply union_subseteq. split; [|done].
    apply singleton_subseteq_l. by apply elem_of_all_indexes. }
  assert (Hr : failed_dirs_ r.2 = {[idx]} ∪ failed_dirs_ dm /\ dirs_ r.2 = dirs_ dm).
  { subst r. destruct (decide (S (size (failed_dirs_ dm)) = length (dirs_ dm))).
    - by rewrite MarkDirFailed_last.
    - by rewrite MarkDirFailed_some_left. }
  destruct Hr as [Hf Hd]. split_and!.
  - unfold IsDirFailed. rewrite Hf. apply bool_decide_eq_true_2.
    apply elem_of_union. left. by apply elem_of_singleton.
  - unfold all_indexes. rewrite Hf, Hd. exact Hsub'.
  - pose proof (size_all_indexes dm) as Hall.
    pose proof (subseteq_size _ _ Hsub') as Hle.
    rewrite size_insert_new in Hle by done.
    split.
    + intros Hok.
      assert (Hlt : S (size (failed_dirs_ dm)) <> length (dirs_ dm)).
      { intros Heq. subst r. rewrite MarkDirFailed_last in Hok by done. done. }
      pose proof (size_difference _ _ Hsub') as Hdiff.
      rewrite size_insert_new, Hall in Hdiff by done.
      destruct (size_pos_elem_of
                  (all_indexes dm ∖ ({[idx]} ∪ failed_dirs_ dm)) ltac:(lia))
        as (j & Hj).
      apply elem_of_difference in Hj as [Hj Hjn].
      exists j. split; [by apply elem_of_all_indexes|].
      unfold IsDirFailed. rewrite Hf. by apply bool_decide_eq_false_2.
    + intros (j & Hj & Hjn). unfold IsDirFailed in Hjn. rewrite Hf in Hjn.
      apply bool_decide_eq_false_1 in Hjn.
      assert (Hlt : S (size (failed_dirs_ dm)) <> length (dirs_ dm)).
      { intros Heq.
        assert (Heqv : {[idx]} ∪ failed_dirs_ dm ≡ all_indexes dm).
        { apply set_subseteq_size_equiv; [done|].
          rewrite size_insert_new by done. lia. }
        apply Hjn. apply Heqv. by apply elem_of_all_indexes. }
      subst r. by rewrite MarkDirFailed_some_left.
Qed.

Lemma MarkDirFailed_ok_iff_healthy_left_witness :
  let dm := mk ["/data/0"; "/data/1"; "/data/2"]%string {[0]} (Some 1) [] in
  IsDirFailed (MarkDirFailed dm 1).2 1 = true /\
  failed_dirs_ (MarkDirFailed dm 1).2 ⊆ all_indexes (MarkDirFailed dm 1).2 /\
  (Status.ok (MarkDirFailed dm 1).1 = true <->
   exists j, 0 <= j < 3 /\ IsDirFailed (MarkDirFailed dm 1).2 j = false).
Proof.
  apply (MarkDirFailed_ok_iff_healthy_left
           (mk ["/data/0"; "/data/1"; "/data/2"]%string {[0]} (Some 1) []) 1).
  - cbn [failed_dirs_]. apply singleton_subseteq_l.
    apply elem_of_all_indexes. cbn. lia.
  - cbn. lia.
  - cbn [failed_dirs_]. intros H. apply elem_of_singleton in H. discriminate H.
Defined.

(** ** The dirs_full gauge follows is_full_ *)

(** One call of [RefreshAvailableSpace] with what the clock and the disk
    answered. *)
Record RefreshCall : Type := mkRefreshCall {
  call_mode : RefreshMode;
  call_now_check : MonoTime;
  call_verify : Status.t * Z;
  call_now_update : MonoTime
}.

(** A sequence of calls on one directory, whatever their statuses. *)
Definition refresh_all (ENOSPC ttl : Z) (d : Dir) (calls : list RefreshCall) : Dir :=
  fold_left
    (fun d c =>
       (RefreshAvailableSpace ENOSPC ttl d (call_mode c) (call_now_check c)
          (call_verify c) (call_now_update c)).2)
    calls d.

Definition full_count (d : Dir) : Z := if is_full_ d then 1 else 0.

Lemma repoll_gauge ENOSPC d verify now g :
  dirs_full d = Some g ->
  dirs_full (repoll ENOSPC d verify now).2
  = Some (g + full_count (repoll ENOSPC d verify now).2 - full_count d).
Proof.
  intros Hg. unfold repoll, full_count. destruct verify as [s0 avail].
  destruct (Status.IsIOError s0 && (Status.posix_code s0 =? ENOSPC)); cbn.
  - rewrite Hg. destruct (is_full_ d); cbn; f_equal; lia.
  - destruct (Status.ok s0); cbn.
    + rewrite Hg. destruct (is_full_ d); cbn; f_equal; lia.
    + rewrite Hg. f_equal. lia.
Qed.

Lemma RefreshAvailableSpace_gauge ENOSPC ttl d mode now_check verify now_update g :
  dirs_full d = Some g ->
  let d' := (RefreshAvailableSpace ENOSPC ttl d mode now_check verify now_update).2 in
  dirs_full d' = Some (g + full_count d' - full_count d).
Proof.
  intros Hg. cbv zeta. unfold RefreshAvailableSpace.
  destruct mode; [destruct (now_check <? _)|]; try by apply repoll_gauge.
  cbn. rewrite Hg. f_equal. lia.
Qed.

(** Over any sequence of refreshes of a directory with metrics, the
    [dirs_full] gauge has moved by exactly the change of [is_full_]: it
    is raised once when the directory becomes full and lowered once when
    it stops being full, never twice. *)
Theorem dirs_full_tracks_is_full (ENOSPC ttl : Z) (calls : list RefreshCall)
    (d : Dir) (g : Z) :
  dirs_full d = Some g ->
  dirs_full (refresh_all ENOSPC ttl d calls)
  = Some (g + full_count (refresh_all ENOSPC ttl d calls) - full_count d).
Proof.
  unfold refresh_all. revert d g.
  induction calls as [|c calls IH]; intros d g Hg; cbn [fold_left].
  - rewrite Hg. f_equal. lia.
  - pose proof (RefreshAvailableSpace_gauge ENOSPC ttl d (call_mode c)
                  (call_now_check c) (call_verify c) (call_now_update c) g Hg)
      as Hstep. cbv zeta in Hstep.
    rewrite (IH _ _ Hstep). f_equal. lia.
Qed.

(** A directory becomes full (ENOSPC, errno 28), is polled again while
    full, and is found with space again. *)
Lemma dirs_full_tracks_is_full_witness :
  let d := mkDir false 4096 0 (Some 3) in
  let calls :=
    [mkRefreshCall ALWAYS 1 (Status.IOError 28, 0) 2;
     mkRefreshCall ALWAYS 3 (Status.IOError 28, 0) 4;
     mkRefreshCall ALWAYS 5 (Status.OK, 8192) 6] in
  dirs_full (refresh_all 28 10 d calls) = Some 3 /\
  dirs_full (refresh_all 28 10 d (take 2 calls)) = Some 4.
Proof.
  cbv zeta. split.
  - rewrite (dirs_full_tracks_is_full 28 10 _ (mkDir false 4096 0 (Some 3)) 3
               eq_refl). reflexivity.
  - rewrite (dirs_full_tracks_is_full 28 10 _ (mkDir false 4096 0 (Some 3)) 3
               eq_refl). reflexivity.
Defined.

(** ** The directory maps *)

(** What [InsertToMaps] reads of a [Dir]: the uuid and the health of its
    instance file, and its path. *)
Record DirInfo : Type := mkDirInfo {
  dir_uuid : string;
  dir_healthy : bool;
  dir_path : string
}.

(** The lookup maps of [DirManager] with its failed set and the
    [dirs_failed] gauge. A [Dir*] is represented by the position of the
    directory in the vector that owns it. *)
Record Maps : Type := mkMaps {
  m_failed_dirs_ : gset Z;
  uuid_by_root_ : gmap string string;
  uuid_by_idx_ : gmap Z string;
  idx_by_uuid_ : gmap string Z;
  dir_by_uuid_idx_ : gmap Z nat;
  uuid_idx_by_dir_ : gmap nat Z;
  tablets_by_uuid_idx_map_ : gmap Z (gset string);
  m_dirs_failed : option Z
}.

Definition empty_maps (gauge : option Z) : Maps :=
  mkMaps ∅ ∅ ∅ ∅ ∅ ∅ ∅ gauge.

(** [InsertOrDie] of [gutil/map-util.h] on a map and on a set; [None] is
    the abort on a key that is already there. *)
Definition map_InsertOrDie {K V} `{Countable K} (m : gmap K V) (k : K) (v : V)
  : option (gmap K V) :=
  match m !! k with
  | Some _ => None
  | None => Some (<[k := v]> m)
  end.

Definition set_InsertOrDie (s : gset Z) (v : Z) : option (gset Z) :=
  if bool_decide (v ∈ s) then None else Some ({[v]} ∪ s).

Section Maps.

(** [DirName] of [kudu/util/path_util.h], which is not among the
    sources. *)
Variable DirName : string -> string.

(** [DirManager::InsertToMaps]. *)
Definition InsertToMaps (uuid : string) (idx : Z) (dir : nat) (info : DirInfo)
    (m : Maps) : option Maps :=
  let gauge :=
    if negb (dir_healthy info)
    then match m_dirs_failed m with Some g => Some (g + 1) | None => None end
    else m_dirs_failed m in
  failed ← (if negb (dir_healthy info)
            then set_InsertOrDie (m_failed_dirs_ m) idx
            else Some (m_failed_dirs_ m));
  by_root ← map_InsertOrDie (uuid_by_root_ m) (DirName (dir_path info)) uuid;
  by_idx ← map_InsertOrDie (uuid_by_idx_ m) idx uuid;
  by_uuid ← map_InsertOrDie (idx_by_uuid_ m) uuid idx;
  dir_by_idx ← map_InsertOrDie (dir_by_uuid_idx_ m) idx dir;
  idx_by_dir ← map_InsertOrDie (uuid_idx_by_dir_ m) dir idx;
  tablets ← map_InsertOrDie (tablets_by_uuid_idx_map_ m) idx ∅;
  Some (mkMaps failed by_root by_idx by_uuid dir_by_idx idx_by_dir tablets gauge).

(** The loop of [PopulateDirectoryMaps], from index [idx] on. *)
Fixpoint populate_from (idx : nat) (dirs : list DirInfo) (m : Maps)
  : option Maps :=
  match dirs with
  | [] => Some m
  | info :: rest =>
      m' ← InsertToMaps (dir_uuid info) (Z.of_nat idx) idx info m;
      populate_from (S idx) rest m'
  end.

(** [DirManager::PopulateDirectoryMaps]; it returns OK unless an
    [InsertOrDie] aborts ([None]). *)
Definition PopulateDirectoryMaps (dirs : list DirInfo) (m : Maps) : option Maps :=
  populate_from 0 dirs m.

(** [FindUuidIndexByUuid], [FindUuidByRoot], [FindUuidIndexByRoot],
    [FindDirByUuidIndex], [FindUuidIndexByDir] and [IsDirFailed]. *)
Definition FindUuidIndexByUuid (m : Maps) (uuid : string) : option Z :=
  idx_by_uuid_ m !! uuid.

Definition FindUuidByRoot (m : Maps) (root : string) : option string :=
  uuid_by_root_ m !! root.

Definition FindUuidIndexByRoot (m : Maps) (root : string) : option Z :=
  match FindUuidByRoot m root with
  | Some uuid => FindUuidIndexByUuid m uuid
  | None => None
  end.

Definition FindDirByUuidIndex (m : Maps) (uuid_idx : Z) : option nat :=
  dir_by_uuid_idx_ m !! uuid_idx.

Definition FindUuidIndexByDir (m : Maps) (dir : nat) : option Z :=
  uuid_idx_by_dir_ m !! dir.

Definition maps_IsDirFailed (m : Maps) (uuid_idx : Z) : bool :=
  bool_decide (uuid_idx ∈ m_failed_dirs_ m).

(** [DirManager::MarkDirFailedByUuid]: [None] is the abort of the
    [CHECK] on an unknown uuid; the status of [MarkDirFailed] is only
    logged. *)
Definition MarkDirFailedByUuid (m : Maps) (dm : t) (uuid : string) : option t :=
  match FindUuidIndexByUuid m uuid with
  | Some uuid_idx => Some (MarkDirFailed dm uuid_idx).2
  | None => None
  end.

(** What the maps hold once the directories [pre] have been entered. *)
Definition maps_of (pre : list DirInfo) (m : Maps) : Prop :=
  NoDup (dir_uuid <$> pre) /\
  (forall u idx,
     idx_by_uuid_ m !! u = Some idx <->
     exists i info, idx = Z.of_nat i /\ pre !! i = Some info /\ dir_uuid info = u) /\
  (forall i info,
     pre !! i = Some info ->
     uuid_by_idx_ m !! Z.of_nat i = Some (dir_uuid info) /\
     uuid_by_root_ m !! DirName (dir_path info) = Some (dir_uuid info) /\
     dir_by_uuid_idx_ m !! Z.of_nat i = Some i /\
     uuid_idx_by_dir_ m !! i = Some (Z.of_nat i) /\
     (Z.of_nat i ∈ m_failed_dirs_ m <-> dir_healthy info = false)) /\
  (forall idx, idx ∈ m_failed_dirs_ m -> 0 <= idx < Z.of_nat (length pre)).

Lemma map_InsertOrDie_Some {K V} `{Countable K} (m m' : gmap K V) k v :
  map_InsertOrDie m k v = Some m' -> m !! k = None /\ m' = <[k := v]> m.
Proof.
  unfold map_InsertOrDie. destruct (m !! k); [done|]. by intros [= <-].
Qed.

Lemma InsertToMaps_Some uuid idx dir info m m1 :
  InsertToMaps uuid idx dir info m = Some m1 ->
  (uuid_by_root_ m !! DirName (dir_path info) = None /\
   uuid_by_idx_ m !! idx = None /\ idx_by_uuid_ m !! uuid = None /\
   dir_by_uuid_idx_ m !! idx = None /\ uuid_idx_by_dir_ m !! dir = None) /\
  (uuid_by_root_ m1 = <[DirName (dir_path info) := uuid]> (uuid_by_root_ m) /\
   uuid_by_idx_ m1 = <[idx := uuid]> (uuid_by_idx_ m) /\
   idx_by_uuid_ m1 = <[uuid := idx]> (idx_by_uuid_ m) /\
   dir_by_uuid_idx_ m1 = <[idx := dir]> (dir_by_uuid_idx_ m) /\
   uuid_idx_by_dir_ m1 = <[dir := idx]> (uuid_idx_by_dir_ m)) /\
  (m_failed_dirs_ m1 =
     if dir_healthy info then m_failed_dirs_ m else {[idx]} ∪ m_failed_dirs_ m) /\
  (m_dirs_failed m1 =
     if dir_healthy info then m_dirs_failed m
     else match m_dirs_failed m with Some g => Some (g + 1) | None => None end).
Proof.
  unfold InsertToMaps. intros Hm.
  apply bind_Some in Hm as (failed & Hf & Hm).
  apply bind_Some in Hm as (r & Hr & Hm).
  apply bind_Some in Hm as (bi & Hbi & Hm).
  apply bind_Some in Hm as (bu & Hbu & Hm).
  apply bind_Some in Hm as (di & Hdi & Hm).
  apply bind_Some in Hm as (id & Hid & Hm).
  apply bind_Some in Hm as (tb & _ & Hm).
  injection Hm as <-. cbn.
  apply map_InsertOrDie_Some in Hr as [? ->], Hbi as [? ->], Hbu as [? ->],
    Hdi as [? ->], Hid as [? ->].
  split_and!; try done.
  - destruct (dir_healthy info); cbn in Hf; [by injection Hf|].
    unfold set_InsertOrDie in Hf. destruct (bool_decide _); [done|by injection Hf].
  - by destruct (dir_healthy info).
Qed.

Lemma InsertToMaps_step pre info m m1 :
  maps_of pre m ->
  InsertToMaps (dir_uuid info) (Z.of_nat (length pre)) (length pre) info m
  = Some m1 ->
  maps_of (pre ++ [info]) m1.
Proof.
  intros (Hnd & Huuid & Hpre & Hrange) Hins.
  apply InsertToMaps_Some in Hins
    as ((Hroot & Hidx & Hu & Hdir & Hback) &
        (Er & Ei & Eu & Ed & Eb) & Ef & _).
  assert (Hfresh : forall i info', pre !! i = Some info' ->
            dir_uuid info' <> dir_uuid info /\
            DirName (dir_path info') <> DirName (dir_path info) /\
            i <> length pre).
  { intros i info' Hi. split_and!.
    - intros Heq. assert (Hsome : idx_by_uuid_ m !! dir_uuid info = Some (Z.of_nat i)).
      { apply Huuid. by exists i, info'. }
      congruence.
    - intros Heq. destruct (Hpre i info' Hi) as (_ & Hr' & _). congruence.
    - apply lookup_lt_Some in Hi. lia. }
  unfold maps_of. split_and!.
  - rewrite fmap_app. apply NoDup_app. split_and!; [done| |apply NoDup_singleton].
    intros u Hin Hin'. apply list_elem_of_singleton in Hin'. subst u.
    apply list_elem_of_fmap in Hin as (info' & Heq & Hin).
    apply list_elem_of_lookup in Hin as (i & Hi).
    destruct (Hfresh i info' Hi) as (Hne & _). congruence.
  - intros u idx. rewrite Eu. split.
    + intros Hl. destruct (decide (dir_uuid info = u)) as [<-|Hne].
      * rewrite lookup_insert_eq in Hl. injection Hl as <-.
        exists (length pre), info. split_and!; [done| |done].
        by rewrite list_lookup_middle.
      * rewrite lookup_insert_ne in Hl by done.
        apply Huuid in Hl as (i & info' & -> & Hi & Hu').
        exists i, info'. split_and!; [done| |done]. by apply lookup_app_l_Some.
    + intros (i & info' & -> & Hi & Hu').
      apply lookup_snoc_Some in Hi as [[Hlt Hi]|[-> ->]].
      * destruct (Hfresh i info' Hi) as (Hne & _).
        rewrite lookup_insert_ne by congruence. apply Huuid. by exists i, info'.
      * subst u. by rewrite lookup_insert_eq.
  - intros i info' Hi. rewrite Er, Ei, Ed, Eb, Ef.
    apply lookup_snoc_Some in Hi as [[Hlt Hi]|[-> ->]].
    + destruct (Hfresh i info' Hi) as (Hne & Hroot' & Hi').
      destruct (Hpre i info' Hi) as (H1 & H2 & H3 & H4 & H5).
      rewrite !lookup_insert_ne by (congruence || lia).
      split_and!; try done.
      rewrite <- H5. destruct (dir_healthy info); [done|].
      rewrite elem_of_union, elem_of_singleton. split; [|by right].
      intros [Heq|]; [lia|done].
    + rewrite !lookup_insert_eq. split_and!; try done.
      destruct (dir_healthy info') eqn:Hh.
      * split; [|done]. intros Hin. apply Hrange in Hin. lia.
      * split; [done|]. intros _. apply elem_of_union. left.
        by apply elem_of_singleton.
  - intros idx. rewrite Ef, length_app. cbn.
    destruct (dir_healthy info).
    + intros Hin. apply Hrange in Hin. lia.
    + rewrite elem_of_union, elem_of_singleton. intros [->|Hin]; [lia|].
      apply Hrange in Hin. lia.
Qed.

Lemma populate_from_maps_of : forall rest pre m m',
  maps_of pre m ->
  populate_from (length pre) rest m = Some m' ->
  maps_of (pre ++ rest) m'.
Proof.
  induction rest as [|info rest IH]; intros pre m m' Hm Hrun; cbn in Hrun.
  - injection Hrun as <-. by rewrite app_nil_r.
  - destruct (InsertToMaps _ _ _ _ _) as [m1|] eqn:Hins; [|done]. cbn in Hrun.
    pose proof (InsertToMaps_step pre info m m1 Hm Hins) as Hm1.
    replace (pre ++ info :: rest) with ((pre ++ [info]) ++ rest)
      by (by rewrite <- app_assoc).
    apply (IH (pre ++ [info]) m1 m' Hm1).
    rewrite length_app. cbn. by replace (length pre + 1)%nat with (S (length pre)) by lia.
Qed.

Lemma empty_maps_of gauge : maps_of [] (empty_maps gauge).
Proof.
  unfold maps_of, empty_maps. cbn. split_and!.
  - apply NoDup_nil_2.
  - intros u idx. rewrite lookup_empty. split; [done|].
    intros (i & info & _ & Hi & _). done.
  - intros i info Hi. done.
  - intros idx Hin. by apply not_elem_of_empty in Hin.
Qed.

(** When [PopulateDirectoryMaps] completes on empty maps, the uuids of
    the directories are pairwise distinct; a uuid is found at an index
    exactly when the directory at that index has this uuid; every
    directory is found by its index, by its root and by its pointer; and
    the failed set holds exactly the indexes of the directories whose
    instance is not healthy. *)
Theorem PopulateDirectoryMaps_lookups (dirs : list DirInfo) (gauge : option Z)
    (m : Maps) :
  PopulateDirectoryMaps dirs (empty_maps gauge) = Some m ->
  NoDup (dir_uuid <$> dirs) /\
  (forall u idx,
     FindUuidIndexByUuid m u = Some idx <->
     exists i info, idx = Z.of_nat i /\ dirs !! i = Some info /\ dir_uuid info = u) /\
  (forall i info,
     dirs !! i = Some info ->
     FindUuidIndexByUuid m (dir_uuid info) = Some (Z.of_nat i) /\
     FindUuidIndexByRoot m (DirName (dir_path info)) = Some (Z.of_nat i) /\
     FindDirByUuidIndex m (Z.of_nat i) = Some i /\
     FindUuidIndexByDir m i = Some (Z.of_nat i) /\
     maps_IsDirFailed m (Z.of_nat i) = negb (dir_healthy info)).
Proof.
  intros Hrun.
  pose proof (populate_from_maps_of dirs [] _ m (empty_maps_of gauge) Hrun)
    as (Hnd & Huuid & Hpre & _).
  cbn [app] in *. split_and!; [done | done |].
  intros i info Hi. destruct (Hpre i info Hi) as (H1 & H2 & H3 & H4 & H5).
  assert (Hfind : FindUuidIndexByUuid m (dir_uuid info) = Some (Z.of_nat i)).
  { apply Huuid. by exists i, info. }
  unfold FindUuidIndexByRoot, FindUuidByRoot, FindDirByUuidIndex,
    FindUuidIndexByDir, maps_IsDirFailed.
  rewrite H2. split_and!; try done.
  destruct (dir_healthy info); cbn.
  - apply bool_decide_eq_false_2. intros Hin. apply H5 in Hin. done.
  - apply bool_decide_eq_true_2. by apply H5.
Qed.

End Maps.

(** Two directories, the second with an unhealthy instance; the root of
    a directory is taken to be its path. *)
Definition two_dirs : list DirInfo :=
  [mkDirInfo "uuid-a" true "/data/0"; mkDirInfo "uuid-b" false "/data/1"].

Definition two_dirs_maps : Maps :=
  default (empty_maps (Some 0))
    (PopulateDirectoryMaps id two_dirs (empty_maps (Some 0))).

Lemma PopulateDirectoryMaps_lookups_witness :
  FindUuidIndexByUuid two_dirs_maps "uuid-b" = Some 1 /\
  FindUuidIndexByRoot two_dirs_maps "/data/1" = Some 1 /\
  maps_IsDirFailed two_dirs_maps 1 = true /\
  maps_IsDirFailed two_dirs_maps 0 = false.
Proof.
  assert (Hrun : PopulateDirectoryMaps id two_dirs (empty_maps (Some 0))
                 = Some two_dirs_maps) by (vm_compute; reflexivity).
  destruct (PopulateDirectoryMaps_lookups id two_dirs (Some 0) two_dirs_maps Hrun)
    as (_ & _ & Hdirs).
  destruct (Hdirs 1%nat (mkDirInfo "uuid-b" false "/data/1") eq_refl)
    as (H1 & H2 & _ & _ & H5).
  destruct (Hdirs 0%nat (mkDirInfo "uuid-a" true "/data/0") eq_refl)
    as (_ & _ & _ & _ & H0).
  split_and!; [exact H1 | exact H2 | exact H5 | exact H0].
Defined.

Example PopulateDirectoryMaps_duplicate_uuid :
  PopulateDirectoryMaps id
    [mkDirInfo "uuid-a" true "/data/0"; mkDirInfo "uuid-a" true "/data/1"]
    (empty_maps None) = None.
Proof. vm_compute. reflexivity. Qed.

End DirManagerMore.

(* ===================================================================== *)
(** * binary_dict_block.cc : from the builder to the decoder *)
(* ===================================================================== *)

Module BinaryDictHeader.
Import Cfile.

(** A bit of a byte-sized field shifted into place. *)
Lemma testbit_byte_field v sh n :
  0 <= sh -> 0 <= n ->
  Z.testbit (Z.shiftl (Z.land (Z.shiftr v sh) 255) sh) n =
  (sh <=? n) && (n <? sh + 8) && Z.testbit v n.
Proof.
  intros Hsh Hn. rewrite Z.shiftl_spec by done.
  destruct (Z.leb_spec sh n) as [Hle|Hlt].
  - rewrite Z.land_spec, Z.shiftr_spec by lia.
    change 255 with (Z.ones 8). rewrite Z.testbit_ones_nonneg by lia.
    replace (n - sh + sh) with n by lia.
    destruct (Z.ltb_spec (n - sh) 8), (Z.ltb_spec n (sh + 8)); try lia;
      cbn; by rewrite ?andb_true_r, ?andb_false_r.
  - by rewrite Z.testbit_neg_r by lia.
Qed.

(** [DecodeFixed32] reads back what [InlineEncodeFixed32] wrote, as an
    unsigned 32-bit value, whatever follows the four bytes. *)
Lemma DecodeFixed32_EncodeFixed32 v rest :
  DecodeFixed32 (EncodeFixed32 v ++ rest) = v mod 2 ^ 32.
Proof.
  unfold DecodeFixed32, EncodeFixed32. cbn [app nth].
  rewrite <- (Z.land_ones v 32) by lia.
  replace (Z.land v 255) with (Z.shiftl (Z.land (Z.shiftr v 0) 255) 0)
    by (by rewrite Z.shiftl_0_r, Z.shiftr_0_r).
  apply Z.bits_inj'. intros n Hn.
  rewrite !Z.lor_spec, !testbit_byte_field, Z.land_spec by lia.
  rewrite Z.testbit_ones_nonneg by lia.
  destruct (Z.testbit v n); [|by rewrite !andb_false_r].
  rewrite !andb_true_r, andb_true_l.
  destruct (Z.ltb_spec n 32), (Z.leb_spec 0 n), (Z.ltb_spec n (0 + 8)),
    (Z.leb_spec 8 n), (Z.ltb_spec n (8 + 8)), (Z.leb_spec 16 n),
    (Z.ltb_spec n (16 + 8)), (Z.leb_spec 24 n), (Z.ltb_spec n (24 + 8));
    try lia; reflexivity.
Qed.

Lemma wrap_int32_mod v :
  - 2 ^ 31 <= v < 2 ^ 31 -> wrap_int32 (v mod 2 ^ 32) = v.
Proof.
  intros Hv. unfold wrap_int32.
  rewrite Z.add_mod_idemp_l by lia. rewrite Z.mod_small by lia. lia.
Qed.

Section RoundTrip.
Import BinaryDictBuilder BinaryDictBuilderFacts.
Context `{DictEncoding} `{BinaryDictDecoder.SubDecoders}.

(** The header that [Finish] writes is read back by the decoder: for a
    builder whose data builder matches its mode, with the two modes
    distinct values of a 32-bit [int] inside the limits of the enum,
    [ParseHeader] on the header bytes followed by any payload bytes
    [sub] never fails on the header itself: it restores the builder's
    mode, hands [sub] to the block decoder of the kind of the builder's
    payload, and returns that decoder's status; the block is parsed
    exactly when that status is OK. *)
Theorem Finish_ParseHeader (b : t) (sub : list Z)
    (dict : BinaryDictDecoder.PlainBlockDecoder) (m0 : Z) :
  kCodeWordMode <> kPlainBinaryMode ->
  DictEncodingMode_min <= kCodeWordMode <= DictEncodingMode_max ->
  DictEncodingMode_min <= kPlainBinaryMode <= DictEncodingMode_max ->
  - 2 ^ 31 <= kCodeWordMode < 2 ^ 31 ->
  - 2 ^ 31 <= kPlainBinaryMode < 2 ^ 31 ->
  consistent b ->
  let blk := (Finish b).1 in
  let d := BinaryDictDecoder.new (header blk ++ sub) dict m0 in
  let r := BinaryDictDecoder.ParseHeader d in
  let sub_r := BinaryDictDecoder.data_ParseHeader (mode_ b =? kCodeWordMode) sub in
  BinaryDictDecoder.mode_ r.2 = mode_ b /\
  BinaryDictDecoder.data_decoder_ r.2 = Some sub_r.2 /\
  r.1 = (if Status.ok sub_r.1 then Status.OK else sub_r.1) /\
  BinaryDictDecoder.parsed_ r.2 = Status.ok sub_r.1 /\
  match payload blk, sub_r.2 with
  | BShufBuilder _, BinaryDictDecoder.BShuf _ => True
  | PlainBuilder _, BinaryDictDecoder.Plain _ => True
  | _, _ => False
  end.
Proof.
  intros Hne Hcw Hpl Hcw32 Hpl32 Hc blk d r sub_r.
  assert (Hmode : mode_ b = kCodeWordMode \/ mode_ b = kPlainBinaryMode).
  { destruct Hc as [[? _]|[? _]]; [by left|by right]. }
  assert (Hcast : BinaryDictDecoder.tight_enum_test_cast
                    (wrap_int32 (DecodeFixed32 (header blk ++ sub)))
                  = Some (mode_ b)).
  { subst blk. cbn [Finish fst header].
    rewrite DecodeFixed32_EncodeFixed32.
    rewrite wrap_int32_mod by (destruct Hmode as [->| ->]; done).
    unfold BinaryDictDecoder.tight_enum_test_cast.
    destruct Hmode as [-> | ->].
    - by rewrite (proj2 (Z.leb_le _ _) (proj1 Hcw)),
                 (proj2 (Z.leb_le _ _) (proj2 Hcw)).
    - by rewrite (proj2 (Z.leb_le _ _) (proj1 Hpl)),
                 (proj2 (Z.leb_le _ _) (proj2 Hpl)). }
  assert (Hr : r = (if Status.ok sub_r.1 then Status.OK else sub_r.1,
                    BinaryDictDecoder.mk (header blk ++ sub) (Status.ok sub_r.1)
                      dict (Some sub_r.2) (mode_ b))).
  { subst r. unfold BinaryDictDecoder.ParseHeader.
    subst d. cbn [BinaryDictDecoder.new BinaryDictDecoder.data_
                  BinaryDictDecoder.parsed_ BinaryDictDecoder.dict_decoder_
                  BinaryDictDecoder.data_decoder_].
    rewrite Hcast.
    replace (Nat.ltb (length (header blk ++ sub)) kMinHeaderSize) with false
      by (symmetry; apply Nat.ltb_ge; subst blk; cbn; unfold kMinHeaderSize; lia).
    replace (drop 4 (header blk ++ sub)) with sub by (by subst blk).
    subst sub_r. destruct Hmode as [Hm|Hm]; rewrite Hm.
    - rewrite Z.eqb_refl.
      destruct (BinaryDictDecoder.data_ParseHeader true sub) as [s dd].
      cbn [fst snd]. by destruct (Status.ok s).
    - rewrite (proj2 (Z.eqb_neq _ _) (not_eq_sym Hne)), Z.eqb_refl. cbn [negb].
      destruct (BinaryDictDecoder.data_ParseHeader false sub) as [s dd].
      cbn [fst snd]. by destruct (Status.ok s). }
  rewrite Hr. cbn [fst snd BinaryDictDecoder.mode_ BinaryDictDecoder.data_decoder_
                   BinaryDictDecoder.parsed_].
  split_and!; try done.
  subst blk sub_r. cbn [Finish fst payload].
  unfold BinaryDictDecoder.data_ParseHeader.
  destruct Hc as [[Hm [cws Hd]]|[Hm [strs Hd]]]; rewrite Hd, Hm.
  - rewrite Z.eqb_refl. by destruct (BinaryDictDecoder.bshuf_ParseHeader sub).
  - rewrite (proj2 (Z.eqb_neq _ _) (not_eq_sym Hne)).
    by destruct (BinaryDictDecoder.plain_ParseHeader sub).
Qed.

End RoundTrip.

(** A new builder, in codeword mode, finishes an empty block; the decoder
    reads the header followed by two payload bytes. *)
Lemma Finish_ParseHeader_witness :
  let b := @BinaryDictBuilder.new BinaryDictBuilderFacts.spec_encoding
             BinaryDictBuilderFacts.small_blocks in
  let blk := (BinaryDictBuilder.Finish b).1 in
  let r := @BinaryDictDecoder.ParseHeader BinaryDictBuilderFacts.spec_encoding
             BinaryDictDecoderFacts.empty_sub_decoders
             (BinaryDictDecoder.new (BinaryDictBuilder.header blk ++ [9; 9])
                (BinaryDictDecoder.mkPlain [] 0) 7) in
  BinaryDictDecoder.mode_ r.2 = 0 /\ r.1 = Status.OK /\
  BinaryDictDecoder.parsed_ r.2 = true.
Proof.
  cbv zeta.
  pose proof (@Finish_ParseHeader BinaryDictBuilderFacts.spec_encoding
                BinaryDictDecoderFacts.empty_sub_decoders
                (@BinaryDictBuilder.new BinaryDictBuilderFacts.spec_encoding
                   BinaryDictBuilderFacts.small_blocks)
                [9; 9] (BinaryDictDecoder.mkPlain [] 0) 7) as Hrt.
  cbv zeta in Hrt.
  destruct Hrt as (Hmode & _ & Hstatus & Hparsed & _).
  - cbn. discriminate.
  - cbn. lia.
  - cbn. lia.
  - cbn. lia.
  - cbn. lia.
  - left. split; [reflexivity|]. eexists. reflexivity.
  - split_and!; [exact Hmode | exact Hstatus | exact Hparsed].
Defined.

End BinaryDictHeader.

(* ===================================================================== *)
(** * binary_dict_block.cc : reading the values of a block *)
(* ===================================================================== *)

Module BinaryDictDecoderMore.
Import Cfile BinaryDictDecoder.

(** Modelled from the spec: [BShufBlockDecoder<UINT32>::CopyNextValuesToArray]
    and [BinaryPlainBlockDecoder::CopyNextValues] ([bshuf_block.h] and
    [binary_plain_block.cc] are not among the sources) materialise up to
    [n] values from the current position on and advance the position by
    the count returned in [*n]. *)
Definition bshuf_CopyNextValuesToArray (d : BShufBlockDecoder) (n : nat)
  : nat * list Z * BShufBlockDecoder :=
  let vals := take n (drop (Z.to_nat (bshuf_cur_idx d)) (bshuf_elems d)) in
  (length vals, vals,
   mkBShuf (bshuf_elems d) (bshuf_cur_idx d + Z.of_nat (length vals))).

Definition plain_CopyNextValues (d : PlainBlockDecoder) (n : nat)
  : nat * list Slice * PlainBlockDecoder :=
  let vals := take n (drop (Z.to_nat (plain_cur_idx d)) (plain_elems d)) in
  (length vals, vals,
   mkPlain (plain_elems d) (plain_cur_idx d + Z.of_nat (length vals))).

(** [BinaryPlainBlockDecoder::string_at_index]; [None] is an index
    outside the block. *)
Definition string_at_index (d : PlainBlockDecoder) (idx : Z) : option Slice :=
  if idx <? 0 then None else plain_elems d !! Z.to_nat idx.

(** [BinaryDictBlockDecoder::CopyNextDecodeStrings]: the status, [*n],
    the cells written to [dst] and the decoder afterwards. [None] when
    the data decoder is not the bit-shuffle one or a codeword lies
    outside the dictionary. *)
Definition CopyNextDecodeStrings (d : t) (n : nat)
  : option (Status.t * nat * list Slice * t) :=
  match data_decoder_ d with
  | Some (BShuf d_bptr) =>
      let '(n', codeword_buf, d_bptr') := bshuf_CopyNextValuesToArray d_bptr n in
      out ← mapM (string_at_index (dict_decoder_ d)) codeword_buf;
      Some (Status.OK, n', out,
            mk (data_ d) (parsed_ d) (dict_decoder_ d) (Some (BShuf d_bptr'))
               (mode_ d))
  | _ => None
  end.

(** [BinaryDictBlockDecoder::CopyNextValues]; in plain mode the data
    decoder has to be the plain one. *)
Definition CopyNextValues `{DictEncoding} (d : t) (n : nat)
  : option (Status.t * nat * list Slice * t) :=
  if mode_ d =? kCodeWordMode then CopyNextDecodeStrings d n
  else
    match data_decoder_ d with
    | Some (Plain pd) =>
        let '(n', out, pd') := plain_CopyNextValues pd n in
        Some (Status.OK, n', out,
              mk (data_ d) (parsed_ d) (dict_decoder_ d) (Some (Plain pd'))
                 (mode_ d))
    | _ => None
    end.

End BinaryDictDecoderMore.

Module BinaryDictRoundTrip.
Import Cfile BinaryDictBuilder BinaryDictBuilderFacts.

(** [BinaryDictBlockBuilder::GetFirstKey]; [plain_GetFirstKey] is
    [BinaryPlainBlockBuilder::GetFirstKey], which is not among the
    sources. [None] is a failed assertion: [DCHECK(finished_)] in
    codeword mode, [DCHECK_EQ(mode_, kPlainBinaryMode)] otherwise. *)
Definition GetFirstKey `{DictEncoding}
    (plain_GetFirstKey : DataBuilder -> Status.t * option Slice) (b : t)
  : option (Status.t * option Slice) :=
  if mode_ b =? kCodeWordMode then
    if finished_ b then Some (Status.OK, Some (first_key_ b)) else None
  else if mode_ b =? kPlainBinaryMode
       then Some (plain_GetFirstKey (data_builder_ b))
       else None.

Section Dictionary.
Context `{DictEncoding} `{BlockLimits}.

(** The dictionary maps every string of the dictionary block to its
    position there, and nothing else; positions fit a [uint32_t]. *)
Definition dict_inv (b : t) : Prop :=
  Z.of_nat (length (dict_block_ b)) <= 2 ^ 32 /\
  forall s c, dictionary_ b !! s = Some c <->
              exists i, c = Z.of_nat i /\ dict_block_ b !! i = Some s.

(** Every codeword of a list is held by the dictionary [m]. *)
Definition codes_in (m : gmap string Z) (cws : list Z) : Prop :=
  Forall (fun c => exists s, m !! s = Some c) cws.

Definition builder_codes_in (m : gmap string Z) (d : DataBuilder) : Prop :=
  match d with
  | BShufBuilder cws => codes_in m cws
  | PlainBuilder _ => True
  end.

(** In codeword mode the first key is the string whose codeword opens
    the data block. *)
Definition first_key_inv (b : t) : Prop :=
  mode_ b = kCodeWordMode ->
  forall c cws, data_builder_ b = BShufBuilder (c :: cws) ->
                dictionary_ b !! first_key_ b = Some c.

Definition builder_inv (b : t) : Prop :=
  dict_inv b /\ builder_codes_in (dictionary_ b) (data_builder_ b).

(** One state of the builder followed by a later one: the dictionary
    block grows at its end and the dictionary keeps its entries. *)
Definition grows (b b' : t) : Prop :=
  dict_block_ b `prefix_of` dict_block_ b' /\ dictionary_ b ⊆ dictionary_ b'.

Lemma grows_refl b : grows b b.
Proof. by split. Qed.

Lemma grows_trans b1 b2 b3 : grows b1 b2 -> grows b2 b3 -> grows b1 b3.
Proof. intros [? ?] [? ?]. split; by etrans. Qed.

Lemma codes_in_weaken m m' cws : m ⊆ m' -> codes_in m cws -> codes_in m' cws.
Proof.
  intros Hsub Hc. eapply Forall_impl; [exact Hc|]. intros c [s Hs]. exists s.
  by eapply lookup_weaken.
Qed.

Lemma builder_codes_in_weaken m m' d :
  m ⊆ m' -> builder_codes_in m d -> builder_codes_in m' d.
Proof. destruct d; [apply codes_in_weaken|done]. Qed.

(** The dictionary block reports full before its positions leave the
    range of a [uint32_t] codeword. *)
Hypothesis dict_block_bounded :
  forall strs, 2 ^ 32 <= Z.of_nat (length strs) -> plain_full strs = true.

Lemma AddToDict_inv b v cw b1 :
  dict_inv b -> dictionary_ b !! v = None ->
  AddToDict b v = Some (Some cw, b1) ->
  dict_inv b1 /\ grows b b1 /\ dictionary_ b1 !! v = Some cw /\
  data_builder_ b1 = data_builder_ b /\ mode_ b1 = mode_ b /\
  first_key_ b1 = first_key_ b.
Proof.
  intros [Hlen Hdict] Hnew Hadd.
  destruct (plain_full (dict_block_ b)) eqn:Hfull.
  { by rewrite AddToDict_full in Hadd. }
  rewrite AddToDict_room in Hadd by done. injection Hadd as <- <-.
  assert (Hroom : Z.of_nat (length (dict_block_ b)) < 2 ^ 32).
  { destruct (Z.lt_ge_cases (Z.of_nat (length (dict_block_ b))) (2 ^ 32))
      as [|Hge]; [done|].
    apply dict_block_bounded in Hge. congruence. }
  assert (Hcw : wrap_uint32 (Z.of_nat (length (dict_block_ b ++ [v])) - 1)
                = Z.of_nat (length (dict_block_ b))).
  { rewrite length_app. cbn [length]. unfold wrap_uint32.
    rewrite Z.mod_small; lia. }
  rewrite Hcw. cbn. split_and!; try done.
  - split; cbn.
    + rewrite length_app. cbn [length]. lia.
    + intros s c. split.
      * intros Hl. destruct (decide (v = s)) as [<-|Hne].
        -- rewrite lookup_insert_eq in Hl. injection Hl as <-.
           exists (length (dict_block_ b)). split; [done|].
           by rewrite list_lookup_middle.
        -- rewrite lookup_insert_ne in Hl by done.
           apply Hdict in Hl as (i & -> & Hi).
           exists i. split; [done|]. by apply lookup_app_l_Some.
      * intros (i & -> & Hi).
        apply lookup_snoc_Some in Hi as [[Hlt Hi]|[-> ->]].
        -- assert (Hs : dictionary_ b !! s = Some (Z.of_nat i)).
           { apply Hdict. by exists i. }
           rewrite lookup_insert_ne by congruence. done.
        -- by rewrite lookup_insert_eq.
  - split; cbn; [by apply prefix_app_r | by apply insert_subseteq].
  - by rewrite lookup_insert_eq.
Qed.

Lemma AddCodeWords_loop_inv : forall src b i k b',
  builder_inv b ->
  AddCodeWords_loop b src i = Some (k, b') ->
  builder_inv b' /\ grows b b' /\ first_key_ b' = first_key_ b.
Proof.
  induction src as [|v rest IH]; intros b i k b' Hinv Hrun.
  { cbn in Hrun. injection Hrun as <- <-. split_and!; [done|apply grows_refl|done]. }
  assert (Happend : forall b1 cw,
    builder_inv b1 -> dictionary_ b1 !! v = Some cw ->
    match data_builder_ b1 with
    | BShufBuilder cws0 =>
        let '(n, cws') := bshuf_Add1 cws0 cw in
        if Nat.eqb n 0 then Some (i, b1)
        else AddCodeWords_loop (set_data_builder b1 (BShufBuilder cws'))
                               rest (S i)
    | PlainBuilder _ => None
    end = Some (k, b') ->
    builder_inv b' /\ grows b1 b' /\ first_key_ b' = first_key_ b1).
  { intros b1 cw [Hd1 Hc1] Hcw Hstep.
    destruct (data_builder_ b1) as [cws0|] eqn:Hdata; [|done].
    unfold bshuf_Add1 in Hstep.
    destruct (bshuf_full cws0); cbn in Hstep.
    - injection Hstep as <- <-.
      split_and!; [|apply grows_refl|done]. split; [done|by rewrite Hdata].
    - apply IH in Hstep; [done|]. split; [done|]. cbn.
      apply Forall_app. split; [done|]. constructor; [by exists v|done]. }
  cbn [AddCodeWords_loop] in Hrun. unfold FindCopy in Hrun.
  destruct (dictionary_ b !! v) as [cw|] eqn:Hfind.
  - by apply (Happend b cw).
  - destruct (AddToDict b v) as [[[cw|] b1]|] eqn:Hadd; [| |done].
    + destruct Hinv as [Hd Hc].
      destruct (AddToDict_inv b v cw b1 Hd Hfind Hadd)
        as (Hd1 & Hg & Hcw & Hdata & _ & Hfk).
      destruct (Happend b1 cw) as (Hinv' & Hg' & Hfk'); [|done|done|].
      * split; [done|]. rewrite Hdata.
        by eapply builder_codes_in_weaken; [apply Hg|].
      * split_and!; [done|by eapply grows_trans|congruence].
    + unfold AddToDict in Hadd. cbn [plain_Add] in Hadd.
      destruct (plain_full (dict_block_ b)); cbn in Hadd.
      * injection Hadd as <-. injection Hrun as <- <-.
        split_and!; [done|apply grows_refl|done].
      * unfold InsertOrDie in Hadd. by destruct (dictionary_ b !! v).
Qed.

Lemma Add_inv b vals n b' :
  builder_inv b -> Add b vals = Some (n, b') ->
  builder_inv b' /\ grows b b'.
Proof.
  intros Hinv Hadd. unfold Add in Hadd.
  destruct (mode_ b =? kCodeWordMode).
  - unfold AddCodeWords in Hadd.
    set (b0 := match vals with [] => b | _ => _ end) in Hadd.
    assert (Hsame : dict_block_ b0 = dict_block_ b /\
                    dictionary_ b0 = dictionary_ b /\
                    data_builder_ b0 = data_builder_ b).
    { subst b0. destruct vals; [done|]. by destruct (Nat.eqb _ _). }
    destruct Hsame as (Hblock & Hmap & Hdata).
    assert (Hinv0 : builder_inv b0).
    { destruct Hinv as [[Hlen Hdict] Hc].
      unfold builder_inv, dict_inv. by rewrite Hblock, Hmap, Hdata. }
    destruct (AddCodeWords_loop_inv vals b0 0%nat n b' Hinv0 Hadd)
      as (Hinv' & Hg & _).
    split; [done|]. unfold grows in *. by rewrite <- Hblock, <- Hmap.
  - destruct (data_builder_ b) as [|strs] eqn:Hdata; [done|].
    destruct (plain_Add strs vals) as [m strs']. injection Hadd as <- <-.
    split; [|by split]. by destruct Hinv.
Qed.

Lemma Reset_inv b : builder_inv b -> builder_inv (Reset b) /\ grows b (Reset b).
Proof.
  intros [Hd Hc]. unfold Reset.
  destruct (_ && _); (split; [|by split]); split; try done; cbn.
  destruct (data_builder_ b); cbn; [constructor|done].
Qed.

Definition block_codes_in (m : gmap string Z) (blk : Block) : Prop :=
  builder_codes_in m (payload blk).

Lemma run_inv : forall calls b b' blocks,
  builder_inv b -> run b calls = Some (b', blocks) ->
  builder_inv b' /\ grows b b' /\
  Forall (block_codes_in (dictionary_ b')) blocks.
Proof.
  induction calls as [|c rest IH]; intros b b' blocks Hinv Hrun; cbn [run] in Hrun.
  { injection Hrun as <- <-. split_and!; [done|apply grows_refl|done]. }
  destruct (call b c) as [[b1 blocks1]|] eqn:Hcall; [|done].
  destruct (run b1 rest) as [[b2 blocks2]|] eqn:Hrest; [|done].
  injection Hrun as <- <-.
  assert (Hstep : builder_inv b1 /\ grows b b1 /\
                  Forall (block_codes_in (dictionary_ b1)) blocks1).
  { destruct c as [vals| |]; cbn [call] in Hcall.
    - destruct (Add b vals) as [[n bn]|] eqn:Hadd; [|done].
      injection Hcall as <- <-.
      destruct (Add_inv b vals n bn Hinv Hadd). by split_and!.
    - injection Hcall as <- <-. destruct Hinv as [Hd Hc].
      split_and!; [done|by split|]. by constructor.
    - injection Hcall as <- <-. destruct (Reset_inv b Hinv). by split_and!. }
  destruct Hstep as (Hinv1 & Hg1 & Hb1).
  destruct (IH b1 b2 blocks2 Hinv1 Hrest) as (Hinv2 & Hg2 & Hb2).
  split_and!; [done|by eapply grows_trans|].
  apply Forall_app. split; [|done].
  eapply Forall_impl; [exact Hb1|]. intros blk.
  apply builder_codes_in_weaken, Hg2.
Qed.

Lemma new_inv : builder_inv BinaryDictBuilder.new.
Proof.
  apply Reset_inv. split; cbn; [|constructor]. split; cbn; [lia|].
  intros s c. rewrite lookup_empty. split; [done|]. by intros (i & _ & Hi).
Qed.

Lemma dict_inv_NoDup b : dict_inv b -> NoDup (dict_block_ b).
Proof.
  intros [_ Hdict]. apply NoDup_alt. intros i j s Hi Hj.
  assert (Hci : dictionary_ b !! s = Some (Z.of_nat i)) by (apply Hdict; eauto).
  assert (Hcj : dictionary_ b !! s = Some (Z.of_nat j)) by (apply Hdict; eauto).
  rewrite Hci in Hcj. injection Hcj. lia.
Qed.

Lemma dict_inv_lookup b s c :
  dict_inv b ->
  dictionary_ b !! s = Some c <->
  0 <= c /\ dict_block_ b !! Z.to_nat c = Some s.
Proof.
  intros [_ Hdict]. rewrite Hdict. split.
  - intros (i & -> & Hi). split; [lia|]. by rewrite Nat2Z.id.
  - intros [Hc Hs]. exists (Z.to_nat c). split; [lia|done].
Qed.

(** Whatever sequence of [Add], [Finish] and [Reset] calls a new builder
    has gone through: the strings of the dictionary block are pairwise
    distinct; the dictionary holds codeword [c] for a string exactly when
    the string stands at position [c] of the dictionary block; and every
    codeword of every finished block is a position of the dictionary
    block as it is at the end, so that the block written last can serve
    all of them. *)
Theorem dictionary_indexes_dict_block (calls : list Call) (b : t)
    (blocks : list Block) :
  run BinaryDictBuilder.new calls = Some (b, blocks) ->
  NoDup (dict_block_ b) /\
  (forall s c, FindCopy (dictionary_ b) s = Some c <->
               0 <= c /\ dict_block_ b !! Z.to_nat c = Some s) /\
  Forall (fun blk =>
            match payload blk with
            | BShufBuilder cws =>
                Forall (fun c => 0 <= c < Z.of_nat (length (dict_block_ b))) cws
            | PlainBuilder _ => True
            end) blocks.
Proof.
  intros Hrun.
  destruct (run_inv calls _ b blocks new_inv Hrun) as ([Hd _] & _ & Hblocks).
  split_and!.
  - by apply dict_inv_NoDup.
  - intros s c. by apply dict_inv_lookup.
  - eapply Forall_impl; [exact Hblocks|]. intros blk Hblk.
    unfold block_codes_in in Hblk. destruct (payload blk) as [cws|]; [|done].
    eapply Forall_impl; [exact Hblk|]. intros c [s Hs].
    apply (dict_inv_lookup b s c Hd) in Hs as [Hc Hs].
    apply lookup_lt_Some in Hs. lia.
Qed.

(** A decoder of a codeword block: the file-level dictionary block
    holds [dict], the data block holds [cws] and is positioned at
    [pos]. *)
Definition codeword_decoder (dict : list Slice) (cws : list Z) (pos : Z)
  : BinaryDictDecoder.t :=
  BinaryDictDecoder.mk [] true (BinaryDictDecoder.mkPlain dict 0)
    (Some (BinaryDictDecoder.BShuf (BinaryDictDecoder.mkBShuf cws pos)))
    kCodeWordMode.

Lemma decode_codewords (b : t) (dict : list Slice) (vs : list Slice)
    (cws : list Z) :
  dict_inv b -> dict_block_ b `prefix_of` dict ->
  encoded (dictionary_ b) vs cws ->
  mapM (BinaryDictDecoderMore.string_at_index (BinaryDictDecoder.mkPlain dict 0))
       cws = Some vs.
Proof.
  intros Hd Hpre Henc. apply mapM_Some_2. apply Forall2_flip.
  eapply Forall2_impl; [exact Henc|]. intros v cw Hcw. cbn.
  apply (dict_inv_lookup b v cw Hd) in Hcw as [Hpos Hcw].
  unfold BinaryDictDecoderMore.string_at_index. cbn.
  rewrite (proj2 (Z.ltb_ge _ _) Hpos). by eapply prefix_lookup_Some.
Qed.

(** The values that [Add] accepts in codeword mode are the values that
    the decoder reads back. Let a new builder go through any calls, then
    accept [i] values of [vals] on top of the codewords [cws] of its
    data block, then go through any further calls, the dictionary block
    being written at the end. A decoder over that dictionary block and
    the data block, positioned after [cws], copies [i] values: the
    status is OK, the count is [i], the strings are the first [i] of
    [vals], and the position has advanced by [i]. *)
Theorem Add_CopyNextValues (calls1 calls2 : list Call) (b b' b'' : t)
    (blocks1 blocks2 : list Block) (vals : list Slice) (i : nat)
    (cws : list Z) :
  run BinaryDictBuilder.new calls1 = Some (b, blocks1) ->
  mode_ b = kCodeWordMode ->
  data_builder_ b = BShufBuilder cws ->
  Add b vals = Some (i, b') ->
  run b' calls2 = Some (b'', blocks2) ->
  exists new_cws,
    data_builder_ b' = BShufBuilder (cws ++ new_cws) /\
    BinaryDictDecoderMore.CopyNextValues
      (codeword_decoder (dict_block_ b'') (cws ++ new_cws)
         (Z.of_nat (length cws))) i
    = Some (Status.OK, i, take i vals,
            codeword_decoder (dict_block_ b'') (cws ++ new_cws)
              (Z.of_nat (length cws) + Z.of_nat i)).
Proof.
  intros Hrun1 Hmode Hdata Hadd Hrun2.
  destruct (run_inv calls1 _ b blocks1 new_inv Hrun1) as (Hinv & _ & _).
  destruct (Add_inv b vals i b' Hinv Hadd) as (Hinv' & _).
  destruct (run_inv calls2 b' b'' blocks2 Hinv' Hrun2) as (_ & [Hpre _] & _).
  unfold Add in Hadd. rewrite Hmode, Z.eqb_refl in Hadd.
  unfold AddCodeWords in Hadd.
  set (b0 := match vals with [] => b | _ => _ end) in Hadd.
  assert (Hd0 : data_builder_ b0 = BShufBuilder cws).
  { subst b0. destruct vals; [done|]. by destruct (Nat.eqb _ _). }
  destruct (AddCodeWords_loop_spec vals b0 0 cws Hd0)
    as (k & b1 & new_cws & Hloop & Hk & Hd' & Hlen & Henc & _).
  rewrite Hloop in Hadd. injection Hadd as <- <-.
  exists new_cws. split; [done|].
  unfold BinaryDictDecoderMore.CopyNextValues, codeword_decoder.
  cbn [BinaryDictDecoder.mode_]. rewrite Z.eqb_refl.
  unfold BinaryDictDecoderMore.CopyNextDecodeStrings.
  cbn [BinaryDictDecoder.data_decoder_ BinaryDictDecoder.dict_decoder_
       BinaryDictDecoder.data_ BinaryDictDecoder.parsed_ BinaryDictDecoder.mode_].
  unfold BinaryDictDecoderMore.bshuf_CopyNextValuesToArray.
  cbn [BinaryDictDecoder.bshuf_cur_idx BinaryDictDecoder.bshuf_elems].
  rewrite Nat2Z.id, drop_app_length.
  rewrite (take_ge new_cws k) by lia.
  destruct Hinv' as [Hdict' _].
  rewrite (decode_codewords b1 _ (take k vals) new_cws Hdict' Hpre Henc).
  cbn. by rewrite Hlen.
Qed.

Hypothesis modes_distinct : kCodeWordMode <> kPlainBinaryMode.

(** The three invariants that a run of calls keeps. *)
Definition run_inv3 (b : t) : Prop :=
  builder_inv b /\ consistent b /\ first_key_inv b.

Lemma Add_first_key b vals n b' :
  run_inv3 b -> Add b vals = Some (n, b') -> first_key_inv b'.
Proof.
  intros (Hinv & Hc & Hfk) Hadd.
  destruct (Add_consistent modes_distinct b vals Hc) as (n1 & b1 & Hadd1 & _ & Hm).
  rewrite Hadd in Hadd1. injection Hadd1 as <- <-.
  intros Hmode' c rest Hdata'. rewrite Hm in Hmode'.
  destruct Hc as [[_ [cws Hdata]]|[Hplain _]]; [|congruence].
  unfold Add in Hadd. rewrite Hmode', Z.eqb_refl in Hadd.
  unfold AddCodeWords in Hadd.
  set (b0 := match vals with [] => b | _ => _ end) in Hadd.
  assert (Hd0 : data_builder_ b0 = BShufBuilder cws).
  { subst b0. destruct vals; [done|]. by destruct (Nat.eqb _ _). }
  assert (Hm0 : dictionary_ b0 = dictionary_ b).
  { subst b0. destruct vals; [done|]. by destruct (Nat.eqb _ _). }
  assert (Hinv0 : builder_inv b0).
  { subst b0. destruct vals; [done|]. by destruct (Nat.eqb _ _). }
  destruct (AddCodeWords_loop_spec vals b0 0 cws Hd0)
    as (k & b1 & new_cws & Hloop & Hk & Hd' & Hlen & Henc & Hsub & _).
  destruct (AddCodeWords_loop_inv vals b0 0%nat _ _ Hinv0 Hloop) as (_ & _ & Hfk').
  rewrite Hloop in Hadd. injection Hadd as <- <-.
  rewrite Hd' in Hdata'. injection Hdata' as Hcodes. rewrite Hfk'.
  destruct cws as [|c0 cws'].
  - cbn [app] in Hcodes. subst new_cws.
    destruct vals as [|v0 vals']; [by destruct k|].
    subst b0. rewrite Hdata. cbn. destruct k as [|k]; [done|].
    cbn in Henc. by inversion Henc.
  - cbn [app] in Hcodes. injection Hcodes as <- _.
    assert (Hb0 : b0 = b).
    { subst b0. destruct vals; [done|]. by rewrite Hdata. }
    rewrite Hb0 in *. eapply lookup_weaken; [|exact Hsub]. by eapply Hfk.
Qed.

Lemma call_inv3 b c b' blocks :
  run_inv3 b -> call b c = Some (b', blocks) -> run_inv3 b'.
Proof.
  intros Hinv3 Hcall. pose proof Hinv3 as (Hinv & Hc & Hfk).
  destruct (call_consistent modes_distinct b c Hc)
    as (b1 & blocks1 & Hcall1 & Hc1 & _).
  rewrite Hcall in Hcall1. injection Hcall1 as <- <-.
  destruct c as [vals| |]; cbn [call] in Hcall.
  - destruct (Add b vals) as [[n bn]|] eqn:Hadd; [|done].
    injection Hcall as <- <-. split_and!; [|done|].
    + by destruct (Add_inv b vals n bn Hinv Hadd).
    + by eapply Add_first_key.
  - injection Hcall as <- <-. split_and!; [by destruct Hinv|done|].
    intros Hm c rest Hd. cbn in *. by eapply Hfk.
  - injection Hcall as <- <-. split_and!; [by apply Reset_inv|done|].
    intros Hm c rest Hd. unfold Reset in Hm, Hd.
    destruct (_ && _); cbn in Hm, Hd; [done|].
    by destruct (data_builder_ b).
Qed.

Lemma run_inv3_keeps : forall calls b b' blocks,
  run_inv3 b -> run b calls = Some (b', blocks) -> run_inv3 b'.
Proof.
  induction calls as [|c rest IH]; intros b b' blocks Hinv Hrun; cbn [run] in Hrun.
  { by injection Hrun as <- <-. }
  destruct (call b c) as [[b1 blocks1]|] eqn:Hcall; [|done].
  destruct (run b1 rest) as [[b2 blocks2]|] eqn:Hrest; [|done].
  injection Hrun as <- <-.
  eapply IH; [|exact Hrest]. by eapply call_inv3.
Qed.

Lemma new_inv3 : run_inv3 BinaryDictBuilder.new.
Proof.
  split_and!; [apply new_inv | apply new_consistent |].
  intros _ c rest Hd. unfold BinaryDictBuilder.new, Reset in Hd.
  by destruct (_ && _).
Qed.

(** On a finished block in codeword mode [GetFirstKey] returns the
    string that the first codeword of the data block stands for:
    whatever calls a new builder has gone through, if it is finished
    (the function's [DCHECK]), in codeword mode and its data block opens
    with codeword [c], the key returned is the string at position [c] of
    the dictionary block, the one a decoder reads for the first row. *)
Theorem GetFirstKey_first_codeword
    (plain_GetFirstKey : DataBuilder -> Status.t * option Slice)
    (calls : list Call) (b : t) (blocks : list Block) (c : Z) (cws : list Z) :
  run BinaryDictBuilder.new calls = Some (b, blocks) ->
  finished_ b = true ->
  mode_ b = kCodeWordMode ->
  data_builder_ b = BShufBuilder (c :: cws) ->
  exists key,
    GetFirstKey plain_GetFirstKey b = Some (Status.OK, Some key) /\
    BinaryDictDecoderMore.string_at_index
      (BinaryDictDecoder.mkPlain (dict_block_ b) 0) c = Some key.
Proof.
  intros Hrun Hfin Hmode Hdata.
  destruct (run_inv3_keeps calls _ b blocks new_inv3 Hrun) as ([Hd _] & _ & Hfk).
  exists (first_key_ b). unfold GetFirstKey. rewrite Hmode, Z.eqb_refl, Hfin.
  split; [done|].
  specialize (Hfk Hmode c cws Hdata).
  apply (dict_inv_lookup b _ c Hd) in Hfk as [Hpos Hfk].
  unfold BinaryDictDecoderMore.string_at_index. cbn.
  by rewrite (proj2 (Z.ltb_ge _ _) Hpos).
Qed.

End Dictionary.

Section Progress.
Context `{DictEncoding} `{BlockLimits}.

Lemma plain_Add_spec : forall vals strs,
  exists n strs',
    plain_Add strs vals = (n, strs') /\ (n <= length vals)%nat /\
    strs' = strs ++ take n vals /\
    ((n < length vals)%nat -> plain_full strs' = true) /\
    (vals <> [] -> plain_full strs = false -> (1 <= n)%nat).
Proof.
  induction vals as [|v rest IH]; intros strs; cbn [plain_Add].
  { exists 0%nat, strs. rewrite app_nil_r. split_and!; try done. cbn. lia. }
  destruct (plain_full strs) eqn:Hfull.
  - exists 0%nat, strs. rewrite app_nil_r. split_and!; try done. cbn. lia.
  - destruct (IH (strs ++ [v])) as (n & strs' & Hrun & Hn & Hs & Hstop & _).
    rewrite Hrun. exists (S n), strs'. split_and!; try done.
    + cbn. lia.
    + rewrite Hs. cbn. by rewrite <- app_assoc.
    + intros Hlt. apply Hstop. cbn in Hlt. lia.
    + intros _ _. lia.
Qed.

Hypothesis modes_distinct : kCodeWordMode <> kPlainBinaryMode.

(** [Add] accepts every value or leaves the block full, and a block that
    is not full accepts at least one value: for a builder that is not
    finished and whose data builder matches its mode, and for at least
    one value (the two [DCHECK]s of [AddCodeWords]), [Add] returns a
    count [n] of at most the number of values; when [n] is less than
    that, [IsBlockFull] holds afterwards; and when [IsBlockFull] did not
    hold before, [n] is at least 1. *)
Theorem Add_all_or_full (b : t) (vals : list Slice) :
  consistent b -> finished_ b = false -> vals <> [] ->
  exists n b',
    Add b vals = Some (n, b') /\ (n <= length vals)%nat /\
    ((n < length vals)%nat -> IsBlockFull b' = true) /\
    (IsBlockFull b = false -> (1 <= n)%nat).
Proof.
  intros Hcons _ Hne. revert Hcons.
  intros [[Hm [cws Hd]]|[Hm [strs Hd]]]; unfold Add.
  - rewrite Hm, Z.eqb_refl. unfold AddCodeWords.
    set (b0 := match vals with [] => b | _ => _ end).
    assert (Hsame : data_builder_ b0 = BShufBuilder cws /\ mode_ b0 = mode_ b /\
                    dict_block_ b0 = dict_block_ b /\
                    dictionary_ b0 = dictionary_ b).
    { subst b0. destruct vals; [done|]. by destruct (Nat.eqb _ _). }
    destruct Hsame as (Hd0 & Hm0 & Hblock0 & Hmap0).
    destruct (AddCodeWords_loop_spec vals b0 0 cws Hd0)
      as (k & b' & new_cws & Hrun & Hk & Hd' & Hlen & _ & _ & Hmode & Hstop).
    exists k, b'. split_and!; [done|done| |].
    + intros Hlt. unfold IsBlockFull.
      destruct (Hstop Hlt) as [Hfull|(v & _ & _ & Hfull)]; [by rewrite Hfull|].
      rewrite Hfull, Hmode, Hm0, Hm, Z.eqb_refl. by destruct (data_IsBlockFull _).
    + intros Hroom. unfold IsBlockFull in Hroom.
      rewrite Hd, Hm, Z.eqb_refl, andb_true_r in Hroom. cbn in Hroom.
      destruct (bshuf_full cws) eqn:Hdata_room; [done|].
      destruct (plain_full (dict_block_ b)) eqn:Hdict_room; [done|].
      destruct vals as [|v rest]; [done|].
      destruct k as [|k]; [|lia]. exfalso.
      cbn [AddCodeWords_loop] in Hrun. unfold FindCopy in Hrun.
      destruct (dictionary_ b0 !! v) as [cw|] eqn:Hfind.
      * rewrite Hd0 in Hrun. unfold bshuf_Add1 in Hrun.
        rewrite Hdata_room in Hrun. cbn in Hrun.
        destruct (AddCodeWords_loop_spec rest
                    (set_data_builder b0 (BShufBuilder (cws ++ [cw]))) 1
                    (cws ++ [cw]) eq_refl) as (k1 & b1 & ? & Hrun1 & _).
        rewrite Hrun1 in Hrun. injection Hrun. lia.
      * rewrite AddToDict_room in Hrun by (by rewrite ?Hblock0).
        cbn [data_builder_] in Hrun. rewrite Hd0 in Hrun.
        unfold bshuf_Add1 in Hrun. rewrite Hdata_room in Hrun. cbn in Hrun.
        match type of Hrun with
        | AddCodeWords_loop ?b2 _ _ = _ =>
            destruct (AddCodeWords_loop_spec rest b2 1 (cws ++ [wrap_uint32 (Z.of_nat (length (dict_block_ b0 ++ [v])) - 1)]) eq_refl)
              as (k1 & b1 & ? & Hrun1 & _)
        end.
        rewrite Hrun1 in Hrun. injection Hrun. lia.
  - rewrite Hm, (proj2 (Z.eqb_neq _ _) (not_eq_sym modes_distinct)), Hd.
    destruct (plain_Add_spec vals strs) as (n & strs' & Hrun & Hn & _ & Hstop & Hgo).
    rewrite Hrun. exists n, (set_data_builder b (PlainBuilder strs')).
    split_and!; [done|done| |].
    + intros Hlt. unfold IsBlockFull. cbn. by rewrite (Hstop Hlt).
    + intros Hroom. apply Hgo; [done|]. unfold IsBlockFull in Hroom.
      rewrite Hd in Hroom. cbn in Hroom. by destruct (plain_full strs).
Qed.

End Progress.

(** The limits of the concrete runs keep the dictionary block far below
    2^32 entries. *)
Lemma small_blocks_bounded :
  forall strs, 2 ^ 32 <= Z.of_nat (length strs) ->
               @plain_full small_blocks strs = true.
Proof.
  intros strs Hlen. change (Nat.leb 2 (length strs) = true).
  apply Nat.leb_le. lia.
Qed.

Lemma spec_modes_distinct :
  @kCodeWordMode spec_encoding <> @kPlainBinaryMode spec_encoding.
Proof. cbn. discriminate. Qed.

(** The two blocks of [first_block_calls] and [second_block_calls]. *)
Lemma dictionary_indexes_dict_block_witness :
  exists b blocks,
    @run spec_encoding small_blocks
      (@BinaryDictBuilder.new spec_encoding small_blocks)
      (first_block_calls ++ second_block_calls) = Some (b, blocks) /\
    NoDup (dict_block_ b) /\
    (forall s c, FindCopy (dictionary_ b) s = Some c <->
                 0 <= c /\ dict_block_ b !! Z.to_nat c = Some s) /\
    Forall (fun blk =>
              match payload blk with
              | BShufBuilder cws =>
                  Forall (fun c => 0 <= c < Z.of_nat (length (dict_block_ b))) cws
              | PlainBuilder _ => True
              end) blocks.
Proof.
  eexists _, _. split; [vm_compute; reflexivity|].
  apply (@dictionary_indexes_dict_block spec_encoding small_blocks
           small_blocks_bounded (first_block_calls ++ second_block_calls)).
  vm_compute. reflexivity.
Defined.

(** A new builder is given "x", "y", "x", "z" and accepts three of them;
    the block is finished and the builder reset. *)
Definition xyx_builder : t :=
  Eval vm_compute in
    default (@BinaryDictBuilder.new spec_encoding small_blocks)
      (snd <$> @Add spec_encoding small_blocks
                 (@BinaryDictBuilder.new spec_encoding small_blocks)
                 ["x"; "y"; "x"; "z"]%string).

Definition xyx_finished : t :=
  Eval vm_compute in
    default xyx_builder
      (fst <$> @run spec_encoding small_blocks xyx_builder [CallFinish; CallReset]).

Lemma Add_CopyNextValues_witness :
  exists new_cws,
    data_builder_ xyx_builder = BShufBuilder ([] ++ new_cws) /\
    @BinaryDictDecoderMore.CopyNextValues spec_encoding
      (@codeword_decoder spec_encoding (dict_block_ xyx_finished) ([] ++ new_cws) 0) 3
    = Some (Status.OK, 3%nat, ["x"; "y"; "x"]%string,
            @codeword_decoder spec_encoding (dict_block_ xyx_finished)
              ([] ++ new_cws) (0 + 3)).
Proof.
  apply (@Add_CopyNextValues spec_encoding small_blocks small_blocks_bounded
           [] [CallFinish; CallReset]
           (@BinaryDictBuilder.new spec_encoding small_blocks)
           xyx_builder xyx_finished []
           [mkBlock [0; 0; 0; 0] (BShufBuilder [0; 1; 0])]
           ["x"; "y"; "x"; "z"]%string 3 []).
  - reflexivity.
  - reflexivity.
  - reflexivity.
  - vm_compute. reflexivity.
  - vm_compute. reflexivity.
Defined.

(** The block of "x", "y", "x" has been finished. *)
Definition xyx_sealed : t :=
  Eval vm_compute in
    default xyx_builder
      (fst <$> @run spec_encoding small_blocks xyx_builder [CallFinish]).

Lemma GetFirstKey_first_codeword_witness :
  exists key,
    @GetFirstKey spec_encoding (fun _ => (Status.NotFound, None)) xyx_sealed
    = Some (Status.OK, Some key) /\
    BinaryDictDecoderMore.string_at_index
      (BinaryDictDecoder.mkPlain (dict_block_ xyx_sealed) 0) 0 = Some key.
Proof.
  apply (@GetFirstKey_first_codeword spec_encoding small_blocks
           small_blocks_bounded spec_modes_distinct
           (fun _ => (Status.NotFound, None))
           [CallAdd ["x"; "y"; "x"; "z"]%string; CallFinish] xyx_sealed
           [mkBlock [0; 0; 0; 0] (BShufBuilder [0; 1; 0])] 0 [1; 0]).
  - vm_compute. reflexivity.
  - reflexivity.
  - reflexivity.
  - reflexivity.
Defined.

(** Before [Finish] the assertion of [GetFirstKey] fails. *)
Example GetFirstKey_unfinished :
  @GetFirstKey spec_encoding (fun _ => (Status.NotFound, None)) xyx_builder
  = None.
Proof. reflexivity. Qed.

Lemma Add_all_or_full_witness :
  exists n b',
    @Add spec_encoding small_blocks
      (@BinaryDictBuilder.new spec_encoding small_blocks)
      ["x"; "y"; "x"; "z"]%string = Some (n, b') /\
    (n <= 4)%nat /\
    ((n < 4)%nat -> @IsBlockFull spec_encoding small_blocks b' = true) /\
    (@IsBlockFull spec_encoding small_blocks
       (@BinaryDictBuilder.new spec_encoding small_blocks) = false ->
     (1 <= n)%nat).
Proof.
  apply (@Add_all_or_full spec_encoding small_blocks spec_modes_distinct
           (@BinaryDictBuilder.new spec_encoding small_blocks)
           ["x"; "y"; "x"; "z"]%string).
  - left. split; [reflexivity|]. eexists. reflexivity.
  - reflexivity.
  - discriminate.
Defined.

End BinaryDictRoundTrip.

(* ===================================================================== *)
(** * consensus_peers.cc : pending requests, the proxy *)
(* ===================================================================== *)

Module ConsensusPeersMore.
Import ConsensusPeers ConsensusPeersFacts.

#[local] Existing Instance Task_eq_dec.

Definition is_election_rpc (e : Effect) : bool :=
  match e with StartElectionAsync => true | _ => false end.

Definition elections_started (effs : list Effect) : nat :=
  length (filter (fun e => is_election_rpc e = true) effs).

Definition is_submit (e : Effect) : bool :=
  match e with Submit _ => true | _ => false end.

Definition tasks_submitted (effs : list Effect) : nat :=
  length (filter (fun e => is_submit e = true) effs).

Lemma apply_effects_more effs : forall s,
  elections (apply_effects s effs) = (elections s + elections_started effs)%nat /\
  length (pool (apply_effects s effs)) = (length (pool s) + tasks_submitted effs)%nat.
Proof.
  unfold apply_effects, elections_started, tasks_submitted.
  induction effs as [|e effs IH]; intros s; cbn [fold_left].
  - cbn. lia.
  - destruct (IH (apply_effect s e)) as [-> ->].
    rewrite !filter_cons.
    destruct e as [task| | | | | | | | | |]; cbn; rewrite ?length_app;
      repeat (destruct (decide _); try done); cbn; lia.
Qed.

Lemma with_peer_more s r :
  elections (with_peer s r) = (elections s + elections_started r.2)%nat /\
  length (pool (with_peer s r)) = (length (pool s) + tasks_submitted r.2)%nat.
Proof.
  exact (apply_effects_more r.2
           (mkSystem r.1 (pool s) (outstanding s) (elections s))).
Qed.


Section More.
Variable kMinimumOpIdIndex : Z.

Local Abbreviation SendNextRequest := (SendNextRequest kMinimumOpIdIndex).
Local Abbreviation DoProcessResponse := (DoProcessResponse kMinimumOpIdIndex).
Local Abbreviation fire := (fire kMinimumOpIdIndex).
Local Abbreviation reachable := (reachable kMinimumOpIdIndex).
Local Abbreviation reaches := (reaches kMinimumOpIdIndex).

Local Arguments rpcs_issued : simpl never.
Local Arguments dprs_submitted : simpl never.
Local Arguments elections_started : simpl never.
Local Arguments tasks_submitted : simpl never.

Ltac split_tests :=
  repeat (cbn;
          match goal with
          | |- context [if ?b then _ else _] => destruct b eqn:?
          | |- context [match ?o with Some _ => _ | None => _ end] =>
              destruct o eqn:?
          end);
  cbn.

(** ** A pending request is in progress *)







(** ** RPCs go through a proxy, heartbeats through a timer *)

Lemma SendNextRequest_proxy p even env :
  let r := SendNextRequest p even env in
  heartbeater_ r.1 = heartbeater_ p /\
  (proxy_ p = true -> proxy_ r.1 = true) /\
  ((0 < rpcs_issued r.2)%nat -> proxy_ r.1 = true) /\
  elections_started r.2 = 0%nat.
Proof.
  destruct p as [fa rp cl hs px hb ops ci ids].
  destruct env as [rfp fops fci ntc npo etc tcr].
  cbv zeta. unfold ConsensusPeers.SendNextRequest, CreateProxyIfNeeded,
    PrepareTabletCopyRequest, committed_index_or_min.
  split_tests; split_and!; try reflexivity; try done;
    intros Hpos; try reflexivity; try done; try (by destruct px);
    vm_compute in Hpos; lia.
Qed.

Lemma fire_proxy s ev s' :
  fire s ev = Next s' ->
  heartbeater_ (peer s') = heartbeater_ (peer s) /\
  (proxy_ (peer s) = true -> proxy_ (peer s') = true) /\
  ((length (outstanding s) < length (outstanding s'))%nat \/
   (elections s < elections s')%nat -> proxy_ (peer s') = true).
Proof.
  destruct ev as [even submit|n send_more env|n resp tc_resp submit_ok| |ok];
    cbn [ConsensusPeers.fire].
  - destruct (SignalRequest (peer s) even submit) as [[st p'] effs] eqn:Hs.
    intros [= <-]. unfold SignalRequest in Hs.
    destruct (closed_ (peer s)), (request_pending_ (peer s)), (Status.ok submit);
      injection Hs as <- <- <-; cbn; split_and!; try done; lia.
  - destruct (pool s !! n) as [task|] eqn:Hn; [|done].
    set (s1 := mkSystem (peer s) (delete n (pool s)) (outstanding s) (elections s)).
    destruct task as [even|].
    + intros [= <-].
      destruct (with_peer_counts s1 (SendNextRequest (peer s) even env))
        as (-> & -> & _).
      destruct (with_peer_more s1 (SendNextRequest (peer s) even env)) as (-> & _).
      destruct (SendNextRequest_proxy (peer s) even env) as (-> & Hmono & Hrpc & ->).
      cbn [s1 outstanding elections]. split_and!; [done|done|].
      intros [Hlt|Hlt]; [apply Hrpc|]; lia.
    + unfold ConsensusPeers.DoProcessResponse.
      destruct (request_pending_ (peer s)); cbn [negb]; [|done].
      destruct send_more; cbn [outcome_of]; intros [= <-].
      * set (p1 := set_request_pending (set_failed_attempts (peer s) 0) false).
        destruct (with_peer_counts s1 (SendNextRequest p1 true env))
          as (-> & -> & _).
        destruct (with_peer_more s1 (SendNextRequest p1 true env)) as (-> & _).
        destruct (SendNextRequest_proxy p1 true env) as (-> & Hmono & Hrpc & ->).
        cbn [s1 outstanding elections]. split_and!; [done|done|].
        intros [Hlt|Hlt]; [apply Hrpc|]; lia.
      * cbn. split_and!; [done|done|]. lia.
  - destruct (outstanding s !! n) as [rpc|] eqn:Hn; [|done].
    assert (Hlen : length (delete n (outstanding s))
                   = (length (outstanding s) - 1)%nat).
    { apply length_delete. by rewrite Hn. }
    set (s1 := mkSystem (peer s) (pool s) (delete n (outstanding s)) (elections s)).
    destruct (peer s) as [fa rp cl hs px hb ops ci ids] eqn:Hpeer.
    destruct rpc.
    + destruct resp as [cok crem scp rerr].
      unfold ProcessResponse, ProcessResponseErrorUnlocked.
      split_tests; intros [= <-]; cbn; split_and!; try done; lia.
    + destruct tc_resp as [cok terr].
      unfold ProcessTabletCopyResponse.
      split_tests; intros [= <-]; cbn; split_and!; try done; lia.
  - intros [= <-]. unfold Close. destruct (closed_ (peer s)); cbn;
      split_and!; try done; lia.
  - intros [= <-]. unfold StartElection, CreateProxyIfNeeded.
    destruct (proxy_ (peer s)) eqn:Hpx, ok; cbn; split_and!; try done; lia.
Qed.

(** In every system that a new remote peer can reach the heartbeat timer
    exists and runs, so [Snooze] always has a timer to act on (no event
    stops it, [Close] included); no event drops the proxy once it
    exists; and whenever an event issues a request RPC or an election
    RPC, the proxy exists: no RPC is issued through a null proxy. *)
Theorem rpcs_go_through_proxy :
  (forall s, reachable s -> heartbeater_ (peer s) = Some true) /\
  (forall s ev s', fire s ev = Next s' ->
     (proxy_ (peer s) = true -> proxy_ (peer s') = true) /\
     ((length (outstanding s) < length (outstanding s'))%nat \/
      (elections s < elections s')%nat -> proxy_ (peer s') = true)).
Proof.
  split.
  - induction 1 as [ok|s ev s' Hs IH Hfire].
    + unfold NewRemotePeer, Init, Peer_new, CreateProxyIfNeeded. by destruct ok.
    + destruct (fire_proxy s ev s' Hfire) as (-> & _). done.
  - intros s ev s' Hfire. by destruct (fire_proxy s ev s' Hfire) as (_ & ? & ?).
Qed.

End More.


(** The heartbeat has fired on a fresh system and the pool runs the
    task. *)
Definition heartbeat_signalled : System :=
  after fresh_system (EvSignalRequest true Status.OK).

Lemma rpcs_go_through_proxy_witness :
  heartbeater_ (peer after_first_send) = Some true /\
  proxy_ (peer after_first_send) = true.
Proof.
  destruct (rpcs_go_through_proxy 0) as [Htimer Hproxy]. split.
  - apply Htimer. exact after_first_send_reachable.
  - destruct (Hproxy heartbeat_signalled (EvRunTask 0 false heartbeat_env)
                after_first_send eq_refl) as [_ Hrpc].
    apply Hrpc. left. vm_compute. lia.
Defined.

End ConsensusPeersMore.

(* ===================================================================== *)
(** * consensus_peers.cc : a peer closed while method calls are under way *)
(* ===================================================================== *)

Module ConsensusPeersInterleaved.
Import ConsensusPeers ConsensusPeersFacts.
Local Open Scope nat_scope.

(** [ConsensusPeers.fire] runs every method as one step. That is how
    the parts under [peer_lock_] behave. But [SignalRequest] reads
    [closed_] and [request_pending_] without the lock before it calls
    [Submit]; [SendNextRequest] issues its RPC after [l.unlock()];
    [DoProcessResponse] calls [SendNextRequest] after its locked block;
    and [Close] reads [closed_] before it takes the lock. Here a call
    that has reached such a point waits in [calls] until a later step
    resumes it, so that other steps, those of [Close] among them, can
    fall in between. [ProcessResponse] holds the lock throughout, and
    what [ProcessTabletCopyResponse] and [Close] do after unlocking
    (the calls to the queue and the log) changes nothing that the
    system records; [StartElection] takes only [proxy_lock_].

    Where a call stands: [SignalRequest] has read [closed_] as false;
    it has also read [request_pending_] as false and [Submit] is next;
    [SendNextRequest] has unlocked and the RPC is next;
    [DoProcessResponse] has left its locked block and
    [SendNextRequest(true)] is next; [Close] has read [closed_] as
    false and the locked assignment is next. *)
Inductive Call : Type :=
| SignalReadClosed (even_if_queue_empty : bool)
| SignalReadPending (even_if_queue_empty : bool)
| SendUnlocked (rpc : Rpc)
| ResponseDone
| CloseReadClosed.

Record Threads : Type := mkThreads {
  sys : System;
  calls : list Call
}.

(** What happens next: a caller or the heartbeat timer enters
    [SignalRequest]; the call at position [k] of [calls] goes on to its
    next point ([submit] is the status of [Submit], [env] what the
    collaborators answer to [SendNextRequest]); the pool runs a task;
    the callback of an RPC in flight runs; a caller enters [Close]; an
    election is started. *)
Inductive Step : Type :=
| StSignalRequest (even_if_queue_empty : bool)
| StResume (k : nat) (submit : Status.t) (env : SendEnv)
| StRunTask (n : nat) (send_more_immediately : bool) (env : SendEnv)
| StRpcDone (n : nat) (resp : UpdateResponse) (tc_resp : TabletCopyResponse)
            (submit_ok : bool)
| StClose
| StStartElection (new_proxy_ok : bool).

Inductive Stepped : Type :=
| Disabled
| Abort
| Then (t : Threads).

Definition rpc_of (e : Effect) : option Rpc :=
  match e with
  | UpdateAsync => Some RpcUpdate
  | StartTabletCopyAsync => Some RpcTabletCopy
  | _ => None
  end.

Definition issue (rpc : Rpc) : Effect :=
  match rpc with
  | RpcUpdate => UpdateAsync
  | RpcTabletCopy => StartTabletCopyAsync
  end.

Definition is_signal (c : Call) : bool :=
  match c with
  | SignalReadClosed _ | SignalReadPending _ => true
  | _ => false
  end.

Definition is_send (c : Call) : bool :=
  match c with SendUnlocked _ => true | _ => false end.

(** The calls of [SignalRequest] that have passed the test of [closed_]
    and have not returned, and the calls of [SendNextRequest] that have
    unlocked and not yet issued their RPC. *)
Definition submits_due (cs : list Call) : nat :=
  length (filter (fun c => is_signal c = true) cs).

Definition rpcs_due (cs : list Call) : nat :=
  length (filter (fun c => is_send c = true) cs).

Section Interleaved.
Variable kMinimumOpIdIndex : Z.

(** [SendNextRequest] up to [l.unlock()]: the peer and what was done
    under the lock, and the call left to issue the RPC, which on every
    path of the method is the last thing it does. *)
Definition SendNextRequest_locked (s : System) (even_if_queue_empty : bool)
    (env : SendEnv) : System * list Call :=
  let '(p, effs) :=
    SendNextRequest kMinimumOpIdIndex (peer s) even_if_queue_empty env in
  (with_peer s (p, filter (fun e => rpc_of e = None) effs),
   SendUnlocked <$> omap rpc_of effs).

(** The locked block of [DoProcessResponse]; [None] is the abort of
    [CHECK(request_pending_)]. *)
Definition DoProcessResponse_locked (p : Peer) : option Peer :=
  if negb (request_pending_ p) then None
  else Some (set_request_pending (set_failed_attempts p 0) false).

(** The next part of a call that is under way: the system afterwards
    and the calls that take its place. *)
Definition resume (s : System) (c : Call) (submit : Status.t) (env : SendEnv)
  : System * list Call :=
  match c with
  | SignalReadClosed even =>
      if request_pending_ (peer s) then (s, [])
      else (s, [SignalReadPending even])
  | SignalReadPending even =>
      (if Status.ok submit
       then apply_effect s (Submit (TaskSendNextRequest even))
       else s, [])
  | SendUnlocked rpc => (apply_effect s (issue rpc), [])
  | ResponseDone => SendNextRequest_locked s true env
  | CloseReadClosed =>
      (with_peer s (set_closed (peer s) true, [UntrackPeer]), [])
  end.

Definition step (t : Threads) (st : Step) : Stepped :=
  let s := sys t in
  match st with
  | StSignalRequest even =>
      if closed_ (peer s) then Then t
      else Then (mkThreads s (calls t ++ [SignalReadClosed even]))
  | StResume k submit env =>
      match calls t !! k with
      | None => Disabled
      | Some c =>
          let '(s', new) := resume s c submit env in
          Then (mkThreads s' (delete k (calls t) ++ new))
      end
  | StRunTask n send_more env =>
      match pool s !! n with
      | None => Disabled
      | Some task =>
          let s1 := mkSystem (peer s) (delete n (pool s)) (outstanding s)
                             (elections s) in
          match task with
          | TaskSendNextRequest even =>
              let '(s', new) := SendNextRequest_locked s1 even env in
              Then (mkThreads s' (calls t ++ new))
          | TaskDoProcessResponse =>
              match DoProcessResponse_locked (peer s) with
              | None => Abort
              | Some p =>
                  Then (mkThreads
                          (mkSystem p (pool s1) (outstanding s1) (elections s1))
                          (calls t ++ if send_more then [ResponseDone] else []))
              end
          end
      end
  | StRpcDone n resp tc_resp submit_ok =>
      match fire kMinimumOpIdIndex s (EvRpcDone n resp tc_resp submit_ok) with
      | NotEnabled => Disabled
      | Aborted => Abort
      | Next s' => Then (mkThreads s' (calls t))
      end
  | StClose =>
      if closed_ (peer s) then Then t
      else Then (mkThreads s (calls t ++ [CloseReadClosed]))
  | StStartElection ok =>
      Then (mkThreads (with_peer s (StartElection (peer s) ok)) (calls t))
  end.

(** [run_steps t t']: some sequence of steps leads from [t] to [t']. *)
Inductive run_steps (t : Threads) : Threads -> Prop :=
| run_here : run_steps t t
| run_step t1 st t2 :
    run_steps t t1 -> step t1 st = Then t2 -> run_steps t t2.

(** ** Once [closed_] is set *)

Lemma due_delete (f : Call -> bool) : forall cs k c,
  cs !! k = Some c ->
  length (filter (fun x => f x = true) cs) =
  length (filter (fun x => f x = true) (delete k cs)) + (if f c then 1 else 0).
Proof.
  induction cs as [|c0 cs IH]; intros [|k] c Hk; try done.
  - cbn in Hk. injection Hk as ->. cbn [delete list_delete].
    rewrite filter_cons. destruct (decide _) as [Hf|Hf].
    + rewrite Hf. cbn. lia.
    + destruct (f c); [done|lia].
  - cbn in Hk. change (delete (S k) (c0 :: cs)) with (c0 :: delete k cs).
    rewrite !filter_cons. pose proof (IH k c Hk) as IHk.
    destruct (decide _); cbn [length]; lia.
Qed.

Lemma due_app (f : Call -> bool) cs new :
  length (filter (fun x => f x = true) (cs ++ new)) =
  length (filter (fun x => f x = true) cs)
  + length (filter (fun x => f x = true) new).
Proof. by rewrite filter_app, length_app. Qed.

(** On a closed peer the locked part of [SendNextRequest] does nothing
    and leaves no RPC to issue. *)
Lemma SendNextRequest_locked_closed s even env :
  closed_ (peer s) = true ->
  SendNextRequest_locked s even env = (s, []).
Proof.
  intros Hc. unfold SendNextRequest_locked.
  rewrite (SendNextRequest_returns kMinimumOpIdIndex) by (by left).
  by destruct s.
Qed.

Ltac split_tests :=
  repeat (cbn;
          match goal with
          | |- context [if ?b then _ else _] => destruct b eqn:?
          | |- context [match ?o with Some _ => _ | None => _ end] =>
              destruct o eqn:?
          end);
  cbn.

Ltac count_calls :=
  cbn; rewrite ?length_app; cbn;
  repeat (destruct (decide _); try done); cbn;
  split_and!; [done|lia|lia].

(** One step on a closed peer: the peer stays closed; the pool grows
    only by the [Submit] of a [SignalRequest] that had read [closed_]
    before, and the RPCs in flight only by the RPC of a
    [SendNextRequest] that had unlocked before. *)
Lemma step_closed t st t' :
  closed_ (peer (sys t)) = true -> step t st = Then t' ->
  closed_ (peer (sys t')) = true /\
  length (pool (sys t')) + submits_due (calls t')
    <= length (pool (sys t)) + submits_due (calls t) /\
  length (outstanding (sys t')) + rpcs_due (calls t')
    <= length (outstanding (sys t)) + rpcs_due (calls t).
Proof.
  intros Hc. destruct t as [s cs]. cbn [sys calls] in *.
  unfold submits_due, rpcs_due.
  destruct st as [even|k submit env|n send_more env|n resp tc_resp submit_ok| |ok];
    cbn [step sys calls].
  - rewrite Hc. intros [= <-]. cbn. split_and!; [done|lia|lia].
  - destruct (cs !! k) as [c|] eqn:Hk; [|done].
    pose proof (due_delete is_signal cs k c Hk) as Hsig.
    pose proof (due_delete is_send cs k c Hk) as Hsend.
    destruct c as [even|even|rpc| |]; cbn [resume is_signal is_send] in *.
    + destruct (request_pending_ (peer s)); intros [= <-];
        cbn [sys calls]; rewrite !due_app; count_calls.
    + intros [= <-]. cbn [sys calls]. rewrite !due_app.
      destruct (Status.ok submit); count_calls.
    + intros [= <-]. cbn [sys calls]. rewrite !due_app.
      destruct rpc; count_calls.
    + rewrite SendNextRequest_locked_closed by done. intros [= <-].
      cbn [sys calls]. rewrite !due_app. count_calls.
    + intros [= <-]. cbn [sys calls]. rewrite !due_app. count_calls.
  - destruct (pool s !! n) as [task|] eqn:Hn; [|done].
    assert (Hlen : length (delete n (pool s)) = length (pool s) - 1).
    { apply length_delete. by rewrite Hn. }
    assert (Hpos : 0 < length (pool s)).
    { apply lookup_lt_Some in Hn. lia. }
    destruct task as [even|].
    + rewrite SendNextRequest_locked_closed by done. intros [= <-].
      cbn [sys calls pool outstanding peer]. rewrite !due_app. count_calls.
    + unfold DoProcessResponse_locked.
      destruct (request_pending_ (peer s)); cbn [negb]; [|done].
      intros [= <-]. cbn [sys calls pool outstanding peer]. rewrite !due_app.
      destruct send_more; count_calls.
  - destruct (fire kMinimumOpIdIndex s (EvRpcDone n resp tc_resp submit_ok))
      as [| |s'] eqn:Hfire; [done|done|].
    intros [= <-]. cbn [sys calls].
    pose proof (fire_closed kMinimumOpIdIndex s _ s' Hc Hfire) as Hc'.
    cbn [fire] in Hfire.
    destruct (outstanding s !! n) as [rpc|] eqn:Hn; [|done].
    assert (Hlen : length (delete n (outstanding s)) = length (outstanding s) - 1).
    { apply length_delete. by rewrite Hn. }
    assert (Hpos : 0 < length (outstanding s)).
    { apply lookup_lt_Some in Hn. lia. }
    destruct rpc;
      rewrite ?ProcessResponse_closed, ?ProcessTabletCopyResponse_closed in Hfire
        by done;
      injection Hfire as <-; count_calls.
  - rewrite Hc. intros [= <-]. cbn. split_and!; [done|lia|lia].
  - intros [= <-]. cbn [sys calls]. unfold StartElection, CreateProxyIfNeeded.
    destruct (proxy_ (peer s)) eqn:Hp, ok; count_calls.
Qed.

(** Once [closed_] is set, over every later sequence of steps: the peer
    stays closed; the tasks in the pool together with the calls of
    [SignalRequest] that had passed their test of [closed_] never grow
    in number, and neither do the RPCs in flight together with the calls
    of [SendNextRequest] that had unlocked. So at most one task is
    submitted per call of [SignalRequest] that read [closed_] before it
    was set, at most one request RPC is issued per call of
    [SendNextRequest] that had unlocked before, and once those calls
    have returned the pool and the RPCs in flight only drain. *)
Theorem closed_peer_drains (t t' : Threads) :
  run_steps t t' -> closed_ (peer (sys t)) = true ->
  closed_ (peer (sys t')) = true /\
  length (pool (sys t')) + submits_due (calls t')
    <= length (pool (sys t)) + submits_due (calls t) /\
  length (outstanding (sys t')) + rpcs_due (calls t')
    <= length (outstanding (sys t)) + rpcs_due (calls t) /\
  (submits_due (calls t) = 0 -> length (pool (sys t')) <= length (pool (sys t))) /\
  (rpcs_due (calls t) = 0 ->
   length (outstanding (sys t')) <= length (outstanding (sys t))).
Proof.
  intros Hrun Hc.
  assert (Hinv : closed_ (peer (sys t')) = true /\
                 length (pool (sys t')) + submits_due (calls t')
                   <= length (pool (sys t)) + submits_due (calls t) /\
                 length (outstanding (sys t')) + rpcs_due (calls t')
                   <= length (outstanding (sys t)) + rpcs_due (calls t)).
  { induction Hrun as [|t1 st t2 Hrun IH Hstep].
    - split_and!; [done|lia|lia].
    - destruct IH as (Hc1 & Hp1 & Ho1).
      destruct (step_closed t1 st t2 Hc1 Hstep) as (Hc2 & Hp2 & Ho2).
      split_and!; [done|lia|lia]. }
  destruct Hinv as (Hc' & Hp & Ho).
  split_and!; [done|done|done|intros Hz; lia|intros Hz; lia].
Qed.

(** ** The steps of the methods run as a whole *)

Lemma run_steps_cons t st t1 t2 :
  step t st = Then t1 -> run_steps t1 t2 -> run_steps t t2.
Proof.
  intros Hstep Hrun. induction Hrun as [|ta sa tb Hrun IH Hsa].
  - exact (run_step t t st t1 (run_here t) Hstep).
  - exact (run_step t ta sa tb IH Hsa).
Qed.

Lemma system_eta s :
  mkSystem (peer s) (pool s) (outstanding s) (elections s) = s.
Proof. by destruct s. Qed.

(** On every path of [SendNextRequest] the RPC, if there is one, is the
    last effect and the only RPC. *)
Lemma SendNextRequest_rpc_last p even env :
  let effs := (SendNextRequest kMinimumOpIdIndex p even env).2 in
  effs = filter (fun e => rpc_of e = None) effs ++ (issue <$> omap rpc_of effs) /\
  length (omap rpc_of effs) <= 1.
Proof.
  cbv zeta.
  assert (Hcases :
    let effs := (SendNextRequest kMinimumOpIdIndex p even env).2 in
    effs = [] \/ effs = [LogWarning] \/ effs = [StartTabletCopyAsync] \/
    effs = [HeartbeatSnooze; UpdateAsync] \/ effs = [UpdateAsync]).
  { destruct p as [fa rp cl hs px hb ops ci ids].
    destruct env as [rfp fops fci ntc npo etc tcr].
    cbv zeta. unfold ConsensusPeers.SendNextRequest, CreateProxyIfNeeded,
      PrepareTabletCopyRequest, committed_index_or_min.
    split_tests; auto 6. }
  cbv zeta in Hcases.
  destruct Hcases as [->|[->|[->|[->| ->]]]];
    (split; [reflexivity|cbn; lia]).
Qed.

(** After the locked part of [SendNextRequest], issuing the RPC that is
    due completes the method. *)
Lemma SendNextRequest_locked_run s even env s1 new :
  SendNextRequest_locked s even env = (s1, new) ->
  run_steps (mkThreads s1 new)
    (mkThreads
       (with_peer s (SendNextRequest kMinimumOpIdIndex (peer s) even env)) []).
Proof.
  unfold SendNextRequest_locked.
  pose proof (SendNextRequest_rpc_last (peer s) even env) as [Hshape Hlen].
  destruct (SendNextRequest kMinimumOpIdIndex (peer s) even env) as [p effs].
  cbn [fst snd] in *. intros [= <- <-].
  destruct (omap rpc_of effs) as [|rpc [|rpc' rpcs]]; cbn in Hlen; [| |lia].
  - cbn in Hshape. rewrite app_nil_r in Hshape. rewrite <- Hshape.
    apply run_here.
  - set (pre := filter (fun e => rpc_of e = None) effs) in *.
    cbn [fmap list_fmap] in Hshape.
    assert (Hwhole : with_peer s (p, effs)
                     = apply_effect (with_peer s (p, pre)) (issue rpc)).
    { rewrite Hshape at 1. unfold with_peer, apply_effects. cbn [fst snd].
      by rewrite fold_left_app. }
    rewrite Hwhole.
    eapply (run_steps_cons _ (StResume 0 Status.OK env)); [reflexivity|].
    apply run_here.
Qed.

(** Whatever a method does when it runs as a whole, as in
    [ConsensusPeers.fire], it does here in one or more steps that leave
    no call behind: the systems of [ConsensusPeers.reachable] are
    among those reached here. *)
Lemma fire_run_steps s ev s' :
  fire kMinimumOpIdIndex s ev = Next s' ->
  run_steps (mkThreads s []) (mkThreads s' []).
Proof.
  destruct ev as [even submit|n send_more env|n resp tc_resp submit_ok| |ok];
    cbn [fire].
  - unfold SignalRequest.
    destruct (closed_ (peer s)) eqn:Hc;
      [|destruct (request_pending_ (peer s)) eqn:Hp;
        [|destruct (Status.ok submit) eqn:Hok]];
      intros [= <-]; unfold with_peer, apply_effects; cbn [fst snd fold_left];
      rewrite system_eta; try apply run_here.
    eapply (run_steps_cons _ (StSignalRequest even));
      [cbn [step sys calls]; rewrite Hc; reflexivity|].
    eapply (run_steps_cons _ (StResume 0 submit
                                (mkSendEnv true 0 None false true true true)));
      [cbn [step sys calls app lookup list_lookup resume]; rewrite Hp;
       reflexivity|].
    eapply (run_steps_cons _ (StResume 0 submit
                                (mkSendEnv true 0 None false true true true)));
      [cbn [step sys calls app lookup list_lookup resume delete list_delete];
       rewrite Hok; reflexivity|].
    apply run_here.
  - destruct (pool s !! n) as [task|] eqn:Hn; [|done].
    set (s1 := mkSystem (peer s) (delete n (pool s)) (outstanding s) (elections s)).
    destruct task as [even|].
    + intros [= <-].
      destruct (SendNextRequest_locked s1 even env) as [s2 new] eqn:Hlocked.
      eapply (run_steps_cons _ (StRunTask n send_more env) (mkThreads s2 new)).
      { cbn [step sys calls]. rewrite Hn. fold s1. by rewrite Hlocked. }
      exact (SendNextRequest_locked_run s1 even env s2 new Hlocked).
    + unfold outcome_of, DoProcessResponse.
      destruct (request_pending_ (peer s)) eqn:Hp; cbn [negb]; [|done].
      set (p1 := set_request_pending (set_failed_attempts (peer s) 0) false).
      set (s2 := mkSystem p1 (pool s1) (outstanding s1) (elections s1)).
      destruct send_more; intros [= <-].
      * eapply (run_steps_cons _ (StRunTask n true env)
                  (mkThreads s2 [ResponseDone])).
        { cbn [step sys calls]. rewrite Hn. unfold DoProcessResponse_locked.
          by rewrite Hp. }
        destruct (SendNextRequest_locked s2 true env) as [s3 new] eqn:Hlocked.
        eapply (run_steps_cons _ (StResume 0 Status.OK env) (mkThreads s3 new)).
        { cbn [step sys calls lookup list_lookup resume]. by rewrite Hlocked. }
        exact (SendNextRequest_locked_run s2 true env s3 new Hlocked).
      * eapply (run_steps_cons _ (StRunTask n false env)).
        { cbn [step sys calls]. rewrite Hn. unfold DoProcessResponse_locked.
          by rewrite Hp. }
        apply run_here.
  - intros Hfire.
    eapply (run_steps_cons _ (StRpcDone n resp tc_resp submit_ok)).
    { cbn [step sys calls fire]. by rewrite Hfire. }
    apply run_here.
  - unfold Close. destruct (closed_ (peer s)) eqn:Hc; intros [= <-].
    + unfold with_peer, apply_effects. cbn [fst snd fold_left].
      rewrite system_eta. apply run_here.
    + eapply (run_steps_cons _ StClose);
        [cbn [step sys calls]; rewrite Hc; reflexivity|].
      eapply (run_steps_cons _ (StResume 0 Status.OK
                                  (mkSendEnv true 0 None false true true true)));
        [reflexivity|].
      apply run_here.
  - intros [= <-].
    eapply (run_steps_cons _ (StStartElection ok)); [reflexivity|].
    apply run_here.
Qed.

End Interleaved.

(** A heartbeat enters [SignalRequest] on a fresh peer and reads
    [closed_]; then the peer is closed. *)
Definition next (t : Threads) (st : Step) : Threads :=
  match step 0 t st with
  | Then t' => t'
  | _ => t
  end.

Lemma next_run t st : run_steps 0 t (next t st).
Proof.
  unfold next. destruct (step 0 t st) as [| |t'] eqn:Hstep.
  - apply run_here.
  - apply run_here.
  - exact (run_step 0 t t st t' (run_here 0 t) Hstep).
Defined.

Lemma run_steps_trans t1 t2 t3 :
  run_steps 0 t1 t2 -> run_steps 0 t2 t3 -> run_steps 0 t1 t3.
Proof.
  intros H12 H23. induction H23 as [|t st t' H23 IH Hstep]; [exact H12|].
  exact (run_step 0 t1 t st t' IH Hstep).
Defined.

Definition closed_while_signalling : Threads :=
  next (next (next (mkThreads fresh_system []) (StSignalRequest true))
             StClose)
       (StResume 1 Status.OK heartbeat_env).

(** The heartbeat goes on: it reads [request_pending_], submits its
    task, and the pool runs [SendNextRequest], which finds the peer
    closed. *)
Definition signal_completed : Threads :=
  next (next closed_while_signalling (StResume 0 Status.OK heartbeat_env))
       (StResume 0 Status.OK heartbeat_env).

Definition task_run : Threads :=
  next signal_completed (StRunTask 0 false heartbeat_env).

Lemma closed_peer_drains_witness :
  closed_ (peer (sys task_run)) = true /\
  length (pool (sys task_run)) + submits_due (calls task_run)
    <= length (pool (sys closed_while_signalling))
       + submits_due (calls closed_while_signalling) /\
  length (outstanding (sys task_run)) + rpcs_due (calls task_run)
    <= length (outstanding (sys closed_while_signalling))
       + rpcs_due (calls closed_while_signalling) /\
  (submits_due (calls closed_while_signalling) = 0 ->
   length (pool (sys task_run)) <= length (pool (sys closed_while_signalling))) /\
  (rpcs_due (calls closed_while_signalling) = 0 ->
   length (outstanding (sys task_run))
   <= length (outstanding (sys closed_while_signalling))).
Proof.
  apply (closed_peer_drains 0 closed_while_signalling task_run).
  - apply (run_steps_trans _ signal_completed); [|apply next_run].
    apply (run_steps_trans _ (next closed_while_signalling
                                (StResume 0 Status.OK heartbeat_env)));
      apply next_run.
  - reflexivity.
Defined.

(** The race that the lock does not exclude: the task of the heartbeat
    that had read [closed_] is submitted to the pool of a closed peer;
    when the pool runs it, nothing is sent. *)
Example submit_after_close :
  closed_ (peer (sys closed_while_signalling)) = true /\
  pool (sys closed_while_signalling) = [] /\
  calls closed_while_signalling = [SignalReadClosed true] /\
  pool (sys signal_completed) = [TaskSendNextRequest true] /\
  calls signal_completed = [] /\
  pool (sys task_run) = [] /\ outstanding (sys task_run) = [] /\
  calls task_run = [].
Proof. vm_compute. done. Qed.

(** Likewise for an RPC: [SendNextRequest] has unlocked, the peer is
    closed, and then [UpdateAsync] is issued. *)
Example rpc_after_close :
  let unlocked :=
    next (next (next (next (mkThreads fresh_system []) (StSignalRequest true))
                     (StResume 0 Status.OK heartbeat_env))
               (StResume 0 Status.OK heartbeat_env))
         (StRunTask 0 false heartbeat_env) in
  let closed :=
    next (next unlocked StClose) (StResume 1 Status.OK heartbeat_env) in
  let issued := next closed (StResume 0 Status.OK heartbeat_env) in
  calls unlocked = [SendUnlocked RpcUpdate] /\
  request_pending_ (peer (sys unlocked)) = true /\
  closed_ (peer (sys closed)) = true /\
  outstanding (sys closed) = [] /\
  outstanding (sys issued) = [RpcUpdate] /\ calls issued = [].
Proof. vm_compute. done. Qed.

End ConsensusPeersInterleaved.

(* ===================================================================== *)
(** * kudu/fs/dir_manager.cc : DirManager::UpdateHealthyInstances *)
(* ===================================================================== *)

Module DirManagerUpdate.
Import DirManagerMore.

Inductive UpdateInstanceBehavior : Type :=
| UPDATE_AND_IGNORE_FAILURES
| UPDATE_AND_ERROR_ON_FAILURE
| DONT_UPDATE.

(** What [UpdateHealthyInstances] reads or writes of a
    [DirInstanceMetadataFile]: the path of the instance file and the
    health status, which [SetInstanceFailed] overwrites; [healthy()] is
    [health_status().ok()]. *)
Record Instance : Type := mkInstance {
  path : string;
  health_status : Status.t
}.

Definition healthy (i : Instance) : bool := Status.ok (health_status i).

Definition SetInstanceFailed (i : Instance) (s : Status.t) : Instance :=
  mkInstance (path i) s.

(** The calls made on the file system, in program order: [CopyFile] and
    [WritePBContainerToPath] with the status they returned, and the
    [DeleteFile] and [RenameFile] of the scoped cleanup, whose statuses
    are only logged. *)
Inductive FsOp : Type :=
| OpCopyFile (src dst : string) (s : Status.t)
| OpWritePB (file : string) (s : Status.t)
| OpDeleteFile (file : string)
| OpRenameFile (src dst : string).

(** [InsertOrDie] on the [unordered_set] of copies. *)
Definition copies_InsertOrDie (s : gset string) (v : string) : option (gset string) :=
  if bool_decide (v ∈ s) then None else Some ({[v]} ∪ s).

Record Copies : Type := mkCopies {
  copies_to_delete : gset string;
  copies_to_restore : gmap string string
}.

Record Outcome : Type := mkOutcome {
  status : Status.t;
  instances : list Instance;
  ops : list FsOp;
  cleanup_ops : list FsOp
}.

Section Update.

(** [kTmpInfix] of [kudu/util/path_util.h], and what the file system
    answers to the copy and to the overwrite of the instance file at a
    given position of [instances_to_update]. *)
Variable kTmpInfix : string.
Variable copy_status : nat -> Status.t.
Variable write_status : nat -> Status.t.

Definition copy_filename (instance : Instance) : string :=
  String.append (path instance) kTmpInfix.

(** The first loop: a copy of every healthy instance file. *)
Fixpoint backup_loop (idx : nat) (insts : list Instance)
    (to_delete : gset string)
  : option (list Instance * gset string * list FsOp) :=
  match insts with
  | [] => Some ([], to_delete, [])
  | instance :: rest =>
      if negb (healthy instance) then
        r ← backup_loop (S idx) rest to_delete;
        Some (instance :: r.1.1, r.1.2, r.2)
      else
        let s := copy_status idx in
        let op := OpCopyFile (path instance) (copy_filename instance) s in
        if negb (Status.ok s) then
          r ← backup_loop (S idx) rest to_delete;
          Some (SetInstanceFailed instance (Status.CloneAndPrepend s) :: r.1.1,
                r.1.2, op :: r.2)
        else
          to_delete' ← copies_InsertOrDie to_delete (copy_filename instance);
          r ← backup_loop (S idx) rest to_delete';
          Some (instance :: r.1.1, r.1.2, op :: r.2)
  end.

(** The second loop: every instance that is still healthy is
    overwritten; [None] is the abort of [InsertOrDie] or of
    [CHECK_EQ(1, copies_to_delete.erase(copy_filename))]. *)
Fixpoint update_loop (idx : nat) (insts : list Instance) (c : Copies)
  : option (list Instance * Copies * list FsOp) :=
  match insts with
  | [] => Some ([], c, [])
  | instance :: rest =>
      if negb (healthy instance) then
        r ← update_loop (S idx) rest c;
        Some (instance :: r.1.1, r.1.2, r.2)
      else
        to_restore ← map_InsertOrDie (copies_to_restore c)
                        (copy_filename instance) (path instance);
        if bool_decide (copy_filename instance ∈ copies_to_delete c) then
          let c' := mkCopies (copies_to_delete c ∖ {[copy_filename instance]})
                             to_restore in
          let s := write_status idx in
          let instance' :=
            if negb (Status.ok s)
            then SetInstanceFailed instance (Status.CloneAndPrepend s)
            else instance in
          r ← update_loop (S idx) rest c';
          Some (instance' :: r.1.1, r.1.2, OpWritePB (path instance) s :: r.2)
        else None
  end.

(** The loop over [health_status()] under
    [UPDATE_AND_ERROR_ON_FAILURE]: the first status that is not OK. *)
Fixpoint first_failure (insts : list Instance) : option Status.t :=
  match insts with
  | [] => None
  | instance :: rest =>
      if negb (healthy instance) then Some (health_status instance)
      else first_failure rest
  end.

(** The scoped cleanup, run when the function returns. *)
Definition cleanup (c : Copies) : list FsOp :=
  (OpDeleteFile <$> elements (copies_to_delete c)) ++
  ((fun copy_and_original => OpRenameFile copy_and_original.1 copy_and_original.2)
     <$> map_to_list (copies_to_restore c)).

(** [DirManager::UpdateHealthyInstances]; [None] is an abort. *)
Definition UpdateHealthyInstances (update_instances : UpdateInstanceBehavior)
    (instances_to_update : list Instance) : option Outcome :=
  r1 ← backup_loop 0 instances_to_update ∅;
  r2 ← update_loop 0 r1.1.1 (mkCopies r1.1.2 ∅);
  let failure :=
    match update_instances with
    | UPDATE_AND_ERROR_ON_FAILURE => first_failure r2.1.1
    | _ => None
    end in
  match failure with
  | Some s =>
      Some (mkOutcome (Status.CloneAndPrepend s) r2.1.1 (r1.2 ++ r2.2)
              (cleanup r2.1.2))
  | None =>
      Some (mkOutcome Status.OK r2.1.1 (r1.2 ++ r2.2)
              (cleanup (mkCopies
                          (copies_to_delete r2.1.2 ∪ dom (copies_to_restore r2.1.2))
                          ∅)))
  end.

(** The instance file [p] was copied to its backup name with success. *)
Definition backed_up (l : list FsOp) (p : string) : Prop :=
  exists s, Status.ok s = true /\ OpCopyFile p (String.append p kTmpInfix) s ∈ l.

(** An overwrite of the instance file [p] was attempted. *)
Definition written (l : list FsOp) (p : string) : Prop :=
  exists s, OpWritePB p s ∈ l.

Definition is_copy (op : FsOp) : Prop :=
  match op with OpCopyFile _ _ _ => True | _ => False end.

Definition is_write (op : FsOp) : Prop :=
  match op with OpWritePB _ _ => True | _ => False end.

Lemma length_append (a b : string) :
  String.length (String.append a b) = (String.length a + String.length b)%nat.
Proof.
  induction a as [|c a IH]; [done|].
  change (S (String.length (String.append a b))
          = S (String.length a + String.length b)).
  by rewrite IH.
Qed.

Lemma append_inj_r (t a b : string) :
  String.append a t = String.append b t -> a = b.
Proof.
  revert b. induction a as [|c a IH]; intros [|d b] Heq.
  - done.
  - apply (f_equal String.length) in Heq.
    rewrite !length_append in Heq. cbn [String.length] in Heq. lia.
  - apply (f_equal String.length) in Heq.
    rewrite !length_append in Heq. cbn [String.length] in Heq. lia.
  - change (String c (String.append a t) = String d (String.append b t)) in Heq.
    injection Heq as -> Heq. f_equal. by apply IH.
Qed.

Lemma NoDup_copy_filenames insts :
  NoDup (path <$> insts) -> NoDup (copy_filename <$> insts).
Proof.
  intros Hnd. replace (copy_filename <$> insts)
    with ((fun p => String.append p kTmpInfix) <$> (path <$> insts))
    by (by rewrite <- list_fmap_compose).
  apply NoDup_fmap_2; [|done]. intros a b. apply append_inj_r.
Qed.

Lemma backup_loop_spec : forall insts idx to_delete,
  NoDup (copy_filename <$> insts) ->
  (forall i, i ∈ insts -> copy_filename i ∉ to_delete) ->
  exists insts1 to_delete1 ops1,
    backup_loop idx insts to_delete = Some (insts1, to_delete1, ops1) /\
    path <$> insts1 = path <$> insts /\
    (forall f, f ∈ to_delete1 <->
       f ∈ to_delete \/
       exists i, i ∈ insts1 /\ healthy i = true /\ f = copy_filename i) /\
    (forall p f s, OpCopyFile p f s ∈ ops1 -> Status.ok s = true ->
       exists i, i ∈ insts1 /\ healthy i = true /\ p = path i) /\
    (forall i, i ∈ insts1 -> healthy i = true ->
       exists s, Status.ok s = true /\
                 OpCopyFile (path i) (copy_filename i) s ∈ ops1) /\
    Forall is_copy ops1.
Proof.
  induction insts as [|inst rest IH]; intros idx to_delete Hnd Hfresh.
  { exists [], to_delete, []. cbn. split_and!; try done.
    - intros f. split; [by left|]. intros [?|(i & Hi & _)]; [done|].
      by apply elem_of_nil in Hi.
    - intros p f s Hin. by apply elem_of_nil in Hin.
    - intros i Hi. by apply elem_of_nil in Hi. }
  cbn [fmap list_fmap] in Hnd. apply NoDup_cons in Hnd as [Hnew Hnd].
  assert (Hrest : forall i, i ∈ rest -> copy_filename i ∉ to_delete).
  { intros i Hi. apply Hfresh. by right. }
  cbn [backup_loop].
  destruct (healthy inst) eqn:Hh; cbn [negb].
  - destruct (Status.ok (copy_status idx)) eqn:Hok; cbn [negb].
    + unfold copies_InsertOrDie.
      rewrite bool_decide_eq_false_2 by (apply Hfresh; by left). cbn.
      destruct (IH (S idx) ({[copy_filename inst]} ∪ to_delete) Hnd)
        as (insts1 & del1 & ops1 & -> & Hpaths & Hdel & Hcopied & Hhealthy & Hall).
      { intros i Hi. rewrite elem_of_union, elem_of_singleton.
        intros [Heq|Hin]; [|by apply (Hrest i)].
        apply Hnew. rewrite <- Heq. by apply list_elem_of_fmap_2. }
      cbn. eexists _, _, _. split; [reflexivity|]. split_and!.
      * cbn. by rewrite Hpaths.
      * intros f. rewrite Hdel, elem_of_union, elem_of_singleton. split.
        -- intros [[->|?]|(i & Hi & Hhi & ->)]; [right|by left|right].
           ++ exists inst. split_and!; [by left|done|done].
           ++ exists i. split_and!; [by right|done|done].
        -- intros [?|(i & Hi & Hhi & ->)]; [by left; right|].
           apply elem_of_cons in Hi as [->|Hi]; [by left; left|].
           right. by exists i.
      * intros p f s Hin Hs. apply elem_of_cons in Hin as [[= -> -> ->]|Hin].
        -- exists inst. split_and!; [by left|done|done].
        -- destruct (Hcopied p f s Hin Hs) as (i & Hi & Hhi & ->).
           exists i. split_and!; [by right|done|done].
      * intros i Hi Hhi. apply elem_of_cons in Hi as [->|Hi].
        -- exists (copy_status idx). split; [done|by left].
        -- destruct (Hhealthy i Hi Hhi) as (s & Hs & Hin).
           exists s. split; [done|by right].
      * by constructor.
    + destruct (IH (S idx) to_delete Hnd Hrest)
        as (insts1 & del1 & ops1 & -> & Hpaths & Hdel & Hcopied & Hhealthy & Hall).
      cbn. eexists _, _, _. split; [reflexivity|]. split_and!.
      * cbn. by rewrite Hpaths.
      * intros f. rewrite Hdel. split.
        -- intros [?|(i & Hi & Hhi & ->)]; [by left|right].
           exists i. split_and!; [by right|done|done].
        -- intros [?|(i & Hi & Hhi & ->)]; [by left|].
           apply elem_of_cons in Hi as [->|Hi].
           ++ unfold healthy, SetInstanceFailed, Status.CloneAndPrepend in Hhi.
              cbn in Hhi. congruence.
           ++ right. by exists i.
      * intros p f s Hin Hs. apply elem_of_cons in Hin as [[= -> -> ->]|Hin].
        -- congruence.
        -- destruct (Hcopied p f s Hin Hs) as (i & Hi & Hhi & ->).
           exists i. split_and!; [by right|done|done].
      * intros i Hi Hhi. apply elem_of_cons in Hi as [->|Hi].
        -- unfold healthy, SetInstanceFailed, Status.CloneAndPrepend in Hhi.
           cbn in Hhi. congruence.
        -- destruct (Hhealthy i Hi Hhi) as (s & Hs & Hin).
           exists s. split; [done|by right].
      * by constructor.
  - destruct (IH (S idx) to_delete Hnd Hrest)
      as (insts1 & del1 & ops1 & -> & Hpaths & Hdel & Hcopied & Hhealthy & Hall).
    cbn. eexists _, _, _. split; [reflexivity|]. split_and!.
    + cbn. by rewrite Hpaths.
    + intros f. rewrite Hdel. split.
      * intros [?|(i & Hi & Hhi & ->)]; [by left|right].
        exists i. split_and!; [by right|done|done].
      * intros [?|(i & Hi & Hhi & ->)]; [by left|].
        apply elem_of_cons in Hi as [->|Hi]; [congruence|].
        right. by exists i.
    + intros p f s Hin Hs.
      destruct (Hcopied p f s Hin Hs) as (i & Hi & Hhi & ->).
      exists i. split_and!; [by right|done|done].
    + intros i Hi Hhi. apply elem_of_cons in Hi as [->|Hi]; [congruence|].
      by apply Hhealthy.
    + done.
Qed.

Lemma update_loop_spec : forall insts idx c,
  NoDup (copy_filename <$> insts) ->
  (forall i, i ∈ insts -> healthy i = true ->
     copy_filename i ∈ copies_to_delete c /\
     copies_to_restore c !! copy_filename i = None) ->
  exists insts2 c2 ops2,
    update_loop idx insts c = Some (insts2, c2, ops2) /\
    path <$> insts2 = path <$> insts /\
    (forall f, f ∈ copies_to_delete c2 <->
       f ∈ copies_to_delete c /\
       ~ exists i, i ∈ insts /\ healthy i = true /\ f = copy_filename i) /\
    (forall k o, copies_to_restore c2 !! k = Some o <->
       copies_to_restore c !! k = Some o \/
       exists i, i ∈ insts /\ healthy i = true /\
                 k = copy_filename i /\ o = path i) /\
    (forall p, written ops2 p <->
       exists i, i ∈ insts /\ healthy i = true /\ p = path i) /\
    (forall i2, i2 ∈ insts2 -> healthy i2 = true ->
       exists i, i ∈ insts /\ healthy i = true /\ path i = path i2) /\
    Forall is_write ops2.
Proof.
  induction insts as [|inst rest IH]; intros idx c Hnd Hready.
  { exists [], c, []. cbn. split_and!; try done.
    - intros f. split; [|by intros [? _]]. intros Hf. split; [done|].
      intros (i & Hi & _). by apply elem_of_nil in Hi.
    - intros k o. split; [by left|]. intros [?|(i & Hi & _)]; [done|].
      by apply elem_of_nil in Hi.
    - intros p. split.
      + intros (s & Hin). by apply elem_of_nil in Hin.
      + intros (i & Hi & _). by apply elem_of_nil in Hi.
    - intros i Hi. by apply elem_of_nil in Hi. }
  cbn [fmap list_fmap] in Hnd. apply NoDup_cons in Hnd as [Hnew Hnd].
  assert (Hother : forall i, i ∈ rest -> copy_filename i <> copy_filename inst).
  { intros i Hi Heq. apply Hnew. rewrite <- Heq. by apply list_elem_of_fmap_2. }
  cbn [update_loop].
  destruct (healthy inst) eqn:Hh; cbn [negb].
  - destruct (Hready inst ltac:(by left) Hh) as [Hdel0 Hres0].
    unfold map_InsertOrDie. rewrite Hres0. cbn.
    rewrite bool_decide_eq_true_2 by done.
    set (c' := mkCopies (copies_to_delete c ∖ {[copy_filename inst]})
                 (<[copy_filename inst := path inst]> (copies_to_restore c))).
    destruct (IH (S idx) c' Hnd)
      as (insts2 & c2 & ops2 & -> & Hpaths & Hdel & Hres & Hwr & Hback & Hall).
    { intros i Hi Hhi. destruct (Hready i ltac:(by right) Hhi) as [Hd Hr].
      pose proof (Hother i Hi). subst c'. cbn. split.
      - apply elem_of_difference. split; [done|]. by rewrite elem_of_singleton.
      - by rewrite lookup_insert_ne. }
    cbn. eexists _, _, _. split; [reflexivity|]. split_and!.
    + cbn. rewrite Hpaths. by destruct (negb (Status.ok (write_status idx))).
    + intros f. rewrite Hdel. subst c'. cbn.
      rewrite elem_of_difference, elem_of_singleton. split.
      * intros [[Hf Hne] Hnone]. split; [done|].
        intros (i & Hi & Hhi & ->). apply elem_of_cons in Hi as [->|Hi]; [done|].
        apply Hnone. by exists i.
      * intros [Hf Hnone]. split_and!; [done| |].
        -- intros ->. apply Hnone. exists inst. split_and!; [by left|done|done].
        -- intros (i & Hi & Hhi & ->). apply Hnone. exists i.
           split_and!; [by right|done|done].
    + intros k o. rewrite Hres. subst c'. cbn. split.
      * intros [Hl|(i & Hi & Hhi & -> & ->)].
        -- destruct (decide (copy_filename inst = k)) as [<-|Hne].
           ++ rewrite lookup_insert_eq in Hl. injection Hl as <-.
              right. exists inst. split_and!; [by left|done|done|done].
           ++ rewrite lookup_insert_ne in Hl by done. by left.
        -- right. exists i. split_and!; [by right|done|done|done].
      * intros [Hl|(i & Hi & Hhi & -> & ->)].
        -- left. rewrite lookup_insert_ne; [done|]. intros <-. congruence.
        -- apply elem_of_cons in Hi as [->|Hi].
           ++ left. by rewrite lookup_insert_eq.
           ++ right. by exists i.
    + intros p. split.
      * intros (s & Hin). apply elem_of_cons in Hin as [[= -> ->]|Hin].
        -- exists inst. split_and!; [by left|done|done].
        -- destruct (proj1 (Hwr p) (ex_intro _ s Hin)) as (i & Hi & Hhi & ->).
           exists i. split_and!; [by right|done|done].
      * intros (i & Hi & Hhi & ->). apply elem_of_cons in Hi as [->|Hi].
        -- exists (write_status idx). by left.
        -- destruct (proj2 (Hwr (path i))) as (s & Hin); [by exists i|].
           exists s. by right.
    + intros i2 Hi2 Hhi2. apply elem_of_cons in Hi2 as [->|Hi2].
      * exists inst. split_and!; [by left|done|].
        by destruct (negb (Status.ok (write_status idx))).
      * destruct (Hback i2 Hi2 Hhi2) as (i & Hi & Hhi & Hp).
        exists i. split_and!; [by right|done|done].
    + by constructor.
  - destruct (IH (S idx) c Hnd)
      as (insts2 & c2 & ops2 & -> & Hpaths & Hdel & Hres & Hwr & Hback & Hall).
    { intros i Hi Hhi. apply Hready; [by right|done]. }
    cbn. eexists _, _, _. split; [reflexivity|]. split_and!.
    + cbn. by rewrite Hpaths.
    + intros f. rewrite Hdel. split.
      * intros [Hf Hnone]. split; [done|].
        intros (i & Hi & Hhi & ->). apply elem_of_cons in Hi as [->|Hi]; [congruence|].
        apply Hnone. by exists i.
      * intros [Hf Hnone]. split; [done|].
        intros (i & Hi & Hhi & ->). apply Hnone. exists i.
        split_and!; [by right|done|done].
    + intros k o. rewrite Hres. split.
      * intros [?|(i & Hi & Hhi & -> & ->)]; [by left|right].
        exists i. split_and!; [by right|done|done|done].
      * intros [?|(i & Hi & Hhi & -> & ->)]; [by left|].
        apply elem_of_cons in Hi as [->|Hi]; [congruence|].
        right. by exists i.
    + intros p. rewrite Hwr. split.
      * intros (i & Hi & Hhi & ->). exists i. split_and!; [by right|done|done].
      * intros (i & Hi & Hhi & ->). apply elem_of_cons in Hi as [->|Hi]; [congruence|].
        by exists i.
    + intros i2 Hi2 Hhi2. apply elem_of_cons in Hi2 as [->|Hi2]; [congruence|].
      destruct (Hback i2 Hi2 Hhi2) as (i & Hi & Hhi & Hp).
      exists i. split_and!; [by right|done|done].
    + done.
Qed.

Lemma first_failure_Some insts s :
  first_failure insts = Some s ->
  Status.ok s = false /\ exists i, i ∈ insts /\ healthy i = false.
Proof.
  induction insts as [|inst rest IH]; cbn; [done|].
  destruct (healthy inst) eqn:Hh; cbn.
  - intros Hf. destruct (IH Hf) as (Hs & i & Hi & Hhi).
    split; [done|]. exists i. split; [by right|done].
  - intros [= <-]. split; [done|]. exists inst. split; [by left|done].
Qed.

Lemma first_failure_None insts :
  first_failure insts = None -> forall i, i ∈ insts -> healthy i = true.
Proof.
  induction insts as [|inst rest IH]; cbn.
  - intros _ i Hi. by apply elem_of_nil in Hi.
  - destruct (healthy inst) eqn:Hh; cbn; [|done].
    intros Hf i Hi. apply elem_of_cons in Hi as [->|Hi]; [done|by apply IH].
Qed.

Lemma elem_of_cleanup_delete c f :
  OpDeleteFile f ∈ cleanup c <-> f ∈ copies_to_delete c.
Proof.
  unfold cleanup. rewrite elem_of_app, !list_elem_of_fmap. split.
  - intros [(g & [= ->] & Hg)|([k o] & Heq & _)]; [|done].
    by apply elem_of_elements in Hg.
  - intros Hf. left. exists f. split; [done|]. by apply elem_of_elements.
Qed.

Lemma elem_of_cleanup_rename c k o :
  OpRenameFile k o ∈ cleanup c <-> copies_to_restore c !! k = Some o.
Proof.
  unfold cleanup. rewrite elem_of_app, !list_elem_of_fmap. split.
  - intros [(g & Heq & _)|([k' o'] & [= -> ->] & Hin)]; [done|].
    by apply elem_of_map_to_list in Hin.
  - intros Hl. right. exists (k, o). split; [done|].
    by apply elem_of_map_to_list.
Qed.

(** [UpdateHealthyInstances] on instance files with pairwise distinct
    paths, whatever the copies and the overwrites answer: no
    [InsertOrDie] and no [CHECK_EQ] aborts; all copies come before all
    overwrites, and a file is overwritten exactly when its backup copy
    had succeeded. The status is not OK exactly under
    [UPDATE_AND_ERROR_ON_FAILURE] with some instance unhealthy at the
    end; in that case the cleanup renames the backup of every file that
    was overwritten (whether the overwrite succeeded or not) back over
    it and deletes nothing. When the status is OK the cleanup deletes
    exactly the backups made and renames nothing: under
    [UPDATE_AND_IGNORE_FAILURES] a file whose overwrite failed is not
    restored. *)
Theorem UpdateHealthyInstances_rollback (mode : UpdateInstanceBehavior)
    (insts : list Instance) :
  NoDup (path <$> insts) ->
  exists out,
    UpdateHealthyInstances mode insts = Some out /\
    path <$> instances out = path <$> insts /\
    (exists copies writes,
       ops out = copies ++ writes /\ Forall is_copy copies /\
       Forall is_write writes) /\
    (forall p, written (ops out) p <-> backed_up (ops out) p) /\
    (Status.ok (status out) = false <->
     mode = UPDATE_AND_ERROR_ON_FAILURE /\
     exists i, i ∈ instances out /\ healthy i = false) /\
    (Status.ok (status out) = false ->
     (forall k o, OpRenameFile k o ∈ cleanup_ops out <->
                  written (ops out) o /\ k = String.append o kTmpInfix) /\
     (forall f, OpDeleteFile f ∉ cleanup_ops out)) /\
    (Status.ok (status out) = true ->
     (forall f, OpDeleteFile f ∈ cleanup_ops out <->
                exists p, backed_up (ops out) p /\ f = String.append p kTmpInfix) /\
     (forall k o, OpRenameFile k o ∉ cleanup_ops out)).
Proof.
  intros Hnd. pose proof (NoDup_copy_filenames insts Hnd) as Hndc.
  destruct (backup_loop_spec insts 0 ∅ Hndc)
    as (insts1 & del1 & ops1 & Hrun1 & Hpaths1 & Hdel1 & Hcopied & Hhealthy1 & Hall1).
  { intros i _. apply not_elem_of_empty. }
  assert (Hndc1 : NoDup (copy_filename <$> insts1)).
  { apply NoDup_copy_filenames. by rewrite Hpaths1. }
  destruct (update_loop_spec insts1 0 (mkCopies del1 ∅) Hndc1)
    as (insts2 & c2 & ops2 & Hrun2 & Hpaths2 & Hdel2 & Hres2 & Hwr & Hback & Hall2).
  { intros i Hi Hhi. cbn. split; [|apply lookup_empty].
    apply Hdel1. right. by exists i. }
  cbn in Hdel2, Hres2.
  assert (Hwritten : forall p, written (ops1 ++ ops2) p <->
            exists i, i ∈ insts1 /\ healthy i = true /\ p = path i).
  { intros p. rewrite <- Hwr. unfold written. split.
    - intros (s & Hin). apply elem_of_app in Hin as [Hin|Hin]; [|by exists s].
      rewrite Forall_forall in Hall1. by apply Hall1 in Hin.
    - intros (s & Hin). exists s. apply elem_of_app. by right. }
  assert (Hbacked : forall p, backed_up (ops1 ++ ops2) p <->
            exists i, i ∈ insts1 /\ healthy i = true /\ p = path i).
  { intros p. unfold backed_up. split.
    - intros (s & Hs & Hin). apply elem_of_app in Hin as [Hin|Hin].
      + by apply (Hcopied _ _ _ Hin Hs).
      + rewrite Forall_forall in Hall2. by apply Hall2 in Hin.
    - intros (i & Hi & Hhi & ->). destruct (Hhealthy1 i Hi Hhi) as (s & Hs & Hin).
      exists s. split; [done|]. apply elem_of_app. by left. }
  assert (Hdrained : forall f, f ∉ copies_to_delete c2).
  { intros f Hf. apply Hdel2 in Hf as [Hf Hnone]. apply Hnone.
    apply Hdel1 in Hf as [Hf|Hf]; [by apply not_elem_of_empty in Hf|done]. }
  assert (Hrestore : forall k o, copies_to_restore c2 !! k = Some o <->
            written (ops1 ++ ops2) o /\ k = String.append o kTmpInfix).
  { intros k o. rewrite Hres2, Hwritten, lookup_empty. split.
    - intros [?|(i & Hi & Hhi & -> & ->)]; [done|]. split; [by exists i|done].
    - intros [(i & Hi & Hhi & ->) ->]. right. by exists i. }
  unfold UpdateHealthyInstances. rewrite Hrun1. cbn. rewrite Hrun2. cbn.
  destruct (match mode with
            | UPDATE_AND_ERROR_ON_FAILURE => first_failure insts2
            | _ => None
            end) as [s|] eqn:Hfail.
  - assert (Hmode : mode = UPDATE_AND_ERROR_ON_FAILURE) by (by destruct mode).
    subst mode. apply first_failure_Some in Hfail as (Hs & Hbad).
    eexists. split; [reflexivity|]. cbn. split_and!.
    + by rewrite Hpaths2.
    + by exists ops1, ops2.
    + intros p. by rewrite Hwritten, Hbacked.
    + done.
    + intros _. split.
      * intros k o. by rewrite elem_of_cleanup_rename.
      * intros f. rewrite elem_of_cleanup_delete. apply Hdrained.
    + unfold Status.CloneAndPrepend. congruence.
  - eexists. split; [reflexivity|]. cbn. split_and!.
    + by rewrite Hpaths2.
    + by exists ops1, ops2.
    + intros p. by rewrite Hwritten, Hbacked.
    + split; [done|]. intros [-> (i & Hi & Hhi)].
      rewrite (first_failure_None insts2 Hfail i Hi) in Hhi. done.
    + done.
    + intros _. split.
      * intros f. rewrite elem_of_cleanup_delete. cbn.
        rewrite elem_of_union, elem_of_dom. split.
        -- intros [Hf|[o Ho]]; [by apply Hdrained in Hf|].
           apply Hrestore in Ho as [Hw ->]. exists o. split; [|done].
           by apply Hbacked, Hwritten.
        -- intros (p & Hb & ->). right. exists p. apply Hrestore.
           split; [|done]. by apply Hwritten, Hbacked.
      * intros k o. rewrite elem_of_cleanup_rename. cbn. by rewrite lookup_empty.
Qed.

End Update.

(** Two instance files are backed up; the overwrite of the second one
    fails with an IO error. *)
Definition two_instances : list Instance :=
  [mkInstance "/data/0/instance" Status.OK; mkInstance "/data/1/instance" Status.OK].

Definition second_write_fails (idx : nat) : Status.t :=
  match idx with 1%nat => Status.IOError 5 | _ => Status.OK end.

Lemma UpdateHealthyInstances_rollback_witness :
  exists out,
    UpdateHealthyInstances ".kudutmp" (fun _ => Status.OK) second_write_fails
      UPDATE_AND_ERROR_ON_FAILURE two_instances = Some out /\
    Status.ok (status out) = false /\
    OpRenameFile "/data/0/instance.kudutmp" "/data/0/instance" ∈ cleanup_ops out /\
    OpRenameFile "/data/1/instance.kudutmp" "/data/1/instance" ∈ cleanup_ops out.
Proof.
  destruct (UpdateHealthyInstances_rollback ".kudutmp" (fun _ => Status.OK)
              second_write_fails UPDATE_AND_ERROR_ON_FAILURE two_instances)
    as (out & Hrun & _ & _ & _ & Hstatus & Herr & _).
  { cbn. apply NoDup_cons. split; [|apply NoDup_singleton].
    intros Hin. apply list_elem_of_singleton in Hin. discriminate. }
  assert (Hbad : Status.ok (status out) = false).
  { vm_compute in Hrun. injection Hrun as <-. reflexivity. }
  exists out. split; [exact Hrun|]. split; [exact Hbad|].
  destruct (Herr Hbad) as [Hrename _].
  split; apply Hrename; (split; [|reflexivity]);
    vm_compute in Hrun; injection Hrun as <-; eexists; cbn.
  - apply list_elem_of_further, list_elem_of_further, list_elem_of_here.
  - apply list_elem_of_further, list_elem_of_further, list_elem_of_further,
      list_elem_of_here.
Defined.

End DirManagerUpdate.

(* ===================================================================== *)
(** * kudu/fs/dir_manager.cc : the second half of DirManager::Open *)
(* ===================================================================== *)

Module DirManagerOpen.
Import DirManager DirManagerFacts DirManagerMore.

Inductive FsType : Type := EXT | XFS | OTHER.

(** What the environment answers while the directory at one position is
    set up: [IsOnExtFilesystem] and [IsOnXfsFilesystem] with the value
    they leave in [result], and [ThreadPoolBuilder::Build]. *)
Record FsCheck : Type := mkFsCheck {
  ext_status : Status.t;
  ext_result : bool;
  xfs_status : Status.t;
  xfs_result : bool;
  pool_status : Status.t
}.

(** What [Open] returns: a status returned before [dirs_] is assigned,
    or the status of the last loop with the instances, the directories,
    the manager and the [dirs_full] gauge as they are then. *)
Inductive OpenResult : Type :=
| OpenError (s : Status.t)
| OpenDone (s : Status.t) (infos : list DirInfo) (dds : list Dir) (dm : t)
           (gauge : option Z).

(** [instance->SetInstanceFailed(s)]: the instance is healthy when its
    status is OK. *)
Definition SetInstanceFailed (instance : DirInfo) (s : Status.t) : DirInfo :=
  mkDirInfo (dir_uuid instance) (Status.ok s) (dir_path instance).

(** The [Dir] that the constructor makes; the gauge is the one of the
    [DirMetrics] shared by all directories, so the field of one
    directory is only the value it saw last. *)
Definition Dir_new (gauge : option Z) : Dir := mkDir false 0 0 gauge.

Definition with_gauge (d : Dir) (gauge : option Z) : Dir :=
  mkDir (is_full_ d) (available_bytes_ d) (last_space_check_ d) gauge.

(** The two classes of directory that [dir_manager.cc] defines. Which
    one [CreateNewDir] constructs is decided by the subclass of
    [DirManager] that implements this virtual function; no
    implementation is among the sources. *)
Inductive DirClass : Type := PlainDir | RocksDbDir.

Section Open.

(** [ENOSPC], the gflag of the space cache, [Status::IsDiskFailure] of
    [kudu/util/status.h] (not among the sources), and what the clock,
    the disk and the environment answer for the directory at a given
    position. *)
Variable ENOSPC : Z.
Variable FLAGS_fs_data_dirs_available_space_cache_seconds : Z.
Variable IsDiskFailure : Status.t -> bool.
Variable now_check : nat -> MonoTime.
Variable verify : nat -> Status.t * Z.
Variable now_update : nat -> MonoTime.
Variable fs_checks : nat -> FsCheck.
Variable DirName : string -> string.

(** The class that [CreateNewDir] constructs, and the status of
    [RdbDir::InitRocksDBInstance] for the directory at a given
    position. *)
Variable dir_class : DirClass.
Variable InitRocksDBInstance : nat -> Status.t.

(** [RdbDir::RdbDir], as far as the instance file goes: a healthy
    instance is marked failed when the RocksDB instance cannot be
    initialised; an unhealthy one is left alone. [Dir::Dir] only stores
    its arguments. *)
Definition RdbDir_new (idx : nat) (metadata_file : DirInfo) : DirInfo :=
  if negb (dir_healthy metadata_file) then metadata_file
  else
    let s := InitRocksDBInstance idx in
    if negb (Status.ok s)
    then SetInstanceFailed metadata_file (Status.CloneAndPrepend s)
    else metadata_file.

(** [CreateNewDir(env_, metrics_.get(), fs_type, dir, std::move(instance),
    std::move(pool))]: the instance as the directory made holds it. *)
Definition CreateNewDir (idx : nat) (instance : DirInfo) : DirInfo :=
  match dir_class with
  | PlainDir => instance
  | RocksDbDir => RdbDir_new idx instance
  end.

(** "Figure out what filesystem the directory is on": [fs_check] and
    [fs_type] when the tests are done. *)
Definition check_fs_type (c : FsCheck) : Status.t * FsType :=
  if Status.ok (ext_status c) then
    if ext_result c then (ext_status c, EXT)
    else (xfs_status c,
          if Status.ok (xfs_status c) && xfs_result c then XFS else OTHER)
  else (ext_status c, OTHER).

(** The loop that creates the in-memory directory structures, from
    position [idx] on: the status returned early, or OK with the
    instances and the file system types of the directories made, the
    instances as they are once the directories are constructed. *)
Fixpoint create_dirs (idx : nat) (loaded_instances : list DirInfo)
  : Status.t * list (DirInfo * FsType) :=
  match loaded_instances with
  | [] => (Status.OK, [])
  | instance :: rest =>
      let c := fs_checks idx in
      let '(returned, instance', fs_type) :=
        if dir_healthy instance then
          let '(fs_check, fs_type) := check_fs_type c in
          if IsDiskFailure fs_check
          then (Status.OK,
                SetInstanceFailed instance (Status.CloneAndPrepend fs_check),
                fs_type)
          else (fs_check, instance, fs_type)
        else (Status.OK, instance, OTHER) in
      if negb (Status.ok returned) then (returned, [])
      else if negb (Status.ok (pool_status c)) then (pool_status c, [])
      else
        let new_dir := CreateNewDir idx instance' in
        let '(s, dirs) := create_dirs (S idx) rest in
        (s, (new_dir, fs_type) :: dirs)
  end.

(** [dd->RefreshAvailableSpace(Dir::RefreshMode::ALWAYS)] on the
    directory at position [idx], the shared gauge being [gauge]. *)
Definition refresh (idx : nat) (gauge : option Z) (dd : Dir) : Status.t * Dir :=
  RefreshAvailableSpace ENOSPC FLAGS_fs_data_dirs_available_space_cache_seconds
    (with_gauge dd gauge) ALWAYS (now_check idx) (verify idx) (now_update idx).

(** The last loop of [DirManager::Open], "Initialize the 'fullness'
    status of the directories", from position [idx] of [dirs_] on. The
    pointer of a directory is its position. [None] is the abort of
    [CHECK(FindUuidIndexByDir(...))]; otherwise the status returned, the
    directories, the manager and the gauge. *)
Fixpoint fullness_loop (m : Maps) (idx : nat) (dds : list Dir)
    (gauge : option Z) (dm : t) : option (Status.t * list Dir * t * option Z) :=
  match dds with
  | [] => Some (Status.OK, [], dm, gauge)
  | dd :: rest =>
      uuid_idx ← FindUuidIndexByDir m idx;
      if bool_decide (uuid_idx ∈ failed_dirs_ dm) then
        r ← fullness_loop m (S idx) rest gauge dm;
        Some (r.1.1.1, dd :: r.1.1.2, r.1.2, r.2)
      else
        let '(refresh_status, dd') := refresh idx gauge dd in
        if negb (Status.ok refresh_status) then
          if IsDiskFailure refresh_status then
            let '(s, dm') := MarkDirFailed dm uuid_idx in
            if negb (Status.ok s) then Some (s, dd' :: rest, dm', dirs_full dd')
            else
              r ← fullness_loop m (S idx) rest (dirs_full dd') dm';
              Some (r.1.1.1, dd' :: r.1.1.2, r.1.2, r.2)
          else Some (refresh_status, dd' :: rest, dm, dirs_full dd')
        else
          r ← fullness_loop m (S idx) rest (dirs_full dd') dm;
          Some (r.1.1.1, dd' :: r.1.1.2, r.1.2, r.2)
  end.

(** The manager once [PopulateDirectoryMaps] has filled the maps and
    [dirs_] has been assigned. *)
Definition manager_of (infos : list DirInfo) (m : Maps) : t :=
  mk (dir_path <$> infos) (m_failed_dirs_ m) (m_dirs_failed m) [].

(** [DirManager::Open] from "Time to create the in-memory directory
    structures" on, given the instances loaded and the gauges of the
    metrics ([None] without metrics). [None] is an abort. The deletion
    of temporary files on the thread pools of the healthy directories,
    which only logs its errors, is left out. *)
Definition Open_tail (loaded_instances : list DirInfo)
    (dirs_failed_gauge dirs_full_gauge : option Z) : option OpenResult :=
  let '(s, dirs) := create_dirs 0 loaded_instances in
  if negb (Status.ok s) then Some (OpenError s)
  else
    let infos := fst <$> dirs in
    m ← PopulateDirectoryMaps DirName infos (empty_maps dirs_failed_gauge);
    r ← fullness_loop m 0 (replicate (length dirs) (Dir_new dirs_full_gauge))
          dirs_full_gauge (manager_of infos m);
    Some (OpenDone r.1.1.1 infos r.1.1.2 r.1.2 r.2).

(** What the last loop leaves for the directory at position [i], which
    was [dd] before and is [dd'] after: a directory reported failed was
    already failed or its poll hit a disk failure; a directory not
    reported failed was not failed and holds the result of a poll that
    succeeded. *)
Definition settled (dm dm' : t) (i : nat) (dd dd' : Dir) : Prop :=
  if bool_decide (Z.of_nat i ∈ failed_dirs_ dm') then
    Z.of_nat i ∈ failed_dirs_ dm \/
    exists gauge, Status.ok (refresh i gauge dd).1 = false /\
                  IsDiskFailure (refresh i gauge dd).1 = true
  else
    (Z.of_nat i ∉ failed_dirs_ dm) /\
    exists gauge, Status.ok (refresh i gauge dd).1 = true /\
                  dd' = (refresh i gauge dd).2.

Local Arguments refresh : simpl never.
Local Arguments MarkDirFailed : simpl never.

Lemma fullness_loop_spec (m : Maps) : forall dds idx gauge dm,
  (forall i, (idx <= i < idx + length dds)%nat ->
             FindUuidIndexByDir m i = Some (Z.of_nat i)) ->
  (idx + length dds)%nat = length (dirs_ dm) ->
  failed_dirs_ dm ⊆ all_indexes dm ->
  exists st dds' dm' gauge',
    fullness_loop m idx dds gauge dm = Some (st, dds', dm', gauge') /\
    dirs_ dm' = dirs_ dm /\
    (Status.ok st = true ->
     failed_dirs_ dm' ⊆ all_indexes dm' /\
     failed_dirs_ dm ⊆ failed_dirs_ dm' /\
     ((size (failed_dirs_ dm) < length (dirs_ dm))%nat ->
      (size (failed_dirs_ dm') < length (dirs_ dm'))%nat) /\
     (forall j, (j < idx)%nat ->
        Z.of_nat j ∈ failed_dirs_ dm' <-> Z.of_nat j ∈ failed_dirs_ dm) /\
     (forall k dd, dds !! k = Some dd ->
        exists dd', dds' !! k = Some dd' /\ settled dm dm' (idx + k) dd dd')).
Proof.
  induction dds as [|dd rest IH]; intros idx gauge dm Hfind Hlen Hsub.
  { exists Status.OK, [], dm, gauge. cbn. split_and!; done. }
  cbn [fullness_loop].
  rewrite (Hfind idx) by (cbn; lia). cbn.
  assert (Hfind' : forall i, (S idx <= i < S idx + length rest)%nat ->
                             FindUuidIndexByDir m i = Some (Z.of_nat i)).
  { intros i Hi. apply Hfind. cbn. lia. }
  assert (Hlen' : (S idx + length rest)%nat = length (dirs_ dm)).
  { cbn in Hlen. lia. }
  (* the conclusion for the positions from [idx] on, from the one for
     the positions from [S idx] on *)
  assert (Hrest : forall dm1 st dds' dm' dd0,
    dirs_ dm1 = dirs_ dm ->
    (forall j, Z.of_nat j ∈ failed_dirs_ dm1 <->
               ((j = idx /\ Z.of_nat idx ∈ failed_dirs_ dm1) \/
                Z.of_nat j ∈ failed_dirs_ dm)) ->
    failed_dirs_ dm ⊆ failed_dirs_ dm1 ->
    ((size (failed_dirs_ dm) < length (dirs_ dm))%nat ->
     (size (failed_dirs_ dm1) < length (dirs_ dm1))%nat) ->
    settled dm dm1 idx dd dd0 ->
    dirs_ dm' = dirs_ dm1 /\
    (Status.ok st = true ->
     failed_dirs_ dm' ⊆ all_indexes dm' /\
     failed_dirs_ dm1 ⊆ failed_dirs_ dm' /\
     ((size (failed_dirs_ dm1) < length (dirs_ dm1))%nat ->
      (size (failed_dirs_ dm') < length (dirs_ dm'))%nat) /\
     (forall j, (j < S idx)%nat ->
        Z.of_nat j ∈ failed_dirs_ dm' <-> Z.of_nat j ∈ failed_dirs_ dm1) /\
     (forall k dd1, rest !! k = Some dd1 ->
        exists dd', dds' !! k = Some dd' /\ settled dm1 dm' (S idx + k) dd1 dd')) ->
    dirs_ dm' = dirs_ dm /\
    (Status.ok st = true ->
     failed_dirs_ dm' ⊆ all_indexes dm' /\
     failed_dirs_ dm ⊆ failed_dirs_ dm' /\
     ((size (failed_dirs_ dm) < length (dirs_ dm))%nat ->
      (size (failed_dirs_ dm') < length (dirs_ dm'))%nat) /\
     (forall j, (j < idx)%nat ->
        Z.of_nat j ∈ failed_dirs_ dm' <-> Z.of_nat j ∈ failed_dirs_ dm) /\
     (forall k dd1, (dd :: rest) !! k = Some dd1 ->
        exists dd', (dd0 :: dds') !! k = Some dd' /\
                    settled dm dm' (idx + k) dd1 dd'))).
  { intros dm1 st dds' dm' dd0 Hdirs Hfailed Hmono Hsize Hhere (Hdirs' & Hok).
    split; [congruence|]. intros Hst.
    destruct (Hok Hst) as (Hsub' & Hmono' & Hsize' & Hbefore & Hafter).
    split_and!; [done|by etrans|by intros; apply Hsize', Hsize| |].
    - intros j Hj. rewrite (Hbefore j) by lia. rewrite (Hfailed j).
      split; [|by right]. intros [[-> _]|?]; [lia|done].
    - intros [|k] dd1 Hk.
      + cbn in Hk. injection Hk as <-. exists dd0. split; [done|].
        rewrite Nat.add_0_r. unfold settled in *.
        assert (Hsame : Z.of_nat idx ∈ failed_dirs_ dm'
                        <-> Z.of_nat idx ∈ failed_dirs_ dm1)
          by (apply Hbefore; lia).
        destruct (bool_decide (Z.of_nat idx ∈ failed_dirs_ dm1)) eqn:Hd1.
        * apply bool_decide_eq_true_1 in Hd1.
          by rewrite bool_decide_eq_true_2 by (by apply Hsame).
        * apply bool_decide_eq_false_1 in Hd1.
          rewrite bool_decide_eq_false_2 by (by rewrite Hsame). done.
      + cbn in Hk. destruct (Hafter k dd1 Hk) as (dd' & Hk' & Hset).
        exists dd'. split; [done|].
        replace (idx + S k)%nat with (S idx + k)%nat by lia.
        unfold settled in *.
        destruct (bool_decide (Z.of_nat (S idx + k) ∈ failed_dirs_ dm')).
        * destruct Hset as [Hin|?]; [|by right].
          apply Hfailed in Hin as [[Heq _]|?]; [lia|by left].
        * destruct Hset as (Hnot & ?). split; [|done].
          intros Hin. apply Hnot. apply Hfailed. by right. }
  destruct (bool_decide (Z.of_nat idx ∈ failed_dirs_ dm)) eqn:Hfailed.
  - apply bool_decide_eq_true_1 in Hfailed.
    destruct (IH (S idx) gauge dm Hfind' Hlen' Hsub)
      as (st & dds' & dm' & gauge' & Hrun & Hspec).
    rewrite Hrun. cbn. exists st, (dd :: dds'), dm', gauge'. split; [done|].
    apply (Hrest dm st dds' dm' dd); [done| |done|done| |done].
    + intros j. split; [by right|]. by intros [[-> ?]|?].
    + unfold settled. rewrite bool_decide_eq_true_2 by done. by left.
  - apply bool_decide_eq_false_1 in Hfailed.
    destruct (refresh idx gauge dd) as [refresh_status dd'] eqn:Hrefresh.
    destruct (Status.ok refresh_status) eqn:Hok; cbn [negb].
    + destruct (IH (S idx) (dirs_full dd') dm Hfind' Hlen' Hsub)
        as (st & dds' & dm' & gauge' & Hrun & Hspec).
      rewrite Hrun. cbn. exists st, (dd' :: dds'), dm', gauge'. split; [done|].
      apply (Hrest dm st dds' dm' dd'); [done| |done|done| |done].
      * intros j. split; [by right|]. by intros [[-> ?]|?].
      * unfold settled. rewrite bool_decide_eq_false_2 by done.
        split; [done|]. exists gauge. by rewrite Hrefresh.
    + destruct (IsDiskFailure refresh_status) eqn:Hdisk.
      * destruct (decide (S (size (failed_dirs_ dm)) = length (dirs_ dm)))
          as [Hlast|Hleft].
        -- rewrite MarkDirFailed_last by done. cbn.
           eexists _, _, _, _. split; [reflexivity|]. split; [done|]. done.
        -- rewrite MarkDirFailed_some_left by done. cbn.
           set (dm1 := mk (dirs_ dm) ({[Z.of_nat idx]} ∪ failed_dirs_ dm)
                          match dirs_failed dm with
                          | Some g => Some (g + 1)
                          | None => None
                          end (error_log dm ++ [Z.of_nat idx])).
           destruct (IH (S idx) (dirs_full dd') dm1 Hfind' Hlen')
             as (st & dds' & dm' & gauge' & Hrun & Hspec).
           { subst dm1. cbn. apply union_subseteq. split; [|done].
             apply singleton_subseteq_l. apply elem_of_all_indexes.
             cbn in Hlen. cbn. lia. }
           rewrite Hrun. cbn. exists st, (dd' :: dds'), dm', gauge'.
           split; [done|].
           apply (Hrest dm1 st dds' dm' dd'); [done| | | | |done].
           ++ intros j. subst dm1. cbn.
              rewrite !elem_of_union, !elem_of_singleton. split.
              ** intros [Heq|?]; [left|by right].
                 split; [lia|by left].
              ** intros [[-> _]|?]; [by left|by right].
           ++ subst dm1. cbn. apply union_subseteq_r.
           ++ subst dm1. cbn. rewrite size_insert_new by done. lia.
           ++ unfold settled. subst dm1. cbn.
              rewrite bool_decide_eq_true_2
                by (apply elem_of_union; left; by apply elem_of_singleton).
              right. exists gauge. by rewrite Hrefresh.
      * eexists _, _, _, _. split; [reflexivity|]. split; [done|].
        cbn. congruence.
Qed.

(** The constructor of a directory keeps the instance or marks it
    failed. *)
Lemma CreateNewDir_instance idx instance :
  dir_uuid (CreateNewDir idx instance) = dir_uuid instance /\
  dir_path (CreateNewDir idx instance) = dir_path instance /\
  (dir_healthy (CreateNewDir idx instance) = true ->
   dir_healthy instance = true).
Proof.
  unfold CreateNewDir, RdbDir_new. destruct dir_class; [done|].
  destruct (dir_healthy instance) eqn:Hh; cbn [negb]; [|by rewrite Hh].
  destruct (Status.ok (InitRocksDBInstance idx)); cbn; by rewrite ?Hh.
Qed.

(** The instances that [create_dirs] hands on are the loaded ones, some
    of them marked failed. *)
Lemma create_dirs_infos : forall loaded idx s dirs,
  create_dirs idx loaded = (s, dirs) -> Status.ok s = true ->
  length dirs = length loaded /\
  forall i inst, loaded !! i = Some inst ->
    exists info fs_type, dirs !! i = Some (info, fs_type) /\
      dir_uuid info = dir_uuid inst /\ dir_path info = dir_path inst /\
      (dir_healthy info = true -> dir_healthy inst = true).
Proof.
  induction loaded as [|instance rest IH]; intros idx s dirs Hrun Hs.
  { cbn in Hrun. injection Hrun as <- <-. split; [done|]. by intros i inst Hi. }
  cbn [create_dirs] in Hrun.
  set (step := if dir_healthy instance then _ else _) in Hrun.
  assert (Hstep : dir_uuid step.1.2 = dir_uuid instance /\
                  dir_path step.1.2 = dir_path instance /\
                  (dir_healthy step.1.2 = true -> dir_healthy instance = true)).
  { subst step. destruct (dir_healthy instance) eqn:Hh.
    - destruct (check_fs_type (fs_checks idx)) as [fs_check fs_type].
      destruct (IsDiskFailure fs_check); cbn; split_and!; by try done.
    - cbn. split_and!; [done|done|]. by rewrite Hh. }
  destruct step as [[returned instance'] fs_type]. cbn [fst snd] in Hstep.
  destruct (Status.ok returned) eqn:Hret; cbn [negb] in Hrun;
    [|injection Hrun as <- <-; congruence].
  destruct (Status.ok (pool_status (fs_checks idx))) eqn:Hpool; cbn [negb] in Hrun;
    [|injection Hrun as <- <-; congruence].
  destruct (create_dirs (S idx) rest) as [s' dirs'] eqn:Hrest.
  injection Hrun as <- <-.
  destruct (IH (S idx) s' dirs' Hrest Hs) as [Hlen Heach].
  split; [cbn; by rewrite Hlen|].
  intros [|i] inst Hi; cbn in Hi.
  - injection Hi as <-. exists (CreateNewDir idx instance'), fs_type.
    destruct (CreateNewDir_instance idx instance') as (Hu & Hp & Hh).
    destruct Hstep as (Hu' & Hp' & Hh').
    split_and!; [done|congruence|congruence|by intros; apply Hh', Hh].
  - by apply Heach.
Qed.

(** The second half of [Open]. If no status is returned while the
    directories are created and the maps are populated without abort,
    then [Open] does not abort (the [CHECK] on [FindUuidIndexByDir]
    holds) and, when it returns OK: some directory is not failed exactly
    when some instance is still healthy once the directories are made,
    that is after the file system checks and the constructor that
    [CreateNewDir] calls, so OK is returned with every directory failed
    when these failed the last healthy instance; every directory
    reported failed has an instance that is unhealthy by then or hit a
    disk failure when polled; and every directory not reported failed
    has an instance that is healthy by then and holds the result of a
    successful poll. The instances made are the loaded ones, some of
    them marked failed. *)
Theorem Open_tail_healthy_dirs (loaded : list DirInfo)
    (dirs_failed_gauge dirs_full_gauge : option Z)
    (dirs : list (DirInfo * FsType)) (m : Maps) :
  create_dirs 0 loaded = (Status.OK, dirs) ->
  PopulateDirectoryMaps DirName (fst <$> dirs) (empty_maps dirs_failed_gauge)
  = Some m ->
  exists st dds' dm' gauge',
    Open_tail loaded dirs_failed_gauge dirs_full_gauge
    = Some (OpenDone st (fst <$> dirs) dds' dm' gauge') /\
    (length dirs = length loaded /\
     forall i inst, loaded !! i = Some inst ->
       exists info fs_type, dirs !! i = Some (info, fs_type) /\
         dir_uuid info = dir_uuid inst /\ dir_path info = dir_path inst /\
         (dir_healthy info = true -> dir_healthy inst = true)) /\
    (Status.ok st = true ->
     ((exists j, 0 <= j < Z.of_nat (length dirs) /\ IsDirFailed dm' j = false) <->
      (exists info, info ∈ fst <$> dirs /\ dir_healthy info = true)) /\
     (forall i info, (fst <$> dirs) !! i = Some info ->
        exists dd', dds' !! i = Some dd' /\
          if IsDirFailed dm' (Z.of_nat i) then
            dir_healthy info = false \/
            exists gauge,
              Status.ok (refresh i gauge (Dir_new dirs_full_gauge)).1 = false /\
              IsDiskFailure (refresh i gauge (Dir_new dirs_full_gauge)).1 = true
          else
            dir_healthy info = true /\
            exists gauge,
              Status.ok (refresh i gauge (Dir_new dirs_full_gauge)).1 = true /\
              dd' = (refresh i gauge (Dir_new dirs_full_gauge)).2)).
Proof.
  intros Hcreate Hpop.
  set (infos := fst <$> dirs) in *.
  pose proof (populate_from_maps_of DirName infos [] _ m
                (empty_maps_of DirName dirs_failed_gauge) Hpop)
    as (_ & _ & Hpre & Hrange).
  cbn [app length] in Hpre, Hrange.
  assert (Hinfos : length infos = length dirs).
  { subst infos. by rewrite length_fmap. }
  set (dm := manager_of infos m).
  assert (Hdirs : length (dirs_ dm) = length dirs).
  { subst dm. cbn. by rewrite length_fmap. }
  assert (Hsub : failed_dirs_ dm ⊆ all_indexes dm).
  { intros j Hj. apply elem_of_all_indexes. rewrite Hdirs, <- Hinfos.
    by apply Hrange. }
  destruct (fullness_loop_spec m
              (replicate (length dirs) (Dir_new dirs_full_gauge)) 0
              dirs_full_gauge dm)
    as (st & dds' & dm' & gauge' & Hloop & Hdirs' & Hok);
    [|by rewrite length_replicate|done|].
  { intros i Hi. rewrite length_replicate in Hi.
    assert (Hlt : (i < length infos)%nat) by lia.
    destruct (lookup_lt_is_Some_2 infos i Hlt) as [info Hinfo].
    by destruct (Hpre i info Hinfo) as (_ & _ & _ & ? & _). }
  exists st, dds', dm', gauge'. split; [|split].
  - unfold Open_tail. rewrite Hcreate. cbn [Status.ok Status.code_eqb Status.code
      Status.OK negb]. fold infos. rewrite Hpop. cbn. fold dm. by rewrite Hloop.
  - by apply (create_dirs_infos loaded 0 Status.OK dirs Hcreate).
  - intros Hst. destruct (Hok Hst) as (Hsub' & Hmono & Hsize & _ & Hafter). split.
    + split.
      * intros (j & Hj & Hjn). unfold IsDirFailed in Hjn.
        apply bool_decide_eq_false_1 in Hjn.
        assert (Hlt : (Z.to_nat j < length infos)%nat) by lia.
        destruct (lookup_lt_is_Some_2 infos _ Hlt) as [info Hinfo].
        exists info. split; [by eapply list_elem_of_lookup_2|].
        destruct (Hpre _ info Hinfo) as (_ & _ & _ & _ & Hf).
        rewrite Z2Nat.id in Hf by lia.
        destruct (dir_healthy info); [done|]. exfalso. apply Hjn, Hmono.
        by apply Hf.
      * intros (good & Hgood & Hhealthy).
        apply list_elem_of_lookup in Hgood as (g & Hg).
        assert (Hnot : Z.of_nat g ∉ failed_dirs_ dm).
        { intros Hin. destruct (Hpre g good Hg) as (_ & _ & _ & _ & Hf).
          apply Hf in Hin. congruence. }
        assert (Hin : Z.of_nat g ∈ all_indexes dm).
        { apply elem_of_all_indexes. rewrite Hdirs, <- Hinfos.
          apply lookup_lt_Some in Hg. lia. }
        assert (Hsubg : {[Z.of_nat g]} ∪ failed_dirs_ dm ⊆ all_indexes dm).
        { apply union_subseteq. split; [by apply singleton_subseteq_l|done]. }
        apply subseteq_size in Hsubg.
        rewrite size_insert_new, size_all_indexes in Hsubg by done.
        pose proof (Hsize ltac:(lia)) as Hsome'.
        pose proof (size_difference _ _ Hsub') as Hdiff.
        rewrite size_all_indexes in Hdiff.
        destruct (size_pos_elem_of (all_indexes dm' ∖ failed_dirs_ dm') ltac:(lia))
          as (j & Hj).
        apply elem_of_difference in Hj as [Hj Hjn].
        exists j. split.
        -- apply elem_of_all_indexes in Hj. rewrite Hdirs', Hdirs in Hj. lia.
        -- unfold IsDirFailed. by apply bool_decide_eq_false_2.
    + intros i info Hinfo.
      assert (Hdd : replicate (length dirs) (Dir_new dirs_full_gauge) !! i
                    = Some (Dir_new dirs_full_gauge)).
      { apply lookup_replicate_2. apply lookup_lt_Some in Hinfo. lia. }
      destruct (Hafter i _ Hdd) as (dd' & Hdd' & Hset).
      exists dd'. split; [done|].
      destruct (Hpre i info Hinfo) as (_ & _ & _ & _ & Hf).
      unfold settled in Hset. cbn [Nat.add] in Hset. unfold IsDirFailed.
      destruct (bool_decide (Z.of_nat i ∈ failed_dirs_ dm')).
      * destruct Hset as [Hin|?]; [left|by right]. by apply Hf.
      * destruct Hset as (Hnot & ?). split; [|done].
        destruct (dir_healthy info); [done|]. exfalso. apply Hnot. by apply Hf.
Qed.

(** After [PopulateDirectoryMaps], [MarkDirFailedByUuid] aborts on its
    [CHECK] exactly when no directory has the uuid; on the uuid of the
    directory at position [i] it leaves the manager as
    [MarkDirFailed(i)] does, whatever status that call returns. *)
Theorem MarkDirFailedByUuid_marks_its_dir (infos : list DirInfo)
    (gauge : option Z) (m : Maps) (dm : t) :
  PopulateDirectoryMaps DirName infos (empty_maps gauge) = Some m ->
  (forall uuid, MarkDirFailedByUuid m dm uuid = None <->
                uuid ∉ dir_uuid <$> infos) /\
  (forall i info, infos !! i = Some info ->
     MarkDirFailedByUuid m dm (dir_uuid info)
     = Some (MarkDirFailed dm (Z.of_nat i)).2).
Proof.
  intros Hrun.
  pose proof (populate_from_maps_of DirName infos [] _ m (empty_maps_of DirName gauge) Hrun)
    as (_ & Huuid & _ & _).
  cbn [app] in Huuid. unfold MarkDirFailedByUuid, FindUuidIndexByUuid. split.
  - intros uuid. destruct (idx_by_uuid_ m !! uuid) as [idx|] eqn:Hl.
    + split; [done|]. intros Hnot. exfalso. apply Hnot.
      apply Huuid in Hl as (i & info & _ & Hi & <-).
      apply list_elem_of_fmap_2. by eapply list_elem_of_lookup_2.
    + split; [|done]. intros _ Hin.
      apply list_elem_of_fmap in Hin as (info & -> & Hin).
      apply list_elem_of_lookup in Hin as (i & Hi).
      assert (Hsome : idx_by_uuid_ m !! dir_uuid info = Some (Z.of_nat i)).
      { apply Huuid. by exists i, info. }
      congruence.
  - intros i info Hi.
    assert (Hsome : idx_by_uuid_ m !! dir_uuid info = Some (Z.of_nat i)).
    { apply Huuid. by exists i, info. }
    by rewrite Hsome.
Qed.

End Open.

(** An IO error with errno 5 (EIO) counts as a disk failure. *)
Definition eio_is_disk_failure (s : Status.t) : bool :=
  Status.IsIOError s && (Status.posix_code s =? 5).

(** Both file system tests succeed, the directory is on ext. *)
Definition on_ext : FsCheck := mkFsCheck Status.OK true Status.OK false Status.OK.

(** The ext test hits a disk failure. *)
Definition ext_check_eio : FsCheck :=
  mkFsCheck (Status.IOError 5) false Status.OK false Status.OK.

(** Two loaded instances, the second unhealthy. *)
Definition loaded_two : list DirInfo :=
  [mkDirInfo "uuid-a" true "/data/0"; mkDirInfo "uuid-b" false "/data/1"].

(** RocksDB is initialised everywhere, or nowhere. *)
Definition rocksdb_ok (idx : nat) : Status.t := Status.OK.
Definition rocksdb_broken (idx : nat) : Status.t := Status.IOError 5.

Definition opened_maps (checks : nat -> FsCheck) : Maps :=
  default (empty_maps (Some 0))
    (PopulateDirectoryMaps id
       (fst <$> (create_dirs eio_is_disk_failure checks PlainDir rocksdb_ok
                   0 loaded_two).2)
       (empty_maps (Some 0))).

(** The first directory is polled and has space; the second instance
    was unhealthy when loaded. *)
Lemma Open_tail_healthy_dirs_witness :
  exists st dds' dm' gauge',
    Open_tail 28 10 eio_is_disk_failure (fun _ => 0) (fun _ => (Status.OK, 4096))
      (fun _ => 7) (fun _ => on_ext) id PlainDir rocksdb_ok
      loaded_two (Some 0) (Some 0)
    = Some (OpenDone st loaded_two dds' dm' gauge') /\
    Status.ok st = true /\
    (exists j, 0 <= j < 2 /\ IsDirFailed dm' j = false) /\
    IsDirFailed dm' 1 = true /\
    dds' !! 0%nat = Some (mkDir false 4096 7 (Some 0)).
Proof.
  destruct (Open_tail_healthy_dirs 28 10 eio_is_disk_failure (fun _ => 0)
              (fun _ => (Status.OK, 4096)) (fun _ => 7) (fun _ => on_ext) id
              PlainDir rocksdb_ok loaded_two (Some 0) (Some 0)
              [(mkDirInfo "uuid-a" true "/data/0", EXT);
               (mkDirInfo "uuid-b" false "/data/1", OTHER)]
              (opened_maps (fun _ => on_ext)))
    as (st & dds' & dm' & gauge' & Hrun & _ & Hok).
  - vm_compute. reflexivity.
  - vm_compute. reflexivity.
  - exists st, dds', dm', gauge'. split; [exact Hrun|].
    assert (Hst : Status.ok st = true).
    { vm_compute in Hrun. injection Hrun as <- _ _ _. reflexivity. }
    split; [exact Hst|]. split.
    + apply (proj1 (Hok Hst)).
      exists (mkDirInfo "uuid-a" true "/data/0").
      split; [apply list_elem_of_here|reflexivity].
    + vm_compute in Hrun. injection Hrun as _ <- <- _. split; reflexivity.
Defined.

(** The file system check of the only healthy instance hits a disk
    failure: [Open] returns OK with both directories failed. *)
Example Open_tail_ok_without_healthy_dir :
  exists dds' dm' gauge',
    Open_tail 28 10 eio_is_disk_failure (fun _ => 0) (fun _ => (Status.OK, 4096))
      (fun _ => 7) (fun _ => ext_check_eio) id PlainDir rocksdb_ok
      loaded_two (Some 0) (Some 0)
    = Some (OpenDone Status.OK
              [mkDirInfo "uuid-a" false "/data/0"; mkDirInfo "uuid-b" false "/data/1"]
              dds' dm' gauge') /\
    IsDirFailed dm' 0 = true /\ IsDirFailed dm' 1 = true.
Proof. eexists _, _, _. split; [vm_compute; reflexivity|]. split; reflexivity. Qed.

(** The file system checks pass, and RocksDB cannot be initialised in
    the only healthy directory: its constructor marks the instance
    failed, and [Open] returns OK with both directories failed. *)
Example Open_tail_rocksdb_broken :
  exists dds' dm' gauge',
    Open_tail 28 10 eio_is_disk_failure (fun _ => 0) (fun _ => (Status.OK, 4096))
      (fun _ => 7) (fun _ => on_ext) id RocksDbDir rocksdb_broken
      loaded_two (Some 0) (Some 0)
    = Some (OpenDone Status.OK
              [mkDirInfo "uuid-a" false "/data/0"; mkDirInfo "uuid-b" false "/data/1"]
              dds' dm' gauge') /\
    IsDirFailed dm' 0 = true /\ IsDirFailed dm' 1 = true.
Proof. eexists _, _, _. split; [vm_compute; reflexivity|]. split; reflexivity. Qed.

Lemma MarkDirFailedByUuid_marks_its_dir_witness :
  MarkDirFailedByUuid two_dirs_maps (manager_of two_dirs two_dirs_maps) "uuid-a"
  = Some (MarkDirFailed (manager_of two_dirs two_dirs_maps) 0).2 /\
  MarkDirFailedByUuid two_dirs_maps (manager_of two_dirs two_dirs_maps) "uuid-z"
  = None.
Proof.
  destruct (MarkDirFailedByUuid_marks_its_dir id two_dirs (Some 0) two_dirs_maps
              (manager_of two_dirs two_dirs_maps)) as [Hunknown Hknown].
  - vm_compute. reflexivity.
  - split.
    + exact (Hknown 0%nat (mkDirInfo "uuid-a" true "/data/0") eq_refl).
    + apply Hunknown. cbn. intros Hin.
      apply elem_of_cons in Hin as [Heq|Hin]; [discriminate|].
      apply list_elem_of_singleton in Hin. discriminate.
Defined.

End DirManagerOpen.

(* ===================================================================== *)
(** * kudu/common/rowblock.cc : SelectionVector::ClearToSelectAtMost *)
(* ===================================================================== *)

Module RowBlockLimit.
Import RowBlock RowBlockFacts RowBlockMore.
Local Open Scope nat_scope.
Local Arguments Nat.div : simpl never.
Local Arguments Nat.modulo : simpl never.

Section ClearToSelectAtMost.

(** [BitmapIterator::Next] of [kudu/util/bitmap.h], which is not among
    the sources: for an iterator over the first [num_bits] bits of
    [bitmap] that stands at [offset], the size of the next run and the
    value of its bits; the iterator then stands behind the run. *)
Variable Next : list Z -> nat -> nat -> nat * bool.

(** The loop "Adjust the end index until we have selected 'max_rows'
    rows": the result is [end_idx] when the loop is left. [fuel] bounds
    the number of runs. *)
Fixpoint select_loop (fuel : nat) (bitmap : list Z)
    (n_rows offset max_rows end_idx : nat) : nat :=
  match fuel with
  | O => end_idx
  | S fuel' =>
      let '(run_size, selected) := Next bitmap n_rows offset in
      if (run_size =? 0) || (max_rows =? 0) then end_idx
      else if selected then
        if max_rows <=? run_size then end_idx + max_rows
        else select_loop fuel' bitmap n_rows (offset + run_size)
                         (max_rows - run_size) (end_idx + run_size)
      else select_loop fuel' bitmap n_rows (offset + run_size) max_rows
                       (end_idx + run_size)
  end.

(** [SelectionVector::ClearToSelectAtMost]; a run holds at least one
    bit, so [n_rows_ + 1] runs are never exceeded. *)
Definition ClearToSelectAtMost (sv : SelectionVector) (max_rows : nat)
  : SelectionVector :=
  if max_rows <? n_rows_ sv then
    let end_idx :=
      select_loop (S (n_rows_ sv)) (bitmap_ sv) (n_rows_ sv) 0 max_rows 0 in
    if end_idx <? n_rows_ sv
    then mkSelectionVector (bytes_capacity_ sv) (n_rows_ sv) (n_bytes_ sv)
           (BitmapClearBits (bitmap_ sv) end_idx (n_rows_ sv - end_idx))
    else sv
  else sv.

(** What the loop needs of the iterator: a run lies within the bits
    iterated over, is empty only at their end, and its bits all have the
    value reported. *)
Hypothesis Next_run : forall bitmap num_bits offset,
  offset <= num_bits ->
  offset + (Next bitmap num_bits offset).1 <= num_bits /\
  ((Next bitmap num_bits offset).1 = 0 <-> offset = num_bits) /\
  forall i, offset <= i < offset + (Next bitmap num_bits offset).1 ->
            BitmapTest bitmap i = (Next bitmap num_bits offset).2.

Local Abbreviation selected_in bitmap lo len :=
  (filter (fun i => BitmapTest bitmap i = true) (seq lo len)).

Lemma selected_in_app bitmap lo a b :
  selected_in bitmap lo (a + b)
  = selected_in bitmap lo a ++ selected_in bitmap (lo + a) b.
Proof. by rewrite seq_app, filter_app. Qed.

Lemma selected_in_run bitmap lo len (v : bool) :
  (forall i, lo <= i < lo + len -> BitmapTest bitmap i = v) ->
  length (selected_in bitmap lo len) = if v then len else 0.
Proof.
  intros Hrun. destruct v.
  - rewrite filter_Forall_id; [by rewrite length_seq|].
    apply Forall_forall. intros i Hi.
    apply list_elem_of_In, in_seq in Hi. apply Hrun. lia.
  - rewrite filter_none; [done|].
    apply Forall_forall. intros i Hi.
    apply list_elem_of_In, in_seq in Hi. rewrite Hrun by lia. done.
Qed.

(** The loop stops at an [end_idx] before which exactly [max_rows] rows
    are selected, or at the end of the rows when fewer are selected; it
    needs no more runs than there are rows left, plus one. *)
Lemma select_loop_spec bitmap n : forall fuel offset max_rows,
  offset <= n -> n - offset < fuel ->
  let e := select_loop fuel bitmap n offset max_rows offset in
  offset <= e <= n /\
  (length (selected_in bitmap offset (e - offset)) = max_rows \/
   (e = n /\ length (selected_in bitmap offset (n - offset)) < max_rows)).
Proof.
  induction fuel as [|fuel IH]; intros offset max_rows Hoff Hfuel; [lia|].
  cbn [select_loop]. cbv zeta.
  destruct (Next_run bitmap n offset Hoff) as (Hin & Hempty & Hbits).
  destruct (Next bitmap n offset) as [run_size selected]. cbn [fst snd] in *.
  destruct (run_size =? 0) eqn:Hrun; cbn [orb].
  { apply Nat.eqb_eq in Hrun. apply Hempty in Hrun. subst offset.
    split; [lia|]. rewrite Nat.sub_diag. cbn.
    destruct max_rows; [by left|right; split; [done|lia]]. }
  apply Nat.eqb_neq in Hrun.
  destruct (max_rows =? 0) eqn:Hmax.
  { apply Nat.eqb_eq in Hmax. subst max_rows.
    split; [lia|]. left. by rewrite Nat.sub_diag. }
  apply Nat.eqb_neq in Hmax.
  pose proof (selected_in_run bitmap offset run_size selected Hbits) as Hcount.
  destruct selected.
  - destruct (max_rows <=? run_size) eqn:Hle.
    + apply Nat.leb_le in Hle. split; [lia|]. left.
      replace (offset + max_rows - offset) with max_rows by lia.
      apply (selected_in_run bitmap offset max_rows true).
      intros i Hi. apply Hbits. lia.
    + apply Nat.leb_gt in Hle.
      destruct (IH (offset + run_size) (max_rows - run_size)) as (Hr & Hc);
        [lia|lia|].
      set (e := select_loop fuel bitmap n (offset + run_size)
                  (max_rows - run_size) (offset + run_size)) in *.
      split; [lia|].
      replace (e - offset) with (run_size + (e - (offset + run_size))) by lia.
      replace (n - offset) with (run_size + (n - (offset + run_size))) by lia.
      rewrite !selected_in_app, !length_app, Hcount.
      destruct Hc as [Hc|[He Hc]]; [left; lia|right; split; [done|lia]].
  - destruct (IH (offset + run_size) max_rows) as (Hr & Hc); [lia|lia|].
    set (e := select_loop fuel bitmap n (offset + run_size) max_rows
                (offset + run_size)) in *.
    split; [lia|].
    replace (e - offset) with (run_size + (e - (offset + run_size))) by lia.
    replace (n - offset) with (run_size + (n - (offset + run_size))) by lia.
    rewrite !selected_in_app, !length_app, Hcount.
    destruct Hc as [Hc|[He Hc]]; [left; lia|right; split; [done|lia]].
Qed.

(** More fuel than rows left changes nothing: the loop never stops for
    lack of it. *)
Lemma select_loop_fuel bitmap n : forall fuel fuel' offset max_rows end_idx,
  offset <= n -> n - offset < fuel -> n - offset < fuel' ->
  select_loop fuel bitmap n offset max_rows end_idx
  = select_loop fuel' bitmap n offset max_rows end_idx.
Proof.
  induction fuel as [|fuel IH]; intros fuel' offset max_rows end_idx Hoff Hf Hf';
    [lia|].
  destruct fuel' as [|fuel']; [lia|]. cbn [select_loop].
  destruct (Next_run bitmap n offset Hoff) as (Hin & Hempty & _).
  destruct (Next bitmap n offset) as [run_size selected]. cbn [fst snd] in *.
  destruct (run_size =? 0) eqn:Hrun; cbn [orb]; [done|].
  apply Nat.eqb_neq in Hrun.
  destruct (max_rows =? 0); [done|].
  destruct selected; [destruct (max_rows <=? run_size); [done|]|];
    apply IH; lia.
Qed.

(** [ClearToSelectAtMost(max_rows)] keeps the first [max_rows] selected
    rows and clears every later one: the selected rows afterwards are
    the first [max_rows] of the rows selected before, in the same
    order, so at most [max_rows] rows and all of them when fewer were
    selected. The number of rows, the shape of the vector and its zero
    padding are kept, and the loop is never cut short by the bound on
    its runs. *)
Theorem ClearToSelectAtMost_keeps_first (sv : SelectionVector) (max_rows : nat) :
  let sv' := ClearToSelectAtMost sv max_rows in
  selected_rows sv' = take max_rows (selected_rows sv) /\
  nrows sv' = nrows sv /\
  (shape_ok sv -> shape_ok sv') /\
  (padded sv -> padded sv') /\
  (forall fuel, n_rows_ sv < fuel ->
     select_loop fuel (bitmap_ sv) (n_rows_ sv) 0 max_rows 0
     = select_loop (S (n_rows_ sv)) (bitmap_ sv) (n_rows_ sv) 0 max_rows 0).
Proof.
  cbv zeta. unfold ClearToSelectAtMost, selected_rows, nrows.
  split_and!.
  - destruct (max_rows <? n_rows_ sv) eqn:Hlt.
    + destruct (select_loop_spec (bitmap_ sv) (n_rows_ sv) (S (n_rows_ sv)) 0 max_rows)
        as (Hr & Hc); [lia|lia|]. cbv zeta in Hr, Hc.
      set (e := select_loop (S (n_rows_ sv)) (bitmap_ sv) (n_rows_ sv) 0 max_rows 0) in *.
      rewrite !Nat.sub_0_r in Hc.
      destruct (e <? n_rows_ sv) eqn:He; cbn [bitmap_ n_rows_].
      * apply Nat.ltb_lt in He.
        destruct Hc as [Hc|[Hc _]]; [|lia].
        assert (Hsplit : forall b,
                  selected_in b 0 (n_rows_ sv)
                  = selected_in b 0 e ++ selected_in b e (n_rows_ sv - e)).
        { intros b. pose proof (selected_in_app b 0 e (n_rows_ sv - e)) as Happ.
          cbn [Nat.add] in Happ. rewrite <- Happ.
          by replace (e + (n_rows_ sv - e)) with (n_rows_ sv) by lia. }
        rewrite !Hsplit.
        rewrite (filter_none _ (seq e (n_rows_ sv - e))).
        2:{ apply Forall_forall. intros i Hi.
            apply list_elem_of_In, in_seq in Hi.
            rewrite BitmapTest_BitmapClearBits.
            rewrite bool_decide_eq_true_2 by lia. done. }
        rewrite app_nil_r.
        rewrite (filter_length_ext _ (fun i => BitmapTest (bitmap_ sv) i = true)).
        2:{ intros i Hi. apply list_elem_of_In, in_seq in Hi.
            rewrite BitmapTest_BitmapClearBits.
            rewrite bool_decide_eq_false_2 by lia. done. }
        by rewrite take_app_length'.
      * apply Nat.ltb_ge in He. assert (e = n_rows_ sv) as -> by lia.
        rewrite take_ge; [done|]. destruct Hc as [Hc|[_ Hc]]; lia.
    + apply Nat.ltb_ge in Hlt. rewrite take_ge; [done|].
      etrans; [apply length_filter|]. rewrite length_seq. lia.
  - destruct (max_rows <? n_rows_ sv); [|done]. by destruct (_ <? _).
  - intros (Hl & Hb & Hc & Hok).
    destruct (max_rows <? n_rows_ sv); [|done].
    destruct (_ <? _); [|done]. unfold shape_ok. cbn.
    rewrite BitmapClearBits_length. split_and!; try done.
    by apply BitmapClearBits_bytes_ok.
  - intros Hp. destruct (max_rows <? n_rows_ sv); [|done].
    destruct (_ <? _); [|done]. intros i Hlo Hhi. cbn in *.
    rewrite BitmapTest_BitmapClearBits. case_bool_decide; [done|].
    by apply Hp.
  - intros fuel Hfuel. apply select_loop_fuel; lia.
Qed.

End ClearToSelectAtMost.

(** An iterator that meets [Next_run]: the longest run of equal bits
    from [offset] on. *)
Fixpoint run_length (bitmap : list Z) (value : bool) (offset fuel : nat) : nat :=
  match fuel with
  | O => 0
  | S fuel' =>
      if Bool.eqb (BitmapTest bitmap offset) value
      then S (run_length bitmap value (S offset) fuel')
      else 0
  end.

Definition longest_run_Next (bitmap : list Z) (num_bits offset : nat)
  : nat * bool :=
  let value := BitmapTest bitmap offset in
  (run_length bitmap value offset (num_bits - offset), value).

Lemma run_length_spec bitmap value : forall fuel offset,
  run_length bitmap value offset fuel <= fuel /\
  forall i, offset <= i < offset + run_length bitmap value offset fuel ->
            BitmapTest bitmap i = value.
Proof.
  induction fuel as [|fuel IH]; intros offset; cbn [run_length].
  { split; [lia|]. intros i Hi. lia. }
  destruct (Bool.eqb (BitmapTest bitmap offset) value) eqn:Heq.
  - destruct (IH (S offset)) as [Hle Hbits]. split; [lia|].
    intros i Hi. destruct (decide (i = offset)) as [->|Hne].
    + by apply Bool.eqb_prop.
    + apply Hbits. lia.
  - split; [lia|]. intros i Hi. lia.
Qed.

Lemma longest_run_Next_run bitmap num_bits offset :
  offset <= num_bits ->
  offset + (longest_run_Next bitmap num_bits offset).1 <= num_bits /\
  ((longest_run_Next bitmap num_bits offset).1 = 0 <-> offset = num_bits) /\
  forall i, offset <= i < offset + (longest_run_Next bitmap num_bits offset).1 ->
            BitmapTest bitmap i = (longest_run_Next bitmap num_bits offset).2.
Proof.
  intros Hoff. unfold longest_run_Next. cbn [fst snd].
  destruct (run_length_spec bitmap (BitmapTest bitmap offset)
              (num_bits - offset) offset) as [Hle Hbits].
  split_and!; [lia| |done].
  destruct (num_bits - offset) as [|fuel] eqn:Hfuel.
  - cbn. split; [lia|done].
  - cbn [run_length]. rewrite Bool.eqb_reflx. split; [done|lia].
Qed.

(** Ten rows of which rows 0, 2, 3, 5, 6, 8 and 9 are selected, limited
    to three. *)
Definition seven_of_ten : SelectionVector := SelectionVector_new 10 [109; 255]%Z.

Lemma ClearToSelectAtMost_keeps_first_witness :
  selected_rows (ClearToSelectAtMost longest_run_Next seven_of_ten 3)
  = take 3 (selected_rows seven_of_ten) /\
  nrows (ClearToSelectAtMost longest_run_Next seven_of_ten 3) = nrows seven_of_ten.
Proof.
  destruct (ClearToSelectAtMost_keeps_first longest_run_Next longest_run_Next_run
              seven_of_ten 3) as (Hrows & Hn & _).
  split; [exact Hrows | exact Hn].
Defined.

Example ClearToSelectAtMost_run :
  selected_rows seven_of_ten = [0; 2; 3; 5; 6; 8; 9] /\
  selected_rows (ClearToSelectAtMost longest_run_Next seven_of_ten 3) = [0; 2; 3].
Proof. vm_compute. done. Qed.

End RowBlockLimit.

(* ===================================================================== *)
(** * kudu/cfile/binary_dict_block.cc : evaluating a predicate on codewords *)
(* ===================================================================== *)

Module BinaryDictEval.
Import Cfile RowBlock BinaryDictDecoder BinaryDictDecoderMore.
Local Open Scope nat_scope.

(** Modelled from the spec: [SelectionVectorView] of
    [kudu/common/rowblock.h] (the header is not among the sources): a
    window on a selection vector that starts at row [row_offset_];
    [TestBit], [ClearBit] and [ClearBits] act on the bits of the vector
    at [row_offset_ + row_idx]. *)
Record SelectionVectorView : Type := mkView {
  sel_vec_ : SelectionVector;
  row_offset_ : nat
}.

Definition with_bitmap (sv : SelectionVector) (bitmap : list Z)
  : SelectionVector :=
  mkSelectionVector (bytes_capacity_ sv) (n_rows_ sv) (n_bytes_ sv) bitmap.

Definition TestBit (sel : SelectionVectorView) (row_idx : nat) : bool :=
  BitmapTest (bitmap_ (sel_vec_ sel)) (row_offset_ sel + row_idx).

Definition ClearBit (sel : SelectionVectorView) (row_idx : nat)
  : SelectionVectorView :=
  mkView (with_bitmap (sel_vec_ sel)
            (BitmapClear (bitmap_ (sel_vec_ sel)) (row_offset_ sel + row_idx)))
         (row_offset_ sel).

Definition ClearBits (sel : SelectionVectorView) (nrows : nat)
  : SelectionVectorView :=
  mkView (with_bitmap (sel_vec_ sel)
            (BitmapClearBits (bitmap_ (sel_vec_ sel)) (row_offset_ sel) nrows))
         (row_offset_ sel).

(** Modelled from the spec: [BShufBlockDecoder<UINT32>::SeekForward]
    ([bshuf_block.h] is not among the sources): the position advances by
    [*n] or to the end of the block, whichever is less, and [*n] is set
    to the distance covered. *)
Definition bshuf_SeekForward (d : BShufBlockDecoder) (n : Z)
  : Z * BShufBlockDecoder :=
  let n' := Z.min n (Z.of_nat (length (bshuf_elems d)) - bshuf_cur_idx d) in
  (n', mkBShuf (bshuf_elems d) (bshuf_cur_idx d + n')).

(** What [CopyNextAndEval] leaves behind: the status, [*n], the decoder,
    the selection view, the cells of [dst], and whether the block of the
    dictionary was retained by [dst]'s memory. *)
Record Evaluated : Type := mkEvaluated {
  status : Status.t;
  n_out : nat;
  decoder : t;
  sel_out : SelectionVectorView;
  dst_out : list Slice;
  retained : bool
}.

Definition with_data_decoder (d : t) (dd : DataDecoder) : t :=
  mk (data_ d) (parsed_ d) (dict_decoder_ d) (Some dd) (mode_ d).

(** The loop of [CopyNextAndEval] from row [i] on, over the codewords
    still to scan. [None] is a codeword outside the dictionary or a cell
    outside [dst]. *)
Fixpoint eval_loop (codewords_matching_pred : SelectionVector)
    (dict_decoder : PlainBlockDecoder) (i : nat) (codeword_buf : list Z)
    (sel : SelectionVectorView) (dst : list Slice) (retain_dict : bool)
  : option (SelectionVectorView * list Slice * bool) :=
  match codeword_buf with
  | [] => Some (sel, dst, retain_dict)
  | codeword :: rest =>
      if negb (TestBit sel i) then
        eval_loop codewords_matching_pred dict_decoder (S i) rest
                  sel dst retain_dict
      else if BitmapTest (bitmap_ codewords_matching_pred) (Z.to_nat codeword)
      then
        s ← string_at_index dict_decoder codeword;
        if i <? length dst then
          eval_loop codewords_matching_pred dict_decoder (S i) rest
                    sel (<[i := s]> dst) true
        else None
      else
        eval_loop codewords_matching_pred dict_decoder (S i) rest
                  (ClearBit sel i) dst retain_dict
  end.


Section CopyNextAndEval.
Context `{DictEncoding}.

(** [BinaryPlainBlockDecoder::CopyNextAndEval], which is not among the
    sources: from the decoder, [*n], the view and the cells to the
    status, [*n], the decoder, the view and the cells. *)
Variable plain_CopyNextAndEval :
  PlainBlockDecoder -> nat -> SelectionVectorView -> list Slice ->
  Status.t * nat * PlainBlockDecoder * SelectionVectorView * list Slice.

(** [BinaryDictBlockDecoder::CopyNextAndEval]. [is_not_null] is
    [ctx->pred()->predicate_type() == PredicateType::IsNotNull] and
    [codewords_matching_pred] the vector that the iterator of the file
    keeps. The flag that [SetDecoderEvalSupported] sets on [ctx] is set
    on every path and left out. [None] is a data decoder of the wrong
    class, a codeword outside the dictionary or a cell outside [dst]. *)
Definition CopyNextAndEval (d : t) (n : nat) (is_not_null : bool)
    (codewords_matching_pred : SelectionVector)
    (sel : SelectionVectorView) (dst : list Slice) : option Evaluated :=
  if (mode_ d =? kPlainBinaryMode)%Z then
    match data_decoder_ d with
    | Some (Plain pd) =>
        let '(s, n', pd', sel', dst') := plain_CopyNextAndEval pd n sel dst in
        Some (mkEvaluated s n' (with_data_decoder d (Plain pd')) sel' dst' false)
    | _ => None
    end
  else
    match data_decoder_ d with
    | Some (BShuf d_bptr) =>
        if negb (AnySelected codewords_matching_pred) then
          let '(skip, d_bptr') :=
            bshuf_SeekForward d_bptr (wrap_int32 (Z.of_nat n)) in
          let n' := Z.to_nat (skip mod 2 ^ 64) in
          Some (mkEvaluated Status.OK n' (with_data_decoder d (BShuf d_bptr'))
                            (ClearBits sel n') dst false)
        else if is_not_null then
          '(s, n', out, d') ← CopyNextDecodeStrings d n;
          if n' <=? length dst then
            Some (mkEvaluated s n' d' sel (out ++ drop n' dst) true)
          else None
        else
          let '(n', codeword_buf, d_bptr') :=
            bshuf_CopyNextValuesToArray d_bptr n in
          '(sel', dst', retain_dict) ←
            eval_loop codewords_matching_pred (dict_decoder_ d) 0
                      codeword_buf sel dst false;
          Some (mkEvaluated Status.OK n' (with_data_decoder d (BShuf d_bptr'))
                            sel' dst' retain_dict)
    | _ => None
    end.


End CopyNextAndEval.

(** ** The view and the vector of matching codewords *)

Lemma TestBit_ClearBit sel i j :
  TestBit (ClearBit sel i) j =
  if bool_decide (j = i) then false else TestBit sel j.
Proof.
  unfold TestBit, ClearBit. cbn [sel_vec_ row_offset_ bitmap_ with_bitmap].
  rewrite RowBlockFacts.BitmapTest_BitmapClear.
  repeat case_bool_decide; try done; lia.
Qed.

Lemma TestBit_ClearBits sel n j :
  TestBit (ClearBits sel n) j =
  if bool_decide (j < n) then false else TestBit sel j.
Proof.
  unfold TestBit, ClearBits. cbn [sel_vec_ row_offset_ bitmap_ with_bitmap].
  rewrite RowBlockFacts.BitmapTest_BitmapClearBits.
  repeat case_bool_decide; try done; lia.
Qed.

(** When [AnySelected] answers no, no row of the vector is selected. *)
Lemma AnySelected_false_row sv i :
  n_bytes_ sv = BitmapSize (n_rows_ sv) ->
  AnySelected sv = false -> i < nrows sv ->
  BitmapTest (bitmap_ sv) i = false.
Proof.
  intros Hb Hany Hi.
  destruct (BitmapTest (bitmap_ sv) i) eqn:Hbit; [exfalso|done].
  unfold BitmapTest in Hbit.
  destruct (bitmap_ sv !! (i / 8)) as [b|] eqn:Hlk; [|done].
  assert (Htrue : AnySelected sv = true); [|congruence].
  unfold AnySelected.
  apply (RowBlockMore.any_words_intro _ _ _ (i / 8) b); [|done|].
  - unfold nrows in Hi. rewrite Hb. unfold BitmapSize.
    RowBlockFacts.divmod_lia.
  - intros ->. by rewrite Z.testbit_0_l in Hbit.
Qed.

(** ** The loop *)

(** One round of the loop, on a codeword of the dictionary. *)
Lemma eval_loop_step m dict c rest i sel dst retain_dict :
  (0 <= c)%Z -> Z.to_nat c < length (plain_elems dict) -> i < length dst ->
  exists sel1 dst1 r1,
    eval_loop m dict i (c :: rest) sel dst retain_dict =
    eval_loop m dict (S i) rest sel1 dst1 r1 /\
    length dst1 = length dst /\
    (forall j, TestBit sel1 j =
               if bool_decide (j = i)
               then TestBit sel i && BitmapTest (bitmap_ m) (Z.to_nat c)
               else TestBit sel j) /\
    (forall j, dst1 !! j =
               if bool_decide (j = i) && TestBit sel1 i
               then plain_elems dict !! Z.to_nat c
               else dst !! j) /\
    r1 = retain_dict || TestBit sel1 i.
Proof.
  intros Hc0 Hcd Hi. cbn [eval_loop].
  destruct (TestBit sel i) eqn:Hsel; cbn [negb].
  - destruct (BitmapTest (bitmap_ m) (Z.to_nat c)) eqn:Hm.
    + destruct (lookup_lt_is_Some_2 _ _ Hcd) as [s Hs].
      assert (Hstr : string_at_index dict c = Some s).
      { unfold string_at_index.
        by rewrite (proj2 (Z.ltb_ge c 0) Hc0). }
      rewrite Hstr. cbn [mbind option_bind].
      rewrite (proj2 (Nat.ltb_lt _ _) Hi).
      exists sel, (<[i := s]> dst), true. split; [done|].
      split; [apply length_insert|].
      split; [intros j; case_bool_decide; by subst|].
      split; [|by rewrite Hsel, orb_true_r].
      intros j. rewrite Hsel, andb_true_r. case_bool_decide as Hj.
      * subst j. by rewrite list_lookup_insert_eq.
      * by rewrite list_lookup_insert_ne.
    + exists (ClearBit sel i), dst, retain_dict. split; [done|].
      split; [done|].
      split; [intros j; rewrite TestBit_ClearBit; by case_bool_decide|].
      rewrite TestBit_ClearBit, bool_decide_eq_true_2 by done.
      split; [|by rewrite orb_false_r].
      intros j. by rewrite andb_false_r.
  - exists sel, dst, retain_dict. split; [done|]. split; [done|].
    split; [intros j; case_bool_decide; by subst|].
    rewrite Hsel. split; [|by rewrite orb_false_r].
    intros j. by rewrite andb_false_r.
Qed.

(** The loop over codewords of the dictionary: a row keeps its bit when
    it had it and its codeword matches; the cells of those rows hold the
    dictionary's strings, every other cell is as before; and the
    dictionary is retained exactly when such a row exists. *)
Lemma eval_loop_spec m dict : forall codeword_buf i sel dst retain_dict,
  Forall (fun c => (0 <= c)%Z /\ Z.to_nat c < length (plain_elems dict))
         codeword_buf ->
  i + length codeword_buf <= length dst ->
  exists sel' dst' r,
    eval_loop m dict i codeword_buf sel dst retain_dict = Some (sel', dst', r) /\
    length dst' = length dst /\
    (forall j, j < i \/ i + length codeword_buf <= j ->
               TestBit sel' j = TestBit sel j) /\
    (forall k c, codeword_buf !! k = Some c ->
       TestBit sel' (i + k) =
       TestBit sel (i + k) && BitmapTest (bitmap_ m) (Z.to_nat c)) /\
    (forall k c, codeword_buf !! k = Some c -> TestBit sel' (i + k) = true ->
       dst' !! (i + k) = plain_elems dict !! Z.to_nat c) /\
    (forall j, j < i \/ i + length codeword_buf <= j \/ TestBit sel' j = false ->
               dst' !! j = dst !! j) /\
    (r = true <->
     retain_dict = true \/
     exists k, k < length codeword_buf /\ TestBit sel' (i + k) = true).
Proof.
  induction codeword_buf as [|c rest IH]; intros i sel dst retain_dict Hcw Hlen.
  - exists sel, dst, retain_dict. cbn [eval_loop length].
    split; [done|]. split; [done|]. split; [done|].
    split; [intros k c Hk; by rewrite lookup_nil in Hk|].
    split; [intros k c Hk; by rewrite lookup_nil in Hk|].
    split; [done|].
    split; [by left|]. intros [Hr|(k & Hk & _)]; [done|lia].
  - apply Forall_cons in Hcw as [[Hc0 Hcd] Hcw]. cbn [length] in Hlen.
    destruct (eval_loop_step m dict c rest i sel dst retain_dict Hc0 Hcd)
      as (sel1 & dst1 & r1 & Hstep & Hl1 & Hsel1 & Hdst1 & Hr1); [lia|].
    destruct (IH (S i) sel1 dst1 r1 Hcw)
      as (sel' & dst' & r & Hrun & Hl & Ha & Hb & Hc & Hd & He); [lia|].
    assert (Hhead : TestBit sel' i = TestBit sel1 i) by (apply Ha; lia).
    exists sel', dst', r. rewrite Hstep. split; [done|].
    split; [congruence|]. cbn [length].
    split; [|split; [|split; [|split]]].
    + intros j Hj. rewrite Ha by lia. rewrite Hsel1.
      rewrite bool_decide_eq_false_2; [done|lia].
    + intros [|k] c' Hk; cbn in Hk.
      * injection Hk as <-. rewrite Nat.add_0_r, Hhead, Hsel1.
        by rewrite bool_decide_eq_true_2.
      * replace (i + S k) with (S i + k) by lia.
        rewrite (Hb k c' Hk), Hsel1.
        rewrite bool_decide_eq_false_2; [done|lia].
    + intros [|k] c' Hk Hbit; cbn in Hk.
      * injection Hk as <-. rewrite Nat.add_0_r in *.
        rewrite Hd by lia. rewrite Hdst1, bool_decide_eq_true_2 by done.
        by rewrite <- Hhead, Hbit.
      * replace (i + S k) with (S i + k) in * by lia. by apply Hc.
    + intros j Hj. rewrite Hd by (destruct Hj as [?|[?|?]]; auto with lia).
      rewrite Hdst1.
      case_bool_decide as Hji; [|done]. subst j.
      destruct Hj as [Hj|[Hj|Hj]]; [lia|lia|].
      by rewrite <- Hhead, Hj.
    + rewrite He, Hr1, <- Hhead. split.
      * intros [Hr|(k & Hk & Hbit)].
        -- apply orb_true_iff in Hr as [Hr|Hr]; [by left|].
           right. exists 0. rewrite Nat.add_0_r. split; [lia|done].
        -- right. exists (S k). replace (i + S k) with (S i + k) by lia.
           split; [lia|done].
      * intros [Hr|([|k] & Hk & Hbit)].
        -- left. by rewrite Hr.
        -- left. rewrite Nat.add_0_r in Hbit. by rewrite Hbit, orb_true_r.
        -- right. exists k. replace (S i + k) with (i + S k) by lia.
           split; [lia|done].
Qed.


(** ** The shortcut and the loop agree *)

(** The values that [CopyNextValuesToArray] hands out are the entries of
    the block from the current position on. *)
Lemma bshuf_CopyNextValuesToArray_spec bd n :
  (0 <= bshuf_cur_idx bd <= Z.of_nat (length (bshuf_elems bd)))%Z ->
  let cur := Z.to_nat (bshuf_cur_idx bd) in
  let '(n', vals, bd') := bshuf_CopyNextValuesToArray bd n in
  n' = n `min` (length (bshuf_elems bd) - cur) /\
  length vals = n' /\
  (forall k, k < n' -> vals !! k = bshuf_elems bd !! (cur + k)) /\
  bd' = mkBShuf (bshuf_elems bd) (bshuf_cur_idx bd + Z.of_nat n').
Proof.
  intros Hcur cur. unfold bshuf_CopyNextValuesToArray. fold cur.
  rewrite length_take, length_drop. split_and!; try done.
  intros k Hk. rewrite lookup_take_lt by lia. by rewrite lookup_drop.
Qed.

Section Filters.
Context `{DictEncoding}.
Variable plain_CopyNextAndEval :
  PlainBlockDecoder -> nat -> SelectionVectorView -> list Slice ->
  Status.t * nat * PlainBlockDecoder * SelectionVectorView * list Slice.

(** With a predicate other than [IsNotNull], on a block of codewords of
    the dictionary, [CopyNextAndEval] consumes the next [min n
    remaining] rows; a row among them keeps its selection bit exactly
    when it had it and the bit of its codeword is set in the vector of
    matching codewords; the cells of the rows that stay selected hold
    the dictionary's strings and every other cell is untouched; and the
    dictionary block is retained exactly when some row stays selected.
    The shortcut taken when [AnySelected] finds no matching codeword
    gives the same result as the loop would. *)
Theorem CopyNextAndEval_filters (d : t) (bd : BShufBlockDecoder) (n : nat)
    (m : SelectionVector) (sel : SelectionVectorView) (dst : list Slice) :
  (mode_ d =? kPlainBinaryMode)%Z = false ->
  data_decoder_ d = Some (BShuf bd) ->
  (0 <= bshuf_cur_idx bd <= Z.of_nat (length (bshuf_elems bd)))%Z ->
  (Z.of_nat n < 2 ^ 31)%Z ->
  n <= length dst ->
  n_bytes_ m = BitmapSize (n_rows_ m) ->
  nrows m <= length (plain_elems (dict_decoder_ d)) ->
  Forall (fun c => (0 <= c)%Z /\ Z.to_nat c < nrows m) (bshuf_elems bd) ->
  exists r,
    CopyNextAndEval plain_CopyNextAndEval d n false m sel dst = Some r /\
    status r = Status.OK /\
    n_out r = n `min` (length (bshuf_elems bd) - Z.to_nat (bshuf_cur_idx bd)) /\
    data_decoder_ (decoder r) =
      Some (BShuf (mkBShuf (bshuf_elems bd)
                           (bshuf_cur_idx bd + Z.of_nat (n_out r)))) /\
    length (dst_out r) = length dst /\
    (forall j, n_out r <= j -> TestBit (sel_out r) j = TestBit sel j) /\
    (forall k c,
       k < n_out r ->
       bshuf_elems bd !! (Z.to_nat (bshuf_cur_idx bd) + k) = Some c ->
       TestBit (sel_out r) k =
       TestBit sel k && BitmapTest (bitmap_ m) (Z.to_nat c)) /\
    (forall k c,
       k < n_out r ->
       bshuf_elems bd !! (Z.to_nat (bshuf_cur_idx bd) + k) = Some c ->
       TestBit (sel_out r) k = true ->
       dst_out r !! k = plain_elems (dict_decoder_ d) !! Z.to_nat c) /\
    (forall j, n_out r <= j \/ TestBit (sel_out r) j = false ->
               dst_out r !! j = dst !! j) /\
    (retained r = true <->
     exists k, k < n_out r /\ TestBit (sel_out r) k = true).
Proof.
  intros Hmode Hdd Hcur Hn Hdst Hshape Hdict Hcw.
  unfold CopyNextAndEval. rewrite Hmode, Hdd.
  destruct (AnySelected m) eqn:Hany; cbn [negb].
  - pose proof (bshuf_CopyNextValuesToArray_spec bd n Hcur) as Hcopy.
    destruct (bshuf_CopyNextValuesToArray bd n) as [[n' vals] bd'].
    cbn zeta in Hcopy. destruct Hcopy as (Hn' & Hlen & Hvals & ->).
    destruct (eval_loop_spec m (dict_decoder_ d) vals 0 sel dst false)
      as (sel' & dst' & r & Hrun & Hl & Ha & Hb & Hc & Hd & He).
    { apply Forall_forall. intros c Hc.
      apply list_elem_of_lookup in Hc as [k Hk].
      assert (Hkn : k < n') by (rewrite <- Hlen; by eapply lookup_lt_Some).
      rewrite Hvals in Hk by done.
      pose proof (Forall_lookup_1 _ _ _ _ Hcw Hk) as [Hc0 Hcm]. cbn in *.
      split; [done|lia]. }
    { lia. }
    rewrite Hrun. cbn [mbind option_bind]. eexists. split; [done|].
    cbn [status n_out decoder sel_out dst_out retained with_data_decoder
         data_decoder_].
    split; [done|]. split; [done|]. split; [done|]. split; [done|].
    split; [intros j Hj; apply Ha; lia|].
    split; [intros k c Hk Hlk; rewrite <- Hvals in Hlk by done;
            by apply (Hb k c)|].
    split; [intros k c Hk Hlk; rewrite <- Hvals in Hlk by done;
            by apply (Hc k c)|].
    split; [intros j Hj; apply Hd; destruct Hj; auto with lia|].
    rewrite He, Hlen. split; [by intros [Hr|Hr] | intros Hr; by right].
  - unfold bshuf_SeekForward.
    assert (Hskip : wrap_int32 (Z.of_nat n) = Z.of_nat n).
    { unfold wrap_int32. rewrite Z.mod_small; lia. }
    rewrite Hskip.
    set (n' := n `min` (length (bshuf_elems bd) - Z.to_nat (bshuf_cur_idx bd))).
    assert (Hmin : Z.min (Z.of_nat n)
                     (Z.of_nat (length (bshuf_elems bd)) - bshuf_cur_idx bd)
                   = Z.of_nat n') by lia.
    rewrite Hmin.
    assert (Hto : Z.to_nat (Z.of_nat n' mod 2 ^ 64) = n').
    { rewrite Z.mod_small; lia. }
    rewrite Hto. eexists. split; [done|].
    cbn [status n_out decoder sel_out dst_out retained with_data_decoder
         data_decoder_].
    split; [done|]. split; [done|]. split; [done|]. split; [done|].
    split.
    { intros j Hj. rewrite TestBit_ClearBits.
      rewrite bool_decide_eq_false_2; [done|lia]. }
    split.
    { intros k c Hk Hlk. rewrite TestBit_ClearBits.
      rewrite bool_decide_eq_true_2 by done.
      pose proof (Forall_lookup_1 _ _ _ _ Hcw Hlk) as [Hc0 Hcm]. cbn in Hcm.
      rewrite (AnySelected_false_row m (Z.to_nat c)) by done.
      by rewrite andb_false_r. }
    split.
    { intros k c Hk Hlk Hbit.
      rewrite TestBit_ClearBits, bool_decide_eq_true_2 in Hbit; done. }
    split; [done|].
    split; [done|]. intros (k & Hk & Hbit).
    rewrite TestBit_ClearBits, bool_decide_eq_true_2 in Hbit; done.
Qed.

End Filters.

(** A block of the codewords 0, 1, 0 over the dictionary "x", "y"; the
    predicate matches the codeword 1 only; three rows, all selected. *)
Definition eval_decoder : t :=
  mk [] true (mkPlain ["x"; "y"]%string 0)
     (Some (BShuf (mkBShuf [0; 1; 0]%Z 0))) 0.

Definition eval_matching : SelectionVector := SelectionVector_new 2 [2]%Z.

Definition eval_sel : SelectionVectorView :=
  mkView (SelectionVector_new 3 [7]%Z) 0.

Definition eval_dst : list Slice := ["a"; "b"; "c"]%string.

Definition no_plain_eval (pd : PlainBlockDecoder) (n : nat)
    (sel : SelectionVectorView) (dst : list Slice)
  : Status.t * nat * PlainBlockDecoder * SelectionVectorView * list Slice :=
  (Status.OK, 0, pd, sel, dst).

Lemma CopyNextAndEval_filters_witness :
  exists r,
    @CopyNextAndEval BinaryDictDecoderFacts.spec_encoding no_plain_eval
      eval_decoder 3 false eval_matching eval_sel eval_dst = Some r /\
    status r = Status.OK /\
    n_out r = 3 `min` (3 - 0) /\
    data_decoder_ (decoder r) =
      Some (BShuf (mkBShuf [0; 1; 0]%Z (0 + Z.of_nat (n_out r)))) /\
    length (dst_out r) = 3 /\
    (forall j, n_out r <= j -> TestBit (sel_out r) j = TestBit eval_sel j) /\
    (forall k c,
       k < n_out r -> [0; 1; 0]%Z !! (0 + k) = Some c ->
       TestBit (sel_out r) k =
       TestBit eval_sel k && BitmapTest (bitmap_ eval_matching) (Z.to_nat c)) /\
    (forall k c,
       k < n_out r -> [0; 1; 0]%Z !! (0 + k) = Some c ->
       TestBit (sel_out r) k = true ->
       dst_out r !! k = ["x"; "y"]%string !! Z.to_nat c) /\
    (forall j, n_out r <= j \/ TestBit (sel_out r) j = false ->
               dst_out r !! j = eval_dst !! j) /\
    (retained r = true <->
     exists k, k < n_out r /\ TestBit (sel_out r) k = true).
Proof.
  apply (@CopyNextAndEval_filters BinaryDictDecoderFacts.spec_encoding
           no_plain_eval eval_decoder (mkBShuf [0; 1; 0]%Z 0) 3
           eval_matching eval_sel eval_dst).
  - reflexivity.
  - reflexivity.
  - cbn. lia.
  - reflexivity.
  - cbn. lia.
  - reflexivity.
  - vm_compute. lia.
  - repeat constructor; vm_compute; congruence.
Defined.

(** The run of the witness: the second row stays selected and its cell
    points at "y"; with no matching codeword the shortcut clears the
    three rows and leaves the cells alone; and an [IsNotNull] predicate
    with no matching codeword takes the shortcut as well. *)
Example CopyNextAndEval_run :
  let run is_not_null matching :=
    r ← @CopyNextAndEval BinaryDictDecoderFacts.spec_encoding no_plain_eval
          eval_decoder 3 is_not_null matching eval_sel eval_dst;
    Some (n_out r, TestBit (sel_out r) <$> [0; 1; 2], dst_out r, retained r) in
  run false eval_matching =
    Some (3, [false; true; false], ["a"; "y"; "c"]%string, true) /\
  run false (SelectionVector_new 2 [0]%Z) =
    Some (3, [false; false; false], ["a"; "b"; "c"]%string, false) /\
  run true eval_matching =
    Some (3, [true; true; true], ["x"; "y"; "x"]%string, true) /\
  run true (SelectionVector_new 2 [0]%Z) =
    Some (3, [false; false; false], ["a"; "b"; "c"]%string, false).
Proof. vm_compute. done. Qed.
End BinaryDictEval.
